(** * PromiseImpl: a Promises/A+ implementation, embedded and verified

    Source: [src/PromiseImpl.js].

    The program is higher-order JavaScript: promises are mutable heap
    objects, closures are stored in callback arrays and in the timer
    queue, and foreign thenables run arbitrary code.  The embedding is:

    - a promise is a reference (an index) into a store of records that
      carry the same fields as the class;
    - every closure the source creates is a constructor of [Fn]
      (defunctionalisation); [applyFn] gives each its body;
    - [setTimeout(f, 0)] appends a [Task] to a FIFO queue which [tick]
      drains one task at a time;
    - a foreign [then] method is a [Script]: a straight-line body that
      calls its two arguments, throws, or sets timers that do so later;
    - exceptions are the [Thrown] outcome of a call. *)

From Stdlib Require Import ZArith String Lia.
From stdpp Require Import base list.

Open Scope string_scope.
Open Scope list_scope.

(** ** Values *)

Inductive Status := STATUS_PENDING | STATUS_FULFILLED | STATUS_REJECTED.

(** JavaScript values, as far as the program inspects them.  A foreign
    object (or function, when [callable]) is described by what reading
    its [then] member gives. *)
Inductive Val :=
| VUndefined
| VNull
| VBool (b : bool)
| VNum (n : Z)
| VStr (txt : string)
| VTypeError (msg : string)
| VPromise (p : nat)
| VObj (callable : bool) (thn : ThenMember)
| VArr (xs : list Val)
| VRes (c : nat)
| VSettled (st : Status) (payload : Val)
with ThenMember :=
| ThenNotFunction
| ThenGetterThrows (e : Val)
| ThenFunction (body : Script)
with Script :=
| SEnd
| SFulfil (y : Val) (k : Script)
| SReject (r : Val) (k : Script)
| SThrow (e : Val)
| SLater (later : Script) (k : Script).

(** The result of a call: a returned value or a thrown one. *)
Inductive Outcome := Normal (v : Val) | Thrown (e : Val).

(** ** Closures *)

(** One constructor per function expression of the source.
    - [FResolve p], [FReject p]: [_resolve], [_reject] of the promise [p];
    - [FAdopt promise resolve reject]:
      [value => promiseResolutionProcedure(promise, value, resolve, reject)];
    - [FPass f]: [v => f(v)];
    - [FResolvePromise], [FRejectPromise]: the two arguments given to a
      foreign [then], sharing the variable [called] (a cell of the store);
    - [FProcessRes c iterable i resolve]: [value => processRes(i, value)]
      in [all], over the variables [res], [fulfilledCount] (cell [c]);
    - [FIdentity], [FThrower]: the defaults of [then];
    - [FFulfilledRecord], [FRejectedRecord]: the handlers of [allSettled];
    - [FUser h]: a handler written by the caller. *)
Inductive Fn :=
| FResolve (p : nat)
| FReject (p : nat)
| FAdopt (promise : nat) (resolve reject : Fn)
| FPass (f : Fn)
| FResolvePromise (called : nat) (promise : nat) (resolve reject : Fn)
| FRejectPromise (called : nat) (reject : Fn)
| FProcessRes (c : nat) (iterable : Val) (i : nat) (resolve : Fn)
| FIdentity
| FThrower
| FFulfilledRecord
| FRejectedRecord
| FUser (h : Val -> Outcome).

(** The functions handed to [setTimeout]. [TFulfilled this onFulfilled
    promise2] is the timer body of [then] that calls [onFulfilled(this.value)];
    [resolve] and [reject] there are the capabilities of [promise2].
    [TScript] is a timer set by a foreign [then]. *)
Inductive Task :=
| TFulfilled (this : nat) (onFulfilled : Fn) (promise2 : nat)
| TRejected (this : nat) (onRejected : Fn) (promise2 : nat)
| TScript (body : Script) (onFulfilled onRejected : Fn).

(** A registered callback [() => { setTimeout(t, 0) }]. *)
Inductive Cb := Defer (t : Task).

Definition cbTask (cb : Cb) : Task := match cb with Defer t => t end.

(** ** The store *)

Record PromiseImpl := mkPromise {
  status : Status;
  value : Val;
  reason : Val;
  onFulfilledCbs : list Cb;
  onRejectedCbs : list Cb
}.

(** The variables [res] and [fulfilledCount] of one call of [all];
    [None] is a hole of the JavaScript array. *)
Record AllVars := mkAllVars {
  res : list (option Val);
  fulfilledCount : nat
}.

(** A handler call made by a timer of [then]. *)
Inductive Event := HandlerCalled (this : nat) (handler : Fn) (arg : Val).

Record State := mkState {
  promises : list PromiseImpl;
  calledVars : list bool;
  allVars : list AllVars;
  timers : list Task;
  handlerLog : list Event
}.

Definition emptyState : State := mkState [] [] [] [] [].

Definition setPromises (ps : list PromiseImpl) (s : State) : State :=
  mkState ps (calledVars s) (allVars s) (timers s) (handlerLog s).
Definition setCalledVars (cs : list bool) (s : State) : State :=
  mkState (promises s) cs (allVars s) (timers s) (handlerLog s).
Definition setAllVars (vs : list AllVars) (s : State) : State :=
  mkState (promises s) (calledVars s) vs (timers s) (handlerLog s).
Definition setTimers (ts : list Task) (s : State) : State :=
  mkState (promises s) (calledVars s) (allVars s) ts (handlerLog s).
Definition setHandlerLog (l : list Event) (s : State) : State :=
  mkState (promises s) (calledVars s) (allVars s) (timers s) l.

(** [setTimeout(t, 0)] *)
Definition setTimeout (t : Task) (s : State) : State :=
  setTimers (timers s ++ [t]) s.

Definition statusOf (s : State) (p : nat) : option Status :=
  status <$> promises s !! p.

(** ** invokeArrayFns *)

Definition callCb (cb : Cb) (arg : Val) (s : State) : State :=
  setTimeout (cbTask cb) s.

Definition invokeArrayFns (fns : list Cb) (arg : Val) (s : State) : State :=
  fold_left (fun acc cb => callCb cb arg acc) fns s.

(** ** typeof, truthiness, isIterable *)

Definition typeof (v : Val) : string :=
  match v with
  | VUndefined => "undefined"
  | VNull => "object"
  | VBool _ => "boolean"
  | VNum _ => "number"
  | VStr _ => "string"
  | VObj true _ => "function"
  | _ => "object"
  end.

Definition truthy (v : Val) : bool :=
  match v with
  | VUndefined | VNull => false
  | VBool b => b
  | VNum n => negb (n =? 0)%Z
  | VStr txt => negb (String.eqb txt "")
  | _ => true
  end.

(** [!!value && typeof value[Symbol.iterator] === 'function']: arrays and
    non-empty strings. *)
Definition isIterable (v : Val) : bool :=
  truthy v &&
  match v with
  | VArr _ | VRes _ | VStr _ => true
  | _ => false
  end.

(** [value instanceof PromiseImpl] *)
Definition isPromise (v : Val) : bool :=
  match v with VPromise _ => true | _ => false end.

(** [x !== null && typeof x === 'object' || typeof x === 'function'] *)
Definition isObjectOrFunction (x : Val) : bool :=
  match x with
  | VNull => false
  | _ => String.eqb (typeof x) "object" || String.eqb (typeof x) "function"
  end.

(** [value.length] and [value[i]] for the values that have them. *)
Definition arrayOf (s : State) (v : Val) : option (list Val) :=
  match v with
  | VArr xs => Some xs
  | VStr txt => Some ((fun a => VStr (String a EmptyString)) <$> list_ascii_of_string txt)
  | VRes c => (fun vars => default VUndefined <$> res vars) <$> allVars s !! c
  | _ => None
  end.

Definition lengthOf (s : State) (v : Val) : option nat :=
  length <$> arrayOf s v.

Definition elemAt (s : State) (v : Val) (i : nat) : Val :=
  default VUndefined (arrayOf s v ≫= (.!! i)).

(** [arr[index] = value] on a JavaScript array: writing past the end
    extends the array with holes. *)
Fixpoint arraySet (arr : list (option Val)) (index : nat) (v : Val) : list (option Val) :=
  match index, arr with
  | O, [] => [Some v]
  | O, _ :: rest => Some v :: rest
  | S n, [] => None :: arraySet [] n v
  | S n, slot :: rest => slot :: arraySet rest n v
  end.

(** ** The constructor and the two settlement capabilities *)

Definition pendingPromise : PromiseImpl :=
  mkPromise STATUS_PENDING VNull VNull [] [].

(** [_reject] of the promise [this]. *)
Definition rejectFn (this : nat) (r : Val) (s : State) : Outcome * State :=
  match promises s !! this with
  | Some pr =>
      match status pr with
      | STATUS_PENDING =>
          let pr' := mkPromise STATUS_REJECTED (value pr) r
                       (onFulfilledCbs pr) (onRejectedCbs pr) in
          (Normal VUndefined,
           invokeArrayFns (onRejectedCbs pr) r
             (setPromises (<[this := pr']> (promises s)) s))
      | _ => (Normal VUndefined, s)
      end
  | None => (Normal VUndefined, s)
  end.

(** [new PromiseImpl(executor)]: the executor gets the new promise, whose
    capabilities are [FResolve this] and [FReject this]; what it throws
    goes to [_reject]. *)
Definition construct (executor : nat -> State -> Outcome * State) (s : State)
  : nat * State :=
  let this := length (promises s) in
  let s1 := setPromises (promises s ++ [pendingPromise]) s in
  match executor this s1 with
  | (Normal _, s2) => (this, s2)
  | (Thrown e, s2) => (this, snd (rejectFn this e s2))
  end.

Definition pushOnFulfilled (cb : Cb) (pr : PromiseImpl) : PromiseImpl :=
  mkPromise (status pr) (value pr) (reason pr)
            (onFulfilledCbs pr ++ [cb]) (onRejectedCbs pr).
Definition pushOnRejected (cb : Cb) (pr : PromiseImpl) : PromiseImpl :=
  mkPromise (status pr) (value pr) (reason pr)
            (onFulfilledCbs pr) (onRejectedCbs pr ++ [cb]).

(** The executor of [then]. *)
Definition thenExecutor (this : nat) (onFulfilled onRejected : Fn)
    (promise2 : nat) (s : State) : Outcome * State :=
  match statusOf s this with
  | Some STATUS_FULFILLED =>
      (Normal VUndefined, setTimeout (TFulfilled this onFulfilled promise2) s)
  | Some STATUS_REJECTED =>
      (Normal VUndefined, setTimeout (TRejected this onRejected promise2) s)
  | Some STATUS_PENDING =>
      let s1 := setPromises (alter (pushOnFulfilled
                  (Defer (TFulfilled this onFulfilled promise2))) this (promises s)) s in
      let s2 := setPromises (alter (pushOnRejected
                  (Defer (TRejected this onRejected promise2))) this (promises s1)) s1 in
      (Normal VUndefined, s2)
  | None => (Normal VUndefined, s)
  end.

(** [this.then(onFulfilled, onRejected)]; [None] is an argument that is
    not a function. *)
Definition then_ (this : nat) (onFulfilled onRejected : option Fn) (s : State)
  : nat * State :=
  let onFulfilled := default FIdentity onFulfilled in
  let onRejected := default FThrower onRejected in
  construct (thenExecutor this onFulfilled onRejected) s.

(** [_resolve] of the promise [this]. *)
Definition resolveFn (this : nat) (v : Val) (s : State) : Outcome * State :=
  match v with
  | VPromise q =>
      let '(p2, s1) := then_ q (Some (FPass (FResolve this)))
                                (Some (FPass (FReject this))) s in
      (Normal (VPromise p2), s1)
  | _ =>
      match promises s !! this with
      | Some pr =>
          match status pr with
          | STATUS_PENDING =>
              let pr' := mkPromise STATUS_FULFILLED v (reason pr)
                           (onFulfilledCbs pr) (onRejectedCbs pr) in
              (Normal VUndefined,
               invokeArrayFns (onFulfilledCbs pr) v
                 (setPromises (<[this := pr']> (promises s)) s))
          | _ => (Normal VUndefined, s)
          end
      | None => (Normal VUndefined, s)
      end
  end.

(** ** The resolution procedure *)

Definition cyclicMessage : string :=
  "`promise` and `x` refer to the same object, see: https://promisesaplus.com/#point-48".

Definition isCalled (called : nat) (s : State) : bool :=
  default false (calledVars s !! called).
Definition setCalled (called : nat) (s : State) : State :=
  setCalledVars (<[called := true]> (calledVars s)) s.
(** [let called = false] *)
Definition newCalled (s : State) : nat * State :=
  (length (calledVars s), setCalledVars (calledVars s ++ [false]) s).

Definition Call := Val -> State -> Outcome * State.

(** The [catch] block of the procedure. *)
Definition prpCatch (callReject : Call) (called : nat) (e : Val) (s : State)
  : Outcome * State :=
  if isCalled called s then (Normal VUndefined, s)
  else match callReject e (setCalled called s) with
       | (Normal _, s1) => (Normal VUndefined, s1)
       | (Thrown e', s1) => (Thrown e', s1)
       end.

(** [promiseResolutionProcedure(promise, x, resolve, reject)], by
    recursion on [x]: the procedure only re-enters itself synchronously
    from [resolvePromise], on a value that the body of [x.then] holds.
    [resolve] and [reject] come twice, as the closures to store and as
    what calling them does. [scriptOn] is the body of a foreign [then]
    run with [resolvePromise] and [rejectPromise] as arguments. *)
Fixpoint prpOn (resolve reject : Fn) (callResolve callReject : Call)
    (promise : nat) (x : Val) {struct x} : State -> Outcome * State :=
  fun s =>
  match x with
  | VPromise q =>
      if Nat.eqb promise q then callReject (VTypeError cyclicMessage) s
      else
        let '(p2, s1) := then_ q (Some (FAdopt promise resolve reject))
                                  (Some (FPass reject)) s in
        (Normal (VPromise p2), s1)
  | VObj _ (ThenGetterThrows e) =>
      let '(called, s0) := newCalled s in
      prpCatch callReject called e s0
  | VObj _ (ThenFunction body) =>
      let '(called, s0) := newCalled s in
      match scriptOn resolve reject callResolve callReject promise called body s0 with
      | (Normal _, s1) => (Normal VUndefined, s1)
      | (Thrown e, s1) => prpCatch callReject called e s1
      end
  | _ =>
      let '(called, s0) := newCalled s in
      if isObjectOrFunction x then
        match callResolve x s0 with
        | (Normal _, s1) => (Normal VUndefined, s1)
        | (Thrown e, s1) => prpCatch callReject called e s1
        end
      else
        match callResolve x s0 with
        | (Normal _, s1) => (Normal VUndefined, s1)
        | (Thrown e, s1) => (Thrown e, s1)
        end
  end
with scriptOn (resolve reject : Fn) (callResolve callReject : Call)
    (promise : nat) (called : nat) (body : Script) {struct body}
    : State -> Outcome * State :=
  fun s =>
  match body with
  | SEnd => (Normal VUndefined, s)
  | SFulfil y k =>
      if isCalled called s then
        scriptOn resolve reject callResolve callReject promise called k s
      else
        match prpOn resolve reject callResolve callReject promise y
                (setCalled called s) with
        | (Normal _, s1) =>
            scriptOn resolve reject callResolve callReject promise called k s1
        | (Thrown e, s1) => (Thrown e, s1)
        end
  | SReject r k =>
      if isCalled called s then
        scriptOn resolve reject callResolve callReject promise called k s
      else
        match callReject r (setCalled called s) with
        | (Normal _, s1) =>
            scriptOn resolve reject callResolve callReject promise called k s1
        | (Thrown e, s1) => (Thrown e, s1)
        end
  | SThrow e => (Thrown e, s)
  | SLater later k =>
      scriptOn resolve reject callResolve callReject promise called k
        (setTimeout (TScript later
                       (FResolvePromise called promise resolve reject)
                       (FRejectPromise called reject)) s)
  end.

(** ** Calling a closure *)

(** [processRes(index, value)] of [all]. *)
Definition processRes (callResolve : Call) (c : nat) (iterable : Val)
    (index : nat) (v : Val) (s : State) : Outcome * State :=
  match allVars s !! c with
  | Some vars =>
      let vars' := mkAllVars (arraySet (res vars) index v)
                             (S (fulfilledCount vars)) in
      let s1 := setAllVars (<[c := vars']> (allVars s)) s in
      if bool_decide (lengthOf s1 iterable = Some (fulfilledCount vars'))
      then match callResolve (VRes c) s1 with
           | (Normal _, s2) => (Normal VUndefined, s2)
           | (Thrown e, s2) => (Thrown e, s2)
           end
      else (Normal VUndefined, s1)
  | None => (Normal VUndefined, s)
  end.

Fixpoint applyFn (f : Fn) {struct f} : Call :=
  match f with
  | FResolve p => resolveFn p
  | FReject p => rejectFn p
  | FAdopt promise resolve reject =>
      prpOn resolve reject (applyFn resolve) (applyFn reject) promise
  | FPass g => applyFn g
  | FResolvePromise called promise resolve reject =>
      fun y s =>
        if isCalled called s then (Normal VUndefined, s)
        else
          match prpOn resolve reject (applyFn resolve) (applyFn reject)
                  promise y (setCalled called s) with
          | (Normal _, s1) => (Normal VUndefined, s1)
          | (Thrown e, s1) => (Thrown e, s1)
          end
  | FRejectPromise called reject =>
      fun r s =>
        if isCalled called s then (Normal VUndefined, s)
        else
          match applyFn reject r (setCalled called s) with
          | (Normal _, s1) => (Normal VUndefined, s1)
          | (Thrown e, s1) => (Thrown e, s1)
          end
  | FProcessRes c iterable i resolve =>
      processRes (applyFn resolve) c iterable i
  | FIdentity => fun v s => (Normal v, s)
  | FThrower => fun r s => (Thrown r, s)
  | FFulfilledRecord => fun v s => (Normal (VSettled STATUS_FULFILLED v), s)
  | FRejectedRecord => fun r s => (Normal (VSettled STATUS_REJECTED r), s)
  | FUser h => fun v s => (h v, s)
  end.

Definition promiseResolutionProcedure (promise : nat) (x : Val)
    (resolve reject : Fn) : State -> Outcome * State :=
  prpOn resolve reject (applyFn resolve) (applyFn reject) promise x.

(** The body of a foreign [then] called with the arguments
    [onFulfilled] and [onRejected]. *)
Fixpoint runScript (body : Script) (onFulfilled onRejected : Fn) (s : State)
  : Outcome * State :=
  match body with
  | SEnd => (Normal VUndefined, s)
  | SFulfil y k =>
      match applyFn onFulfilled y s with
      | (Normal _, s1) => runScript k onFulfilled onRejected s1
      | (Thrown e, s1) => (Thrown e, s1)
      end
  | SReject r k =>
      match applyFn onRejected r s with
      | (Normal _, s1) => runScript k onFulfilled onRejected s1
      | (Thrown e, s1) => (Thrown e, s1)
      end
  | SThrow e => (Thrown e, s)
  | SLater later k =>
      runScript k onFulfilled onRejected
        (setTimeout (TScript later onFulfilled onRejected) s)
  end.

(** ** The timer queue *)

Definition logHandler (ev : Event) (s : State) : State :=
  setHandlerLog (handlerLog s ++ [ev]) s.

(** The body of the timers of [then]:
    [try { let x = handler(arg); promiseResolutionProcedure(promise2, x,
    resolve, reject) } catch (e) { reject(e) }]. *)
Definition handlerBody (this : nat) (handler : Fn) (arg : Val) (promise2 : nat)
    (s : State) : State :=
  match applyFn handler arg (logHandler (HandlerCalled this handler arg) s) with
  | (Normal x, s1) =>
      match promiseResolutionProcedure promise2 x
              (FResolve promise2) (FReject promise2) s1 with
      | (Normal _, s2) => s2
      | (Thrown e, s2) => snd (rejectFn promise2 e s2)
      end
  | (Thrown e, s1) => snd (rejectFn promise2 e s1)
  end.

(** Running one timer. What a timer of a foreign [then] throws is lost. *)
Definition runTask (t : Task) (s : State) : State :=
  match t with
  | TFulfilled this onFulfilled promise2 =>
      match promises s !! this with
      | Some pr => handlerBody this onFulfilled (value pr) promise2 s
      | None => s
      end
  | TRejected this onRejected promise2 =>
      match promises s !! this with
      | Some pr => handlerBody this onRejected (reason pr) promise2 s
      | None => s
      end
  | TScript body onFulfilled onRejected =>
      snd (runScript body onFulfilled onRejected s)
  end.

(** One turn of the event loop: the oldest timer fires. *)
Definition tick (s : State) : State :=
  match timers s with
  | [] => s
  | t :: rest => runTask t (setTimers rest s)
  end.

Fixpoint run (n : nat) (s : State) : State :=
  match n with
  | O => s
  | S m => run m (tick s)
  end.

(** ** The static methods *)

(** [PromiseImpl.resolve(value)].  The test of the second case reads
    [value.then], which may throw, outside of any executor. *)
Definition resolve_ (v : Val) (s : State) : Outcome * State :=
  match v with
  | VPromise p => (Normal (VPromise p), s)
  | VObj false (ThenGetterThrows e) => (Thrown e, s)
  | VObj false (ThenFunction body) =>
      let '(p, s1) :=
        construct (fun this =>
          runScript body (FPass (FResolve this)) (FPass (FReject this))) s in
      (Normal (VPromise p), s1)
  | _ =>
      let '(p, s1) := construct (fun this => resolveFn this v) s in
      (Normal (VPromise p), s1)
  end.

(** [PromiseImpl.reject(reason)] *)
Definition reject_ (r : Val) (s : State) : Outcome * State :=
  let '(p, s1) := construct (fun this => rejectFn this r) s in
  (Normal (VPromise p), s1).

Definition notIterableMessage (iterable : Val) : string :=
  String.append "TypeError: "
    (String.append (typeof iterable)
       " is not iterable (cannot read property Symbol(Symbol.iterator))").

(** [iterator && typeof iterator.then === 'function'] *)
Inductive ThenTest := HasThen | NoThen | TestThrows (e : Val).

Definition testThen (iterator : Val) : ThenTest :=
  if truthy iterator then
    match iterator with
    | VPromise _ => HasThen
    | VObj _ (ThenFunction _) => HasThen
    | VObj _ (ThenGetterThrows e) => TestThrows e
    | _ => NoThen
    end
  else NoThen.

(** [iterator.then(onFulfilled, onRejected)] when the test passed. *)
Definition callThen (iterator : Val) (onFulfilled onRejected : Fn) (s : State)
  : Outcome * State :=
  match iterator with
  | VPromise q =>
      let '(p2, s1) := then_ q (Some onFulfilled) (Some onRejected) s in
      (Normal (VPromise p2), s1)
  | VObj _ (ThenFunction body) => runScript body onFulfilled onRejected s
  | _ => (Thrown (VTypeError "iterator.then is not a function"), s)
  end.

(** The loop of [all] from index [i]; [n] bounds the iterations left and
    the test [i < iterable.length] is the one of the source. *)
Fixpoint allLoop (this c : nat) (iterable : Val) (n i : nat) (s : State)
  : Outcome * State :=
  match n with
  | O => (Normal VUndefined, s)
  | S n' =>
      match lengthOf s iterable with
      | Some len =>
          if Nat.ltb i len then
            let iterator := elemAt s iterable i in
            match testThen iterator with
            | TestThrows e => (Thrown e, s)
            | HasThen =>
                match callThen iterator
                        (FProcessRes c iterable i (FResolve this))
                        (FPass (FReject this)) s with
                | (Normal _, s1) => allLoop this c iterable n' (S i) s1
                | (Thrown e, s1) => (Thrown e, s1)
                end
            | NoThen =>
                match processRes (resolveFn this) c iterable i iterator s with
                | (Normal _, s1) => allLoop this c iterable n' (S i) s1
                | (Thrown e, s1) => (Thrown e, s1)
                end
            end
          else (Normal VUndefined, s)
      | None => (Normal VUndefined, s)
      end
  end.

Definition allExecutor (iterable : Val) (this : nat) (s : State)
  : Outcome * State :=
  let c := length (allVars s) in
  let s0 := setAllVars (allVars s ++ [mkAllVars [] 0]) s in
  match lengthOf s0 iterable with
  | Some O => resolveFn this (VRes c) s0
  | Some len => allLoop this c iterable len 0 s0
  | None => (Normal VUndefined, s0)
  end.

(** [PromiseImpl.all(iterable)] *)
Definition all (iterable : Val) (s : State) : Outcome * State :=
  if isIterable iterable then
    let '(p, s1) := construct (allExecutor iterable) s in
    (Normal (VPromise p), s1)
  else (Normal (VTypeError (notIterableMessage iterable)), s).

Definition raceExecutor (iterable : Val) (this : nat) (s : State)
  : Outcome * State :=
  match lengthOf s iterable with
  | Some (S _) =>
      let iterator := elemAt s iterable 0 in
      match testThen iterator with
      | TestThrows e => (Thrown e, s)
      | HasThen =>
          match callThen iterator (FPass (FResolve this))
                  (FPass (FReject this)) s with
          | (Normal _, s1) => (Normal VUndefined, s1)
          | (Thrown e, s1) => (Thrown e, s1)
          end
      | NoThen =>
          match resolveFn this iterator s with
          | (Normal _, s1) => (Normal VUndefined, s1)
          | (Thrown e, s1) => (Thrown e, s1)
          end
      end
  | _ => (Normal VUndefined, s)
  end.

(** [PromiseImpl.race(iterable)] *)
Definition race (iterable : Val) (s : State) : Outcome * State :=
  if isIterable iterable then
    let '(p, s1) := construct (raceExecutor iterable) s in
    (Normal (VPromise p), s1)
  else (Normal (VTypeError (notIterableMessage iterable)), s).

(** The [for ... of] loop of [allSettled], building [promises]. *)
Fixpoint settledLoop (items : list Val) (acc : list Val) (s : State)
  : Outcome * State + list Val * State :=
  match items with
  | [] => inr (acc, s)
  | iterator :: rest =>
      match resolve_ iterator s with
      | (Normal (VPromise q), s1) =>
          let '(p2, s2) := then_ q (Some FFulfilledRecord)
                                    (Some FRejectedRecord) s1 in
          settledLoop rest (acc ++ [VPromise p2]) s2
      | (o, s1) => inl (o, s1)
      end
  end.

(** [PromiseImpl.allSettled(iterable)] *)
Definition allSettled (iterable : Val) (s : State) : Outcome * State :=
  if isIterable iterable then
    match settledLoop (default [] (arrayOf s iterable)) [] s with
    | inr (ps, s1) => all (VArr ps) s1
    | inl (o, s1) => (o, s1)
    end
  else (Normal (VTypeError (notIterableMessage iterable)), s).

(** [catch(onRejected)] *)
Definition catch_ (this : nat) (onRejected : option Fn) (s : State)
  : nat * State :=
  then_ this None onRejected s.

(** [PromiseImpl.deferred()]: the promise; its two capabilities are
    [FResolve] and [FReject] of it. *)
Definition deferred (s : State) : nat * State :=
  construct (fun _ s1 => (Normal VUndefined, s1)) s.

(** * Properties *)

Scheme Val_script_ind := Induction for Val Sort Prop
  with ThenMember_script_ind := Induction for ThenMember Sort Prop
  with Script_val_ind := Induction for Script Sort Prop.

(** ** What the rest of the program may do

    Between two observations the surrounding program may call any closure
    it holds, call [then] or a static method, or let a timer fire. *)
Inductive Action :=
| ACall (f : Fn) (v : Val)
| AThen (this : nat) (onFulfilled onRejected : option Fn)
| AResolve (v : Val)
| AReject (r : Val)
| AAll (iterable : Val)
| ARace (iterable : Val)
| AAllSettled (iterable : Val)
| ATick.

Definition perform (s : State) (a : Action) : State :=
  match a with
  | ACall f v => snd (applyFn f v s)
  | AThen this onFulfilled onRejected => snd (then_ this onFulfilled onRejected s)
  | AResolve v => snd (resolve_ v s)
  | AReject r => snd (reject_ r s)
  | AAll iterable => snd (all iterable s)
  | ARace iterable => snd (race iterable s)
  | AAllSettled iterable => snd (allSettled iterable s)
  | ATick => tick s
  end.

Definition performAll (acts : list Action) (s : State) : State :=
  fold_left perform acts s.

(** ** Who can settle what

    A closure can settle the promises whose [_resolve] or [_reject] it
    holds, and write the variables of the calls of [all] whose
    [processRes] it holds.  Given the set [okP] of promises and the set
    [okC] of calls of [all] that a piece of code is allowed to touch,
    [fnOk] says that a closure stays within them.  A timer of [then]
    holds the capabilities of its [promise2]. *)
Section Frame.

Variables (okP okC : nat -> bool).

Fixpoint fnOk (f : Fn) : bool :=
  match f with
  | FResolve p | FReject p => okP p
  | FAdopt _ resolve reject => fnOk resolve && fnOk reject
  | FPass g => fnOk g
  | FResolvePromise _ _ resolve reject => fnOk resolve && fnOk reject
  | FRejectPromise _ reject => fnOk reject
  | FProcessRes c _ _ resolve => okC c && fnOk resolve
  | _ => true
  end.

Definition taskOk (t : Task) : bool :=
  match t with
  | TFulfilled _ handler promise2 | TRejected _ handler promise2 =>
      fnOk handler && okP promise2
  | TScript _ onFulfilled onRejected => fnOk onFulfilled && fnOk onRejected
  end.

Definition cbOk (cb : Cb) : bool :=
  match cb with Defer t => taskOk t end.

Definition handlerOk (h : option Fn) : bool :=
  match h with Some f => fnOk f | None => true end.

Definition actionOk (a : Action) : bool :=
  match a with
  | ACall f _ => fnOk f
  | AThen _ onFulfilled onRejected => handlerOk onFulfilled && handlerOk onRejected
  | _ => true
  end.

(** A timer of [then] is only set once its source is settled. *)
Definition timerReady (s : State) (t : Task) : Prop :=
  match t with
  | TFulfilled this _ _ => statusOf s this = Some STATUS_FULFILLED
  | TRejected this _ _ => statusOf s this = Some STATUS_REJECTED
  | TScript _ _ _ => True
  end.

(** What is created from now on may be touched. *)
Definition freshOk (s : State) : Prop :=
  (forall n, length (promises s) <= n -> okP n = true)
  /\ (forall n, length (allVars s) <= n -> okC n = true).

(** An invariant that every elementary update of the store maintains,
    when the update is made on behalf of allowed closures, is maintained
    by every allowed call. *)
Variable Inv : State -> Prop.

Hypothesis Inv_fresh : forall s, Inv s -> freshOk s.
Hypothesis Inv_setTimeout :
  forall t s, taskOk t = true -> timerReady s t -> Inv s -> Inv (setTimeout t s).
Hypothesis Inv_alloc :
  forall s, Inv s -> Inv (setPromises (promises s ++ [pendingPromise]) s).
Hypothesis Inv_fulfil :
  forall s p pr v,
    okP p = true -> promises s !! p = Some pr -> status pr = STATUS_PENDING ->
    isPromise v = false -> Inv s ->
    Inv (invokeArrayFns (onFulfilledCbs pr) v
           (setPromises
              (<[p := mkPromise STATUS_FULFILLED v (reason pr)
                        (onFulfilledCbs pr) (onRejectedCbs pr)]> (promises s)) s)).
Hypothesis Inv_reject :
  forall s p pr r,
    okP p = true -> promises s !! p = Some pr -> status pr = STATUS_PENDING ->
    Inv s ->
    Inv (invokeArrayFns (onRejectedCbs pr) r
           (setPromises
              (<[p := mkPromise STATUS_REJECTED (value pr) r
                        (onFulfilledCbs pr) (onRejectedCbs pr)]> (promises s)) s)).
Hypothesis Inv_register :
  forall s this f g promise2,
    fnOk f = true -> fnOk g = true -> okP promise2 = true ->
    statusOf s this = Some STATUS_PENDING -> Inv s ->
    Inv (let s1 := setPromises (alter (pushOnFulfilled
                      (Defer (TFulfilled this f promise2))) this (promises s)) s in
         setPromises (alter (pushOnRejected
           (Defer (TRejected this g promise2))) this (promises s1)) s1).
Hypothesis Inv_newCalled : forall s, Inv s -> Inv (snd (newCalled s)).
Hypothesis Inv_setCalled : forall g s, Inv s -> Inv (setCalled g s).
Hypothesis Inv_allocVars :
  forall s, Inv s -> Inv (setAllVars (allVars s ++ [mkAllVars [] 0]) s).
Hypothesis Inv_setVars :
  forall s c vars index v,
    okC c = true -> allVars s !! c = Some vars -> Inv s ->
    Inv (setAllVars (<[c := mkAllVars (arraySet (res vars) index v)
                               (S (fulfilledCount vars))]> (allVars s)) s).
Hypothesis Inv_logHandler : forall ev s, Inv s -> Inv (logHandler ev s).

Lemma rejectFn_pres this r s :
  okP this = true -> Inv s -> Inv (snd (rejectFn this r s)).
Proof using Inv_reject.
  intros Hok HI. unfold rejectFn.
  destruct (promises s !! this) as [pr|] eqn:E; [|exact HI].
  destruct (status pr) eqn:Est; cbn [snd]; try exact HI.
  eapply Inv_reject; eauto.
Qed.

Lemma construct_pres executor s :
  Inv s ->
  (okP (length (promises s)) = true ->
   forall s', Inv s' -> Inv (snd (executor (length (promises s)) s'))) ->
  Inv (snd (construct executor s)).
Proof using Inv_fresh Inv_alloc Inv_reject.
  intros HI Hex. unfold construct.
  assert (Hok : okP (length (promises s)) = true)
    by (apply (Inv_fresh s HI); lia).
  pose proof (Hex Hok _ (Inv_alloc s HI)) as H1.
  destruct (executor _ _) as [[v|e] s2]; cbn [snd] in *; [exact H1|].
  apply rejectFn_pres; assumption.
Qed.

Lemma newPromise_pres executor s :
  Inv s ->
  (okP (length (promises s)) = true ->
   forall s', Inv s' -> Inv (snd (executor (length (promises s)) s'))) ->
  Inv (snd (let '(p, s1) := construct executor s in (Normal (VPromise p), s1))).
Proof using Inv_fresh Inv_alloc Inv_reject.
  intros HI Hex. pose proof (construct_pres executor s HI Hex) as H1.
  destruct (construct executor s) as [p s1]. exact H1.
Qed.

Lemma thenExecutor_pres this f g promise2 s :
  fnOk f = true -> fnOk g = true -> okP promise2 = true ->
  Inv s -> Inv (snd (thenExecutor this f g promise2 s)).
Proof using Inv_setTimeout Inv_register.
  intros Hf Hg Hp HI. unfold thenExecutor.
  destruct (statusOf s this) as [[]|] eqn:Est; cbn [snd]; try exact HI.
  - apply Inv_register; assumption.
  - apply Inv_setTimeout; [|exact Est|exact HI].
    cbn [taskOk]. apply andb_true_intro; auto.
  - apply Inv_setTimeout; [|exact Est|exact HI].
    cbn [taskOk]. apply andb_true_intro; auto.
Qed.

Lemma then_pres this onF onR s :
  handlerOk onF = true -> handlerOk onR = true ->
  Inv s -> Inv (snd (then_ this onF onR s)).
Proof using Inv_fresh Inv_setTimeout Inv_alloc Inv_reject Inv_register.
  intros Hf Hg HI. unfold then_. apply construct_pres; [exact HI|].
  intros Hok s' HI'. apply thenExecutor_pres; try assumption.
  - destruct onF; [exact Hf | reflexivity].
  - destruct onR; [exact Hg | reflexivity].
Qed.

Lemma resolveFn_pres this v s :
  okP this = true -> Inv s -> Inv (snd (resolveFn this v s)).
Proof using Inv_fresh Inv_setTimeout Inv_alloc Inv_fulfil Inv_reject Inv_register.
  intros Hok HI. unfold resolveFn.
  assert (Hplain : isPromise v = false -> Inv (snd
    match promises s !! this with
    | Some pr =>
        match status pr with
        | STATUS_PENDING =>
            (Normal VUndefined,
             invokeArrayFns (onFulfilledCbs pr) v
               (setPromises (<[this := mkPromise STATUS_FULFILLED v (reason pr)
                   (onFulfilledCbs pr) (onRejectedCbs pr)]> (promises s)) s))
        | _ => (Normal VUndefined, s)
        end
    | None => (Normal VUndefined, s)
    end)).
  { intros Hv. destruct (promises s !! this) as [pr|] eqn:E; [|exact HI].
    destruct (status pr) eqn:Est; cbn [snd]; try exact HI.
    eapply Inv_fulfil; eauto. }
  destruct v; try (apply Hplain; reflexivity).
  pose proof (then_pres p (Some (FPass (FResolve this)))
                (Some (FPass (FReject this))) s Hok Hok HI) as H.
  destruct (then_ _ _ _ _) as [p2 s1]. exact H.
Qed.

Section Procedure.

Variables (resolve reject : Fn) (callResolve callReject : Call).
Hypothesis resolve_ok : fnOk resolve = true.
Hypothesis reject_ok : fnOk reject = true.
Hypothesis callResolve_pres : forall v s, Inv s -> Inv (snd (callResolve v s)).
Hypothesis callReject_pres : forall v s, Inv s -> Inv (snd (callReject v s)).

Lemma prpCatch_pres called e s :
  Inv s -> Inv (snd (prpCatch callReject called e s)).
Proof using Inv_setCalled callReject_pres.
  intros HI. unfold prpCatch. destruct (isCalled called s); [exact HI|].
  pose proof (callReject_pres e _ (Inv_setCalled called s HI)) as H.
  destruct (callReject _ _) as [[?|?] s1]; exact H.
Qed.

Lemma tryResolve_pres called x s :
  Inv s ->
  Inv (snd match callResolve x s with
           | (Normal _, s1) => (Normal VUndefined, s1)
           | (Thrown e, s1) => prpCatch callReject called e s1
           end).
Proof using Inv_setCalled callReject_pres callResolve_pres.
  intros HI. pose proof (callResolve_pres x s HI) as H.
  destruct (callResolve x s) as [[?|e] s1]; cbn [snd] in *; [exact H|].
  apply prpCatch_pres. exact H.
Qed.

Lemma plainResolve_pres x s :
  Inv s ->
  Inv (snd match callResolve x s with
           | (Normal _, s1) => (Normal VUndefined, s1)
           | (Thrown e, s1) => (Thrown e, s1)
           end).
Proof using callResolve_pres.
  intros HI. pose proof (callResolve_pres x s HI) as H.
  destruct (callResolve x s) as [[?|e] s1]; exact H.
Qed.

Lemma prpPlain_pres x s :
  Inv s ->
  Inv (snd (let '(called, s0) := newCalled s in
            if isObjectOrFunction x then
              match callResolve x s0 with
              | (Normal _, s1) => (Normal VUndefined, s1)
              | (Thrown e, s1) => prpCatch callReject called e s1
              end
            else
              match callResolve x s0 with
              | (Normal _, s1) => (Normal VUndefined, s1)
              | (Thrown e, s1) => (Thrown e, s1)
              end)).
Proof using Inv_newCalled Inv_setCalled callResolve_pres callReject_pres.
  intros HI. pose proof (Inv_newCalled s HI) as H0.
  unfold newCalled in *. cbn [snd] in H0.
  destruct (isObjectOrFunction x);
    [apply tryResolve_pres | apply plainResolve_pres]; exact H0.
Qed.

Lemma prpOn_pres x :
  forall promise s,
    Inv s ->
    Inv (snd (prpOn resolve reject callResolve callReject promise x s)).
Proof using Inv_fresh Inv_setTimeout Inv_alloc Inv_reject Inv_register
            Inv_newCalled Inv_setCalled resolve_ok reject_ok
            callResolve_pres callReject_pres.
  induction x using Val_script_ind with
    (P0 := fun thn => forall c promise s,
       Inv s ->
       Inv (snd (prpOn resolve reject callResolve callReject promise
                   (VObj c thn) s)))
    (P1 := fun body => forall promise called s,
       Inv s ->
       Inv (snd (scriptOn resolve reject callResolve callReject promise
                   called body s)));
    intros; try (apply prpPlain_pres; assumption).
  - (* a promise of this implementation *)
    cbn [prpOn]. destruct (Nat.eqb promise p); [apply callReject_pres; assumption|].
    assert (Hh : handlerOk (Some (FAdopt promise resolve reject)) = true).
    { cbn. rewrite resolve_ok, reject_ok. reflexivity. }
    pose proof (then_pres p (Some (FAdopt promise resolve reject))
                  (Some (FPass reject)) s Hh reject_ok H) as H1.
    destruct (then_ _ _ _ _) as [p2 s1]. exact H1.
  - apply IHx. assumption.
  - (* the getter of [then] throws *)
    cbn [prpOn]. pose proof (Inv_newCalled s H) as H0.
    unfold newCalled in *. cbn [snd] in H0. apply prpCatch_pres. exact H0.
  - (* a foreign [then] *)
    cbn [prpOn]. pose proof (Inv_newCalled s H) as H0.
    unfold newCalled in *. cbn [snd] in H0.
    pose proof (IHx promise (length (calledVars s)) _ H0) as H1.
    destruct (scriptOn _ _ _ _ _ _ _ _) as [[?|e] s1]; cbn [snd] in *;
      [exact H1 | apply prpCatch_pres; exact H1].
  - exact H.
  - cbn [scriptOn]. destruct (isCalled called s); [apply IHx0; assumption|].
    pose proof (IHx promise _ (Inv_setCalled called s H)) as H1.
    destruct (prpOn _ _ _ _ _ _ _) as [[?|e] s1]; cbn [snd] in *;
      [apply IHx0; exact H1 | exact H1].
  - cbn [scriptOn]. destruct (isCalled called s); [apply IHx0; assumption|].
    match goal with
    | |- context [callReject ?a ?s'] =>
        pose proof (callReject_pres a s' (Inv_setCalled called s H)) as H1
    end.
    destruct (callReject _ _) as [[?|e] s1]; cbn [snd] in *;
      [apply IHx0; exact H1 | exact H1].
  - exact H.
  - cbn [scriptOn]. apply IHx0. apply Inv_setTimeout; [|exact I|exact H].
    cbn [taskOk fnOk]. rewrite resolve_ok, reject_ok. reflexivity.
Qed.

End Procedure.

Lemma processRes_pres callResolve c iterable index v s :
  okC c = true ->
  (forall v s, Inv s -> Inv (snd (callResolve v s))) ->
  Inv s -> Inv (snd (processRes callResolve c iterable index v s)).
Proof using Inv_setVars.
  intros Hc Hres HI. unfold processRes.
  destruct (allVars s !! c) as [vars|] eqn:E; [|exact HI].
  pose proof (Inv_setVars s c vars index v Hc E HI) as H1.
  cbv zeta. case_bool_decide; cbn [snd]; [|exact H1].
  match goal with
  | |- context [callResolve ?a ?s'] => pose proof (Hres a s' H1) as Hr
  end.
  destruct (callResolve _ _) as [[?|?] s2]; exact Hr.
Qed.

Lemma applyFn_pres f : forall v s,
  fnOk f = true -> Inv s -> Inv (snd (applyFn f v s)).
Proof using Inv_fresh Inv_setTimeout Inv_alloc Inv_fulfil Inv_reject
            Inv_register Inv_newCalled Inv_setCalled Inv_setVars.
  induction f; intros v s Hok HI; cbn [applyFn]; cbn [fnOk] in Hok;
    try apply andb_prop in Hok as [Hok1 Hok2]; try exact HI.
  - apply resolveFn_pres; assumption.
  - apply rejectFn_pres; assumption.
  - apply prpOn_pres; auto.
  - apply IHf; assumption.
  - destruct (isCalled called s); [exact HI|].
    pose proof (prpOn_pres f1 f2 _ _ Hok1 Hok2
                  (fun v s => IHf1 v s Hok1) (fun v s => IHf2 v s Hok2)
                  v promise _ (Inv_setCalled called s HI)) as H.
    destruct (prpOn _ _ _ _ _ _ _) as [[?|?] s1]; exact H.
  - destruct (isCalled called s); [exact HI|].
    pose proof (IHf v _ Hok (Inv_setCalled called s HI)) as H.
    destruct (applyFn _ _ _) as [[?|?] s1]; exact H.
  - apply processRes_pres; auto.
Qed.

Lemma promiseResolutionProcedure_pres promise x resolve reject s :
  fnOk resolve = true -> fnOk reject = true ->
  Inv s -> Inv (snd (promiseResolutionProcedure promise x resolve reject s)).
Proof using Inv_fresh Inv_setTimeout Inv_alloc Inv_fulfil Inv_reject
            Inv_register Inv_newCalled Inv_setCalled Inv_setVars.
  intros Hrs Hrj HI. apply prpOn_pres; auto using applyFn_pres.
Qed.

Lemma runScript_pres body onF onR : forall s,
  fnOk onF = true -> fnOk onR = true ->
  Inv s -> Inv (snd (runScript body onF onR s)).
Proof using Inv_fresh Inv_setTimeout Inv_alloc Inv_fulfil Inv_reject
            Inv_register Inv_newCalled Inv_setCalled Inv_setVars.
  induction body; intros s Hf Hr HI; cbn [runScript]; try exact HI.
  - pose proof (applyFn_pres onF y s Hf HI) as H.
    destruct (applyFn onF y s) as [[?|?] s1]; cbn [snd] in *; [|exact H].
    apply IHbody; assumption.
  - pose proof (applyFn_pres onR r s Hr HI) as H.
    destruct (applyFn onR r s) as [[?|?] s1]; cbn [snd] in *; [|exact H].
    apply IHbody; assumption.
  - apply IHbody2; try assumption. apply Inv_setTimeout; [|exact I|exact HI].
    cbn [taskOk]. rewrite Hf, Hr. reflexivity.
Qed.

Lemma callThen_pres iterator onF onR s :
  fnOk onF = true -> fnOk onR = true ->
  Inv s -> Inv (snd (callThen iterator onF onR s)).
Proof using Inv_fresh Inv_setTimeout Inv_alloc Inv_fulfil Inv_reject
            Inv_register Inv_newCalled Inv_setCalled Inv_setVars.
  intros Hf Hr HI. destruct iterator; cbn [callThen snd]; try exact HI.
  - pose proof (then_pres p (Some onF) (Some onR) s Hf Hr HI) as H.
    destruct (then_ _ _ _ _) as [p2 s1]. exact H.
  - destruct thn; cbn [snd]; try exact HI. apply runScript_pres; assumption.
Qed.

Lemma resolve__pres v s : Inv s -> Inv (snd (resolve_ v s)).
Proof using Inv_fresh Inv_setTimeout Inv_alloc Inv_fulfil Inv_reject
            Inv_register Inv_newCalled Inv_setCalled Inv_setVars.
  intros HI.
  assert (Hdef : Inv (snd (let '(p, s1) :=
              construct (fun this => resolveFn this v) s in
              (Normal (VPromise p), s1)))).
  { apply newPromise_pres; [exact HI|]. intros; apply resolveFn_pres; assumption. }
  destruct v; try exact Hdef.
  - exact HI.
  - destruct callable; [exact Hdef|].
    destruct thn; [exact Hdef | exact HI |].
    cbn [resolve_]. apply newPromise_pres; [exact HI|].
    intros; apply runScript_pres; assumption.
Qed.

Lemma reject__pres r s : Inv s -> Inv (snd (reject_ r s)).
Proof using Inv_fresh Inv_alloc Inv_reject.
  intros HI. unfold reject_. apply newPromise_pres; [exact HI|].
  intros; apply rejectFn_pres; assumption.
Qed.

Lemma allLoop_pres this c iterable n : forall i s,
  okP this = true -> okC c = true ->
  Inv s -> Inv (snd (allLoop this c iterable n i s)).
Proof using Inv_fresh Inv_setTimeout Inv_alloc Inv_fulfil Inv_reject
            Inv_register Inv_newCalled Inv_setCalled Inv_setVars.
  induction n as [|n IH]; intros i s Hp Hc HI; cbn [allLoop]; [exact HI|].
  destruct (lengthOf s iterable) as [len|]; [|exact HI].
  destruct (Nat.ltb i len); [|exact HI].
  destruct (testThen (elemAt s iterable i)); [| |exact HI].
  - assert (Hf : fnOk (FProcessRes c iterable i (FResolve this)) = true)
      by (cbn; rewrite Hp, Hc; reflexivity).
    pose proof (callThen_pres (elemAt s iterable i) _ (FPass (FReject this))
                  s Hf Hp HI) as H.
    destruct (callThen _ _ _ _) as [[?|?] s1]; cbn [snd] in *; [|exact H].
    apply IH; assumption.
  - pose proof (processRes_pres (resolveFn this) c iterable i
                  (elemAt s iterable i) s Hc
                  (fun v s => resolveFn_pres this v s Hp) HI) as H.
    destruct (processRes _ _ _ _ _ _) as [[?|?] s1]; cbn [snd] in *; [|exact H].
    apply IH; assumption.
Qed.

Lemma all_pres iterable s : Inv s -> Inv (snd (all iterable s)).
Proof using Inv_fresh Inv_setTimeout Inv_alloc Inv_fulfil Inv_reject
            Inv_register Inv_newCalled Inv_setCalled Inv_allocVars Inv_setVars.
  intros HI. unfold all. destruct (isIterable iterable); [|exact HI].
  apply newPromise_pres; [exact HI|]. intros Hp s' HI'. unfold allExecutor.
  assert (Hc : okC (length (allVars s')) = true)
    by (apply (Inv_fresh s' HI'); lia).
  pose proof (Inv_allocVars s' HI') as H1.
  destruct (lengthOf _ iterable) as [[|len]|].
  - apply resolveFn_pres; assumption.
  - apply allLoop_pres; assumption.
  - exact H1.
Qed.

Lemma race_pres iterable s : Inv s -> Inv (snd (race iterable s)).
Proof using Inv_fresh Inv_setTimeout Inv_alloc Inv_fulfil Inv_reject
            Inv_register Inv_newCalled Inv_setCalled Inv_setVars.
  intros HI. unfold race. destruct (isIterable iterable); [|exact HI].
  apply newPromise_pres; [exact HI|]. intros Hp s' HI'. unfold raceExecutor.
  destruct (lengthOf s' iterable) as [[|len]|]; try exact HI'.
  destruct (testThen (elemAt s' iterable 0)); [| |exact HI'].
  - pose proof (callThen_pres (elemAt s' iterable 0)
                  (FPass (FResolve (length (promises s))))
                  (FPass (FReject (length (promises s)))) s' Hp Hp HI') as H.
    destruct (callThen _ _ _ _) as [[?|?] s1]; exact H.
  - pose proof (resolveFn_pres (length (promises s)) (elemAt s' iterable 0)
                  s' Hp HI') as H.
    destruct (resolveFn _ _ _) as [[?|?] s1]; exact H.
Qed.

Lemma settledLoop_pres items : forall acc s,
  Inv s ->
  match settledLoop items acc s with
  | inl (_, s1) => Inv s1
  | inr (_, s1) => Inv s1
  end.
Proof using Inv_fresh Inv_setTimeout Inv_alloc Inv_fulfil Inv_reject
            Inv_register Inv_newCalled Inv_setCalled Inv_setVars.
  induction items as [|x items IH]; intros acc s HI; cbn [settledLoop];
    [exact HI|].
  pose proof (resolve__pres x s HI) as H.
  destruct (resolve_ x s) as [[v|e] s1]; cbn [snd] in H; [|exact H].
  destruct v; try exact H.
  pose proof (then_pres p (Some FFulfilledRecord) (Some FRejectedRecord) s1
                eq_refl eq_refl H) as H2.
  destruct (then_ _ _ _ _) as [p2 s2]. cbn [snd] in H2.
  apply IH. exact H2.
Qed.

Lemma allSettled_pres iterable s : Inv s -> Inv (snd (allSettled iterable s)).
Proof using Inv_fresh Inv_setTimeout Inv_alloc Inv_fulfil Inv_reject
            Inv_register Inv_newCalled Inv_setCalled Inv_allocVars Inv_setVars.
  intros HI. unfold allSettled. destruct (isIterable iterable); [|exact HI].
  pose proof (settledLoop_pres (default [] (arrayOf s iterable)) [] s HI) as H.
  destruct (settledLoop _ _ _) as [[o s1]|[ps s1]]; [exact H|].
  apply all_pres. exact H.
Qed.

Lemma handlerBody_pres this handler arg promise2 s :
  fnOk handler = true -> okP promise2 = true ->
  Inv s -> Inv (handlerBody this handler arg promise2 s).
Proof using Inv_fresh Inv_setTimeout Inv_alloc Inv_fulfil Inv_reject
            Inv_register Inv_newCalled Inv_setCalled Inv_setVars Inv_logHandler.
  intros Hh Hp HI. unfold handlerBody.
  pose proof (applyFn_pres handler arg _ Hh
                (Inv_logHandler (HandlerCalled this handler arg) s HI)) as H.
  destruct (applyFn _ _ _) as [[x|e] s1]; cbn [snd] in H.
  - pose proof (promiseResolutionProcedure_pres promise2 x
                  (FResolve promise2) (FReject promise2) s1 Hp Hp H) as H2.
    destruct (promiseResolutionProcedure _ _ _ _ _) as [[?|e] s2];
      cbn [snd] in H2; [exact H2|].
    apply rejectFn_pres; assumption.
  - apply rejectFn_pres; assumption.
Qed.

Lemma runTask_pres t s :
  taskOk t = true -> Inv s -> Inv (runTask t s).
Proof using Inv_fresh Inv_setTimeout Inv_alloc Inv_fulfil Inv_reject
            Inv_register Inv_newCalled Inv_setCalled Inv_setVars Inv_logHandler.
  intros Hok HI. destruct t; cbn [runTask]; cbn [taskOk] in Hok;
    apply andb_prop in Hok as [H1 H2].
  - destruct (promises s !! this); [apply handlerBody_pres; assumption | exact HI].
  - destruct (promises s !! this); [apply handlerBody_pres; assumption | exact HI].
  - apply runScript_pres; assumption.
Qed.

(** Everything but a timer firing. *)
Lemma performCall_pres a s :
  actionOk a = true -> Inv s ->
  match a with ATick => True | _ => Inv (perform s a) end.
Proof using Inv_fresh Inv_setTimeout Inv_alloc Inv_fulfil Inv_reject
            Inv_register Inv_newCalled Inv_setCalled Inv_allocVars Inv_setVars.
  intros Hok HI. destruct a; cbn [perform]; cbn [actionOk] in Hok; try exact I.
  - apply applyFn_pres; assumption.
  - apply andb_prop in Hok as [H1 H2]. apply then_pres; assumption.
  - apply resolve__pres; assumption.
  - apply reject__pres; assumption.
  - apply all_pres; assumption.
  - apply race_pres; assumption.
  - apply allSettled_pres; assumption.
Qed.

(** When the invariant says that every timer set is allowed. *)
Section Timers.

Hypothesis Inv_pop :
  forall t rest s,
    timers s = t :: rest -> Inv s -> taskOk t = true /\ Inv (setTimers rest s).

Lemma tick_pres s : Inv s -> Inv (tick s).
Proof using Inv_fresh Inv_setTimeout Inv_alloc Inv_fulfil Inv_reject
            Inv_register Inv_newCalled Inv_setCalled Inv_setVars Inv_logHandler
            Inv_pop.
  intros HI. unfold tick. destruct (timers s) as [|t rest] eqn:E; [exact HI|].
  destruct (Inv_pop t rest s E HI) as [Hok HI']. apply runTask_pres; assumption.
Qed.

Lemma run_pres n : forall s, Inv s -> Inv (run n s).
Proof using Inv_fresh Inv_setTimeout Inv_alloc Inv_fulfil Inv_reject
            Inv_register Inv_newCalled Inv_setCalled Inv_setVars Inv_logHandler
            Inv_pop.
  induction n as [|n IH]; intros s HI; cbn [run]; [exact HI|].
  apply IH, tick_pres, HI.
Qed.

Lemma perform_pres a s : actionOk a = true -> Inv s -> Inv (perform s a).
Proof using All.
  intros Hok HI. pose proof (performCall_pres a s Hok HI) as H.
  destruct a; try exact H. apply tick_pres, HI.
Qed.

Lemma performAll_pres acts : forall s,
  forallb actionOk acts = true -> Inv s -> Inv (performAll acts s).
Proof using All.
  induction acts as [|a acts IH]; intros s Hok HI; cbn; [exact HI|].
  cbn in Hok. apply andb_prop in Hok as [H1 H2].
  apply IH; [exact H2|]. apply perform_pres; assumption.
Qed.

End Timers.

End Frame.

(** ** What every call preserves

    With nothing forbidden: a preorder on stores that each elementary
    update respects is respected by every closure call, by [then], by
    the resolution procedure, by the static methods and by the timers. *)

Definition anyId (n : nat) : bool := true.

Lemma fnOk_any f : fnOk anyId anyId f = true.
Proof. induction f; cbn; rewrite ?IHf, ?IHf1, ?IHf2; reflexivity. Qed.

Lemma taskOk_any t : taskOk anyId anyId t = true.
Proof. destruct t; cbn; rewrite !fnOk_any; reflexivity. Qed.

Lemma actionOk_any a : actionOk anyId anyId a = true.
Proof.
  destruct a; cbn; rewrite ?fnOk_any; try reflexivity.
  destruct onFulfilled, onRejected; cbn; rewrite ?fnOk_any; reflexivity.
Qed.

Section Respects.

Variable R : State -> State -> Prop.

Hypothesis R_refl : forall s, R s s.
Hypothesis R_trans : forall s1 s2 s3, R s1 s2 -> R s2 s3 -> R s1 s3.
Hypothesis R_setTimeout : forall t s, R s (setTimeout t s).
Hypothesis R_alloc :
  forall s, R s (setPromises (promises s ++ [pendingPromise]) s).
Hypothesis R_settle :
  forall s p pr st v r,
    promises s !! p = Some pr -> status pr = STATUS_PENDING ->
    (st = STATUS_FULFILLED /\ isPromise v = false /\ r = reason pr
     \/ st = STATUS_REJECTED /\ v = value pr) ->
    R s (setPromises
           (<[p := mkPromise st v r (onFulfilledCbs pr) (onRejectedCbs pr)]>
              (promises s)) s).
Hypothesis R_register :
  forall s p g,
    (forall pr, status (g pr) = status pr /\ value (g pr) = value pr
                /\ reason (g pr) = reason pr) ->
    R s (setPromises (alter g p (promises s)) s).
Hypothesis R_newCalled : forall s, R s (snd (newCalled s)).
Hypothesis R_setCalled : forall g s, R s (setCalled g s).
Hypothesis R_allVars : forall s vs, R s (setAllVars vs s).
Hypothesis R_logHandler : forall ev s, R s (logHandler ev s).
Hypothesis R_setTimers :
  forall t rest s, timers s = t :: rest -> R s (setTimers rest s).

Lemma invokeArrayFns_respects fns arg s : R s (invokeArrayFns fns arg s).
Proof using R_refl R_trans R_setTimeout.
  unfold invokeArrayFns.
  revert s. induction fns as [|[t] fns IH]; intros s; cbn [fold_left];
    [apply R_refl|].
  eapply R_trans; [apply R_setTimeout | apply IH].
Qed.

Ltac respects_step :=
  intros;
  match goal with
  | H : R ?s0 ?s |- R ?s0 _ => eapply R_trans; [exact H|]
  end.

Ltac respects lem :=
  apply lem;
  first
    [ solve [intros; split; reflexivity]
    | solve [respects_step; apply R_setTimeout]
    | solve [respects_step; apply R_alloc]
    | solve [respects_step; eapply R_trans;
             [ | apply invokeArrayFns_respects ];
             eapply R_settle;
             [ eassumption | eassumption
             | first [ left; repeat split; solve [eauto]
                     | right; repeat split; solve [eauto] ] ]]
    | solve [respects_step; cbv zeta;
             eapply R_trans; apply R_register; intros; cbn; auto]
    | solve [respects_step; apply R_newCalled]
    | solve [respects_step; apply R_setCalled]
    | solve [respects_step; apply R_allVars]
    | solve [respects_step; apply R_logHandler]
    | solve [intros; split; [apply taskOk_any
                            | respects_step; eapply R_setTimers; eauto]]
    | apply fnOk_any | apply actionOk_any | apply R_refl | reflexivity
    | idtac ].

Lemma applyFn_respects f v s : R s (snd (applyFn f v s)).
Proof using R_refl R_trans R_setTimeout R_alloc R_settle R_register
            R_newCalled R_setCalled R_allVars.
  respects (applyFn_pres anyId anyId (R s)).
Qed.

Lemma then_respects this onF onR s : R s (snd (then_ this onF onR s)).
Proof using R_refl R_trans R_setTimeout R_alloc R_settle R_register.
  respects (then_pres anyId anyId (R s)); destruct onF, onR; cbn; auto using fnOk_any.
Qed.

Lemma rejectFn_respects this r s : R s (snd (rejectFn this r s)).
Proof using R_refl R_trans R_setTimeout R_settle.
  respects (rejectFn_pres anyId (R s)).
Qed.

Lemma resolveFn_respects this v s : R s (snd (resolveFn this v s)).
Proof using R_refl R_trans R_setTimeout R_alloc R_settle R_register.
  respects (resolveFn_pres anyId anyId (R s)).
Qed.

Lemma promiseResolutionProcedure_respects promise x resolve reject s :
  R s (snd (promiseResolutionProcedure promise x resolve reject s)).
Proof using R_refl R_trans R_setTimeout R_alloc R_settle R_register
            R_newCalled R_setCalled R_allVars.
  respects (promiseResolutionProcedure_pres anyId anyId (R s)).
Qed.

Lemma runScript_respects body onF onR s :
  R s (snd (runScript body onF onR s)).
Proof using R_refl R_trans R_setTimeout R_alloc R_settle R_register
            R_newCalled R_setCalled R_allVars.
  respects (runScript_pres anyId anyId (R s)).
Qed.

Lemma runTask_respects t s : R s (runTask t s).
Proof using R_refl R_trans R_setTimeout R_alloc R_settle R_register
            R_newCalled R_setCalled R_allVars R_logHandler.
  respects (runTask_pres anyId anyId (R s)). apply taskOk_any.
Qed.

Lemma performCall_respects a s :
  match a with ATick => True | _ => R s (perform s a) end.
Proof using R_refl R_trans R_setTimeout R_alloc R_settle R_register
            R_newCalled R_setCalled R_allVars.
  respects (performCall_pres anyId anyId (R s)).
Qed.

Lemma perform_respects a s : R s (perform s a).
Proof using All.
  respects (perform_pres anyId anyId (R s)).
Qed.

Lemma performAll_respects acts s : R s (performAll acts s).
Proof using All.
  respects (performAll_pres anyId anyId (R s)).
  induction acts; cbn; rewrite ?actionOk_any; auto.
Qed.

End Respects.



(** ** Single settlement *)

(** The observable part of a promise. *)
Definition settlement (s : State) (p : nat) : option (Status * Val * Val) :=
  (fun pr => (status pr, value pr, reason pr)) <$> promises s !! p.

Definition isSettled (s : State) (p : nat) : Prop :=
  exists pr, promises s !! p = Some pr /\ status pr <> STATUS_PENDING.

(** Every settled promise of the first state is the same in the second. *)
Definition keepsSettled (s s' : State) : Prop :=
  forall p, isSettled s p -> settlement s' p = settlement s p.

Lemma keepsSettled_refl s : keepsSettled s s.
Proof. intros p _. reflexivity. Qed.

Lemma keepsSettled_isSettled s s' p :
  keepsSettled s s' -> isSettled s p -> isSettled s' p.
Proof.
  intros H Hp. specialize (H p Hp). destruct Hp as (pr & E & Hst).
  unfold settlement in H. rewrite E in H. cbn in H.
  destruct (promises s' !! p) as [pr'|] eqn:E'; [|discriminate].
  exists pr'. split; [exact E'|]. cbn in H. congruence.
Qed.

Lemma keepsSettled_trans s1 s2 s3 :
  keepsSettled s1 s2 -> keepsSettled s2 s3 -> keepsSettled s1 s3.
Proof.
  intros H12 H23 p Hp. rewrite <- (H12 p Hp).
  apply H23. eapply keepsSettled_isSettled; eauto.
Qed.

Lemma keepsSettled_same_promises s s' :
  promises s' = promises s -> keepsSettled s s'.
Proof. intros E p _. unfold settlement. rewrite E. reflexivity. Qed.

Lemma keepsSettled_alloc s :
  keepsSettled s (setPromises (promises s ++ [pendingPromise]) s).
Proof.
  intros p (pr & E & _). unfold settlement. cbn.
  rewrite lookup_app_l; [reflexivity|]. eapply lookup_lt_Some; eauto.
Qed.

Lemma keepsSettled_settle s p pr st v r :
  promises s !! p = Some pr -> status pr = STATUS_PENDING ->
  keepsSettled s (setPromises
    (<[p := mkPromise st v r (onFulfilledCbs pr) (onRejectedCbs pr)]>
       (promises s)) s).
Proof.
  intros E Hst q (pr' & E' & Hst'). unfold settlement. cbn.
  destruct (decide (p = q)) as [->|Hne]; [congruence|].
  rewrite list_lookup_insert_ne; [reflexivity | exact Hne].
Qed.

Lemma keepsSettled_register s p g :
  (forall pr, status (g pr) = status pr /\ value (g pr) = value pr
              /\ reason (g pr) = reason pr) ->
  keepsSettled s (setPromises (alter g p (promises s)) s).
Proof.
  intros Hg q _. unfold settlement. cbn.
  destruct (decide (p = q)) as [->|Hne].
  - rewrite list_lookup_alter_eq. destruct (promises s !! q) as [pr|]; cbn; [|reflexivity].
    destruct (Hg pr) as (-> & -> & ->). reflexivity.
  - rewrite list_lookup_alter_ne; [reflexivity | exact Hne].
Qed.

Lemma performAll_keepsSettled acts s : keepsSettled s (performAll acts s).
Proof.
  apply performAll_respects;
    first [ exact keepsSettled_refl | exact keepsSettled_trans
          | exact keepsSettled_alloc
          | intros; eapply keepsSettled_settle; eassumption
          | exact keepsSettled_register
          | intros; apply keepsSettled_same_promises; reflexivity ].
Qed.

(** C1.  Once a promise has left [pending], calling [_resolve] or
    [_reject] of it, with any argument, and whatever the program does
    afterwards (calls of any closure, including the two capabilities
    again, calls of [then], timers firing, nested promises settling),
    leaves its status, value and reason as they were. *)
Theorem single_settlement (s : State) (p : nat) (v : Val) (later : list Action) :
  isSettled s p ->
  settlement (performAll later (snd (applyFn (FResolve p) v s))) p = settlement s p
  /\ settlement (performAll later (snd (applyFn (FReject p) v s))) p = settlement s p.
Proof.
  intros Hp. split.
  - exact (performAll_keepsSettled (ACall (FResolve p) v :: later) s p Hp).
  - exact (performAll_keepsSettled (ACall (FReject p) v :: later) s p Hp).
Qed.

(** ** The log of the handler calls *)

Definition sameLog (s s' : State) : Prop := handlerLog s' = handlerLog s.

Lemma sameLog_trans s1 s2 s3 : sameLog s1 s2 -> sameLog s2 s3 -> sameLog s1 s3.
Proof. unfold sameLog. congruence. Qed.

Ltac same_log :=
  first [ exact sameLog_trans | intros; reflexivity ].

Lemma applyFn_sameLog f v s : handlerLog (snd (applyFn f v s)) = handlerLog s.
Proof. apply (applyFn_respects sameLog); same_log. Qed.

Lemma prp_sameLog promise x resolve reject s :
  handlerLog (snd (promiseResolutionProcedure promise x resolve reject s))
  = handlerLog s.
Proof. apply (promiseResolutionProcedure_respects sameLog); same_log. Qed.

Lemma rejectFn_sameLog p r s : handlerLog (snd (rejectFn p r s)) = handlerLog s.
Proof. apply (rejectFn_respects sameLog); same_log. Qed.

Lemma handlerBody_log this handler arg promise2 s :
  handlerLog (handlerBody this handler arg promise2 s)
  = handlerLog s ++ [HandlerCalled this handler arg].
Proof.
  unfold handlerBody.
  pose proof (applyFn_sameLog handler arg
                (logHandler (HandlerCalled this handler arg) s)) as H.
  destruct (applyFn _ _ _) as [[x|e] s1]; cbn [snd] in H.
  - pose proof (prp_sameLog promise2 x (FResolve promise2) (FReject promise2) s1) as H2.
    destruct (promiseResolutionProcedure _ _ _ _ _) as [[?|e] s2]; cbn [snd] in H2.
    + rewrite H2, H. reflexivity.
    + rewrite rejectFn_sameLog, H2, H. reflexivity.
  - rewrite rejectFn_sameLog, H. reflexivity.
Qed.

(** ** The variables [called] are never reset *)

Definition keepsCalled (s s' : State) : Prop :=
  forall g, isCalled g s = true -> isCalled g s' = true.

Lemma keepsCalled_same s s' : calledVars s' = calledVars s -> keepsCalled s s'.
Proof. intros E g. unfold isCalled. rewrite E. trivial. Qed.

Lemma isCalled_lt g s : isCalled g s = true -> g < length (calledVars s).
Proof.
  unfold isCalled. destruct (calledVars s !! g) eqn:E; [|discriminate].
  intros _. eapply lookup_lt_Some; eauto.
Qed.

Lemma keepsCalled_newCalled s : keepsCalled s (snd (newCalled s)).
Proof.
  intros g H. pose proof (isCalled_lt _ _ H) as Hlt.
  unfold isCalled, newCalled in *. cbn.
  rewrite lookup_app_l by exact Hlt. exact H.
Qed.

Lemma isCalled_setCalled g g' s :
  isCalled g (setCalled g' s) =
  if decide (g' = g) then bool_decide (g < length (calledVars s))
  else isCalled g s.
Proof.
  unfold isCalled, setCalled. cbn. case_decide as Hg.
  - subst. case_bool_decide as Hlt.
    + rewrite list_lookup_insert_eq by exact Hlt. reflexivity.
    + rewrite lookup_ge_None_2; [reflexivity|]. rewrite length_insert. lia.
  - rewrite list_lookup_insert_ne by exact Hg. reflexivity.
Qed.

Lemma keepsCalled_setCalled g' s : keepsCalled s (setCalled g' s).
Proof.
  intros g H. rewrite isCalled_setCalled. case_decide; [|exact H].
  apply bool_decide_eq_true. apply isCalled_lt. exact H.
Qed.

Ltac keeps_called :=
  first [ exact keepsCalled_newCalled | exact keepsCalled_setCalled
        | intros; apply keepsCalled_same; reflexivity
        | unfold keepsCalled; solve [eauto] ].

Lemma prpOn_keepsCalled resolve reject promise x s :
  keepsCalled s (snd (prpOn resolve reject (applyFn resolve) (applyFn reject)
                        promise x s)).
Proof. apply (promiseResolutionProcedure_respects keepsCalled); keeps_called. Qed.

Lemma applyFn_keepsCalled f v s : keepsCalled s (snd (applyFn f v s)).
Proof. apply (applyFn_respects keepsCalled); keeps_called. Qed.

(** ** The once-guard of the resolution procedure *)

Definition addTimers (ts : list Task) (s : State) : State :=
  setTimers (timers s ++ ts) s.

Lemma addTimers_nil s : addTimers [] s = s.
Proof. destruct s. unfold addTimers, setTimers. cbn. rewrite app_nil_r. reflexivity. Qed.

Lemma addTimers_setTimeout t ts s :
  addTimers ts (setTimeout t s) = addTimers (t :: ts) s.
Proof.
  unfold addTimers, setTimeout, setTimers. cbn. rewrite <- app_assoc. reflexivity.
Qed.

Lemma isCalled_addTimers g ts s : isCalled g (addTimers ts s) = isCalled g s.
Proof. reflexivity. Qed.

(** The timers that a body sets before it ends or throws. *)
Fixpoint timersSetBy (body : Script) : list Script :=
  match body with
  | SEnd | SThrow _ => []
  | SFulfil _ k | SReject _ k => timersSetBy k
  | SLater later k => later :: timersSetBy k
  end.

Fixpoint outcomeOf (body : Script) : Outcome :=
  match body with
  | SEnd => Normal VUndefined
  | SThrow e => Thrown e
  | SFulfil _ k | SReject _ k | SLater _ k => outcomeOf k
  end.

(** A timer of a foreign [then] whose two arguments share [called]. *)
Definition guardedBy (called : nat) (t : Task) : Prop :=
  exists later promise resolve reject,
    t = TScript later (FResolvePromise called promise resolve reject)
                      (FRejectPromise called reject).

Section OnceGuard.

Variables (resolve reject : Fn) (promise called : nat).

Let resolvePromise := FResolvePromise called promise resolve reject.
Let rejectPromise := FRejectPromise called reject.
Let timerOf (later : Script) := TScript later resolvePromise rejectPromise.

Lemma guardedBy_timersSetBy body :
  Forall (guardedBy called) (timerOf <$> timersSetBy body).
Proof.
  apply Forall_fmap, Forall_forall. intros later _.
  exists later, promise, resolve, reject. reflexivity.
Qed.

(** Once [called] is set, a body run with the two guarded arguments
    only sets timers. *)
Lemma scriptOn_called body : forall s,
  isCalled called s = true ->
  scriptOn resolve reject (applyFn resolve) (applyFn reject) promise called body s
  = (outcomeOf body, addTimers (timerOf <$> timersSetBy body) s).
Proof.
  induction body; intros s Hc; cbn [scriptOn timersSetBy outcomeOf fmap list_fmap].
  - rewrite addTimers_nil. reflexivity.
  - rewrite Hc. apply IHbody. exact Hc.
  - rewrite Hc. apply IHbody. exact Hc.
  - rewrite addTimers_nil. reflexivity.
  - rewrite IHbody2 by exact Hc. rewrite addTimers_setTimeout. reflexivity.
Qed.

Lemma runScript_called body : forall s,
  isCalled called s = true ->
  runScript body resolvePromise rejectPromise s
  = (outcomeOf body, addTimers (timerOf <$> timersSetBy body) s).
Proof.
  induction body; intros s Hc;
    cbn [runScript timersSetBy outcomeOf fmap list_fmap].
  - rewrite addTimers_nil. reflexivity.
  - subst resolvePromise. cbn [applyFn]. rewrite Hc. apply IHbody. exact Hc.
  - subst rejectPromise. cbn [applyFn]. rewrite Hc. apply IHbody. exact Hc.
  - rewrite addTimers_nil. reflexivity.
  - rewrite IHbody2 by exact Hc. rewrite addTimers_setTimeout. reflexivity.
Qed.

(** The generic runner and the one of the procedure agree. *)
Lemma scriptOn_runScript body : forall s,
  scriptOn resolve reject (applyFn resolve) (applyFn reject) promise called body s
  = runScript body resolvePromise rejectPromise s.
Proof.
  induction body; intros s; cbn [scriptOn runScript]; try reflexivity.
  - subst resolvePromise. cbn [applyFn].
    destruct (isCalled called s); [apply IHbody|].
    destruct (prpOn _ _ _ _ _ _ _) as [[?|?] s1]; [apply IHbody | reflexivity].
  - subst rejectPromise. cbn [applyFn].
    destruct (isCalled called s); [apply IHbody|].
    destruct (applyFn reject r _) as [[?|?] s1]; [apply IHbody | reflexivity].
  - apply IHbody2.
Qed.

End OnceGuard.

Lemma isCalled_newCalled s : isCalled (length (calledVars s)) (snd (newCalled s)) = false.
Proof.
  unfold isCalled, newCalled. cbn. rewrite list_lookup_middle by reflexivity.
  reflexivity.
Qed.

Lemma prpCatch_called callReject called e s :
  isCalled called s = true ->
  prpCatch callReject called e s = (Normal VUndefined, s).
Proof. intros H. unfold prpCatch. rewrite H. reflexivity. Qed.

Lemma invokeArrayFns_timers fns arg s :
  invokeArrayFns fns arg s =
  addTimers (cbTask <$> fns) s.
Proof.
  unfold invokeArrayFns.
  revert s. induction fns as [|[t] fns IH]; intros s; cbn [fold_left fmap list_fmap].
  - rewrite addTimers_nil. reflexivity.
  - rewrite IH. apply addTimers_setTimeout.
Qed.

(** The capabilities never throw. *)
Lemma resolveFn_normal p v s : exists w, fst (resolveFn p v s) = Normal w.
Proof.
  unfold resolveFn.
  assert (H : exists w, fst
    match promises s !! p with
    | Some pr =>
        match status pr with
        | STATUS_PENDING =>
            (Normal VUndefined,
             invokeArrayFns (onFulfilledCbs pr) v
               (setPromises (<[p := mkPromise STATUS_FULFILLED v (reason pr)
                   (onFulfilledCbs pr) (onRejectedCbs pr)]> (promises s)) s))
        | _ => (Normal VUndefined, s)
        end
    | None => (Normal VUndefined, s)
    end = Normal w).
  { destruct (promises s !! p) as [pr|]; [destruct (status pr)|]; eauto. }
  destruct v; try exact H.
  destruct (then_ _ _ _ _) as [p2 s1]. eauto.
Qed.

Lemma rejectFn_normal p r s : fst (rejectFn p r s) = Normal VUndefined.
Proof.
  unfold rejectFn. destruct (promises s !! p) as [pr|]; [destruct (status pr)|];
    reflexivity.
Qed.

(** A value that the procedure hands to [resolve] as it is. *)
Definition isPlain (x : Val) : bool :=
  match x with
  | VPromise _ => false
  | VObj _ (ThenFunction _) => false
  | VObj _ (ThenGetterThrows _) => false
  | _ => true
  end.

Lemma prp_plain promise p x s :
  isPlain x = true ->
  promiseResolutionProcedure promise x (FResolve p) (FReject p) s
  = (Normal VUndefined, snd (resolveFn p x (snd (newCalled s)))).
Proof.
  intros Hx. unfold promiseResolutionProcedure.
  assert (H : (let '(called, s0) := newCalled s in
               if isObjectOrFunction x then
                 match resolveFn p x s0 with
                 | (Normal _, s1) => (Normal VUndefined, s1)
                 | (Thrown e, s1) => prpCatch (rejectFn p) called e s1
                 end
               else
                 match resolveFn p x s0 with
                 | (Normal _, s1) => (Normal VUndefined, s1)
                 | (Thrown e, s1) => (Thrown e, s1)
                 end)
              = (Normal VUndefined, snd (resolveFn p x (snd (newCalled s))))).
  { unfold newCalled. cbn [snd].
    destruct (resolveFn_normal p x
                (setCalledVars (calledVars s ++ [false]) s)) as [w Hw].
    destruct (resolveFn p x _) as [o s1]. cbn [fst] in Hw. subst o.
    destruct (isObjectOrFunction x); reflexivity. }
  destruct x; try exact H; try discriminate Hx.
  destruct thn; try discriminate Hx. exact H.
Qed.

Lemma isPlain_not_promise x : isPlain x = true -> isPromise x = false.
Proof. destruct x; cbn; congruence. Qed.

Lemma resolveFn_pending p pr v s :
  promises s !! p = Some pr -> status pr = STATUS_PENDING ->
  isPromise v = false ->
  settlement (snd (resolveFn p v s)) p = Some (STATUS_FULFILLED, v, reason pr).
Proof.
  intros E Hst Hv. unfold resolveFn.
  assert (H : settlement (snd
    match promises s !! p with
    | Some pr =>
        match status pr with
        | STATUS_PENDING =>
            (Normal VUndefined,
             invokeArrayFns (onFulfilledCbs pr) v
               (setPromises (<[p := mkPromise STATUS_FULFILLED v (reason pr)
                   (onFulfilledCbs pr) (onRejectedCbs pr)]> (promises s)) s))
        | _ => (Normal VUndefined, s)
        end
    | None => (Normal VUndefined, s)
    end) p = Some (STATUS_FULFILLED, v, reason pr)).
  { rewrite E, Hst. cbn [snd]. rewrite invokeArrayFns_timers.
    unfold settlement. cbn.
    rewrite list_lookup_insert_eq by (eapply lookup_lt_Some; eauto). reflexivity. }
  destruct v; try exact H; discriminate Hv.
Qed.

Lemma rejectFn_pending p pr r s :
  promises s !! p = Some pr -> status pr = STATUS_PENDING ->
  settlement (snd (rejectFn p r s)) p = Some (STATUS_REJECTED, value pr, r).
Proof.
  intros E Hst. unfold rejectFn. rewrite E, Hst. cbn [snd].
  rewrite invokeArrayFns_timers. unfold settlement. cbn.
  rewrite list_lookup_insert_eq by (eapply lookup_lt_Some; eauto). reflexivity.
Qed.


(** ** Self-resolution *)

(** C3.  When [x] is [promise] itself the resolution procedure is the
    call [reject(new TypeError(...))] and nothing else: [resolve] is not
    called, [then] is not called.  With the promise pending and [reject]
    its own capability, the promise becomes rejected with that
    [TypeError]; the other promises are left as they are. *)
Theorem self_resolution_rejects (promise : nat) (pr : PromiseImpl)
    (resolve reject : Fn) (s : State) :
  promises s !! promise = Some pr ->
  status pr = STATUS_PENDING ->
  let s' := snd (promiseResolutionProcedure promise (VPromise promise)
                   resolve (FReject promise) s) in
  promiseResolutionProcedure promise (VPromise promise) resolve reject s
    = applyFn reject (VTypeError cyclicMessage) s
  /\ settlement s' promise
     = Some (STATUS_REJECTED, value pr, VTypeError cyclicMessage)
  /\ (forall q, q <> promise -> promises s' !! q = promises s !! q)
  /\ length (promises s') = length (promises s).
Proof.
  intros E Hst. cbv zeta. unfold promiseResolutionProcedure. cbn [prpOn].
  rewrite Nat.eqb_refl. split; [reflexivity|].
  cbn [applyFn]. split; [eapply rejectFn_pending; eauto|].
  unfold rejectFn. rewrite E, Hst. cbn [snd]. rewrite invokeArrayFns_timers.
  cbn [addTimers setTimers setPromises promises]. split.
  - intros q Hq. apply list_lookup_insert_ne. congruence.
  - apply length_insert.
Qed.

(** ** The input check of the combinators *)

(** C9.  Given a value that is not iterable, [all], [race] and
    [allSettled] return (they do not throw) a [TypeError] value, which is
    not a promise, and change nothing in the store: no promise is
    created, so there is no rejection to handle. *)
Theorem not_iterable_is_returned (iterable : Val) (s : State) :
  isIterable iterable = false ->
  all iterable s = (Normal (VTypeError (notIterableMessage iterable)), s)
  /\ race iterable s = (Normal (VTypeError (notIterableMessage iterable)), s)
  /\ allSettled iterable s
     = (Normal (VTypeError (notIterableMessage iterable)), s).
Proof.
  intros H. unfold all, race, allSettled. rewrite H. auto.
Qed.

(** ** Static [resolve] and thenables *)

Lemma construct_promises_length executor s :
  fst (construct executor s) = length (promises s).
Proof.
  unfold construct. destruct (executor _ _) as [[?|?] ?]; reflexivity.
Qed.

(** An object with a callable [then] is driven by its [then]. *)
Lemma resolve__object_thenable body s :
  resolve_ (VObj false (ThenFunction body)) s
  = let '(p, s1) :=
      construct (fun this =>
        runScript body (FPass (FResolve this)) (FPass (FReject this))) s in
    (Normal (VPromise p), s1).
Proof. reflexivity. Qed.

(** C8 fails on the code: a function with a callable [then] given to
    static [resolve] is not driven by its [then]; the new promise is
    fulfilled with the function itself, whatever its [then] would do.
    The resolution procedure, on the same value, does call [then]. *)
Theorem resolve__callable_thenable (thn : ThenMember) (s : State) :
  let f := VObj true thn in
  let p := length (promises s) in
  fst (resolve_ f s) = Normal (VPromise p)
  /\ settlement (snd (resolve_ f s)) p = Some (STATUS_FULFILLED, f, VNull)
  /\ settlement
       (snd (resolve_ (VObj true (ThenFunction (SFulfil (VNum 42) SEnd)))
               emptyState)) 0
     = Some (STATUS_FULFILLED,
             VObj true (ThenFunction (SFulfil (VNum 42) SEnd)), VNull)
  /\ settlement
       (snd (resolve_ (VObj false (ThenFunction (SFulfil (VNum 42) SEnd)))
               emptyState)) 0
     = Some (STATUS_FULFILLED, VNum 42, VNull)
  /\ settlement
       (snd (promiseResolutionProcedure 0
               (VObj true (ThenFunction (SFulfil (VNum 42) SEnd)))
               (FResolve 0) (FReject 0) (snd (deferred emptyState)))) 0
     = Some (STATUS_FULFILLED, VNum 42, VNull).
Proof.
  cbv zeta. split; [|split; [|repeat split; reflexivity]].
  - unfold resolve_. destruct (construct _ s) as [p s1] eqn:E.
    pose proof (construct_promises_length
                  (fun this => resolveFn this (VObj true thn)) s) as H.
    rewrite E in H. cbn in H. subst p. reflexivity.
  - assert (E : promises (setPromises (promises s ++ [pendingPromise]) s)
                  !! length (promises s) = Some pendingPromise).
    { cbn. apply list_lookup_middle. reflexivity. }
    pose proof (resolveFn_pending (length (promises s)) pendingPromise
                  (VObj true thn) _ E eq_refl eq_refl) as H.
    pose proof (resolveFn_normal (length (promises s)) (VObj true thn)
                  (setPromises (promises s ++ [pendingPromise]) s)) as [w Hw].
    unfold resolve_, construct.
    destruct (resolveFn _ _ _) as [o s1]. cbn [fst snd] in *. subst o.
    exact H.
Qed.

(** ** Well-formed stores

    What holds of every store that the program builds: a timer of [then]
    is in the queue only when its source is settled the right way; the
    callbacks registered on a pending promise are the ones [then] pushes
    for that promise; a fulfilled promise never holds a promise. *)

Definition fulfilCbOf (r : nat) (cb : Cb) : Prop :=
  exists f promise2, cb = Defer (TFulfilled r f promise2).
Definition rejectCbOf (r : nat) (cb : Cb) : Prop :=
  exists g promise2, cb = Defer (TRejected r g promise2).

Record wellFormed (s : State) : Prop := {
  wf_timers : Forall (timerReady s) (timers s);
  wf_onFulfilled :
    forall r pr, promises s !! r = Some pr -> status pr = STATUS_PENDING ->
                 Forall (fulfilCbOf r) (onFulfilledCbs pr);
  wf_onRejected :
    forall r pr, promises s !! r = Some pr -> status pr = STATUS_PENDING ->
                 Forall (rejectCbOf r) (onRejectedCbs pr);
  wf_values :
    forall r pr, promises s !! r = Some pr -> status pr = STATUS_FULFILLED ->
                 isPromise (value pr) = false
}.

(** The store after [_resolve] or [_reject] took effect. *)
Definition settledStore (p : nat) (pr' : PromiseImpl) (fns : list Cb) (s : State)
  : State :=
  addTimers (cbTask <$> fns) (setPromises (<[p := pr']> (promises s)) s).

Lemma invokeArrayFns_settledStore p pr' fns arg s :
  invokeArrayFns fns arg (setPromises (<[p := pr']> (promises s)) s)
  = settledStore p pr' fns s.
Proof. apply invokeArrayFns_timers. Qed.

Lemma timerReady_mono s s' t :
  (forall r st, statusOf s r = Some st -> st <> STATUS_PENDING ->
                statusOf s' r = Some st) ->
  timerReady s t -> timerReady s' t.
Proof.
  intros H. destruct t; cbn; intros Hr; try exact I; apply H; congruence.
Qed.

Lemma statusOf_insert s p pr' r :
  p < length (promises s) ->
  statusOf (setPromises (<[p := pr']> (promises s)) s) r
  = if decide (p = r) then Some (status pr') else statusOf s r.
Proof.
  intros Hlt. unfold statusOf. cbn. case_decide as E.
  - subst. rewrite list_lookup_insert_eq by exact Hlt. reflexivity.
  - rewrite list_lookup_insert_ne by exact E. reflexivity.
Qed.

Lemma timers_settledStore p pr' fns s :
  timers (settledStore p pr' fns s) = timers s ++ (cbTask <$> fns).
Proof. reflexivity. Qed.

Lemma promises_settledStore p pr' fns s :
  promises (settledStore p pr' fns s) = <[p := pr']> (promises s).
Proof. reflexivity. Qed.

Lemma statusOf_settledStore s p pr' fns r :
  p < length (promises s) ->
  statusOf (settledStore p pr' fns s) r
  = if decide (p = r) then Some (status pr') else statusOf s r.
Proof. apply statusOf_insert. Qed.

Lemma wellFormed_same s s' :
  promises s' = promises s -> timers s' = timers s ->
  wellFormed s -> wellFormed s'.
Proof.
  intros Ep Et [H1 H2 H3 H4]. split; rewrite ?Ep, ?Et; try assumption.
  eapply Forall_impl; [exact H1|]. intros t. apply timerReady_mono.
  intros r st. unfold statusOf. rewrite Ep. trivial.
Qed.

Lemma wellFormed_setTimeout t s :
  timerReady s t -> wellFormed s -> wellFormed (setTimeout t s).
Proof.
  intros Ht [H1 H2 H3 H4]. split; try assumption.
  cbn. apply Forall_app. split; [exact H1|]. constructor; [exact Ht | constructor].
Qed.

Lemma wellFormed_alloc s :
  wellFormed s -> wellFormed (setPromises (promises s ++ [pendingPromise]) s).
Proof.
  intros [H1 H2 H3 H4].
  assert (Hl : forall r pr,
    (promises s ++ [pendingPromise]) !! r = Some pr ->
    promises s !! r = Some pr \/ pr = pendingPromise).
  { intros r pr E. apply lookup_app_Some in E as [E|[_ E]]; [auto|].
    apply list_lookup_singleton_Some in E as [_ <-]. auto. }
  split; cbn.
  - eapply Forall_impl; [exact H1|]. intros t. apply timerReady_mono.
    intros r st E _. unfold statusOf in *. cbn.
    destruct (promises s !! r) as [pr|] eqn:Er; [|discriminate].
    rewrite (lookup_app_l_Some _ _ _ _ Er). exact E.
  - intros r pr E Hst. destruct (Hl r pr E) as [E'| ->]; [eauto|constructor].
  - intros r pr E Hst. destruct (Hl r pr E) as [E'| ->]; [eauto|constructor].
  - intros r pr E Hst. destruct (Hl r pr E) as [E'| ->]; [eauto|discriminate].
Qed.

Lemma wellFormed_settle s p pr st v r fns :
  promises s !! p = Some pr -> status pr = STATUS_PENDING ->
  (st = STATUS_FULFILLED /\ isPromise v = false /\ fns = onFulfilledCbs pr
   \/ st = STATUS_REJECTED /\ fns = onRejectedCbs pr) ->
  wellFormed s ->
  wellFormed (settledStore p
                (mkPromise st v r (onFulfilledCbs pr) (onRejectedCbs pr)) fns s).
Proof.
  intros E Hpend Hcase [H1 H2 H3 H4].
  assert (Hlt : p < length (promises s)) by (eapply lookup_lt_Some; eauto).
  assert (Hother : forall q prq,
    <[p := mkPromise st v r (onFulfilledCbs pr) (onRejectedCbs pr)]>
      (promises s) !! q = Some prq ->
    (q = p /\ prq = mkPromise st v r (onFulfilledCbs pr) (onRejectedCbs pr))
    \/ (q <> p /\ promises s !! q = Some prq)).
  { intros q prq Eq. destruct (decide (p = q)) as [->|Hne].
    - rewrite list_lookup_insert_eq in Eq by exact Hlt. left. split; congruence.
    - rewrite list_lookup_insert_ne in Eq by exact Hne. right. split; congruence. }
  split; rewrite ?timers_settledStore, ?promises_settledStore.
  - apply Forall_app. split.
    + eapply Forall_impl; [exact H1|]. intros t. apply timerReady_mono.
      intros q stq Eq Hq. rewrite statusOf_settledStore by exact Hlt.
      case_decide as Epq; [|exact Eq]. subst q. unfold statusOf in Eq.
      rewrite E in Eq. cbn in Eq. congruence.
    + apply Forall_fmap.
      destruct Hcase as [(-> & _ & ->) | (-> & ->)].
      * eapply Forall_impl; [exact (H2 p pr E Hpend)|].
        intros cb (f & p2 & ->). cbn [cbTask compose timerReady].
        rewrite statusOf_settledStore by exact Hlt.
        rewrite decide_True by reflexivity. reflexivity.
      * eapply Forall_impl; [exact (H3 p pr E Hpend)|].
        intros cb (f & p2 & ->). cbn [cbTask compose timerReady].
        rewrite statusOf_settledStore by exact Hlt.
        rewrite decide_True by reflexivity. reflexivity.
  - intros q prq Eq Hq. destruct (Hother q prq Eq) as [[-> ->]|[_ E']]; [|eauto].
    cbn in Hq. destruct Hcase as [(-> & _) | (-> & _)]; discriminate.
  - intros q prq Eq Hq. destruct (Hother q prq Eq) as [[-> ->]|[_ E']]; [|eauto].
    cbn in Hq. destruct Hcase as [(-> & _) | (-> & _)]; discriminate.
  - intros q prq Eq Hq. destruct (Hother q prq Eq) as [[-> ->]|[_ E']]; [|eauto].
    cbn in *. destruct Hcase as [(_ & Hv & _) | (-> & _)]; [exact Hv|discriminate].
Qed.

Lemma lookup_alter_Some {A} (g : A -> A) (l : list A) i j x :
  alter g i l !! j = Some x ->
  (i = j /\ exists y, l !! j = Some y /\ x = g y) \/ (i <> j /\ l !! j = Some x).
Proof.
  intros E. destruct (decide (i = j)) as [->|Hne].
  - rewrite list_lookup_alter_eq in E. destruct (l !! j) as [y|]; [|discriminate].
    cbn in E. left. split; [reflexivity|]. exists y. split; congruence.
  - rewrite list_lookup_alter_ne in E by exact Hne. auto.
Qed.

(** The store after [then] registered its two callbacks on [this]. *)
Definition registeredStore (this : nat) (tf tr : Task) (s : State) : State :=
  setPromises
    (alter (fun pr => mkPromise (status pr) (value pr) (reason pr)
                        (onFulfilledCbs pr ++ [Defer tf])
                        (onRejectedCbs pr ++ [Defer tr])) this (promises s)) s.

Lemma register_registeredStore this tf tr s :
  (let s1 := setPromises (alter (pushOnFulfilled (Defer tf)) this (promises s)) s in
   setPromises (alter (pushOnRejected (Defer tr)) this (promises s1)) s1)
  = registeredStore this tf tr s.
Proof.
  cbv zeta. unfold registeredStore, setPromises. cbn. f_equal.
  rewrite list_alter_alter_eq. reflexivity.
Qed.

Lemma statusOf_registeredStore this tf tr s r :
  statusOf (registeredStore this tf tr s) r = statusOf s r.
Proof.
  unfold statusOf, registeredStore. cbn.
  destruct (decide (this = r)) as [->|Hne].
  - rewrite list_lookup_alter_eq. destruct (promises s !! r); reflexivity.
  - rewrite list_lookup_alter_ne by exact Hne. reflexivity.
Qed.

Lemma wellFormed_register s this f g promise2 :
  wellFormed s ->
  wellFormed (registeredStore this (TFulfilled this f promise2)
                (TRejected this g promise2) s).
Proof.
  intros [H1 H2 H3 H4]. split.
  - cbn. eapply Forall_impl; [exact H1|]. intros t. apply timerReady_mono.
    intros r st E _. rewrite statusOf_registeredStore. exact E.
  - intros r pr E Hst. cbn in E.
    apply lookup_alter_Some in E as [[-> (y & Ey & ->)]|[_ E]]; [|eauto].
    cbn in *. apply Forall_app. split; [eauto|].
    constructor; [|constructor]. eexists _, _. reflexivity.
  - intros r pr E Hst. cbn in E.
    apply lookup_alter_Some in E as [[-> (y & Ey & ->)]|[_ E]]; [|eauto].
    cbn in *. apply Forall_app. split; [eauto|].
    constructor; [|constructor]. eexists _, _. reflexivity.
  - intros r pr E Hst. cbn in E.
    apply lookup_alter_Some in E as [[-> (y & Ey & ->)]|[_ E]]; [|eauto].
    cbn in *. eauto.
Qed.

Lemma wellFormed_pop t rest s :
  timers s = t :: rest -> wellFormed s -> wellFormed (setTimers rest s).
Proof.
  intros E [H1 H2 H3 H4]. split; try assumption.
  cbn. rewrite E in H1. inversion H1; subst. assumption.
Qed.


(** ** Stores in which some capabilities are held by known timers only

    [okP] and [okC] are the promises and the calls of [all] that the
    surrounding program may touch; the others are touched by the timers
    and callbacks that satisfy [mine] only.  Such a store stays so under
    every allowed call and allowed timer, together with any further
    property [Extra] that the elementary updates made on behalf of
    allowed closures maintain. *)
Section Owned.

Variables (okP okC : nat -> bool) (mine : Task -> Prop).

Definition allowed (t : Task) : Prop :=
  taskOk okP okC t = true \/ mine t.

Definition liveOk (s : State) : Prop :=
  Forall allowed (timers s)
  /\ forall r pr, promises s !! r = Some pr -> status pr = STATUS_PENDING ->
       Forall (fun cb => allowed (cbTask cb)) (onFulfilledCbs pr)
       /\ Forall (fun cb => allowed (cbTask cb)) (onRejectedCbs pr).

Record owned (s : State) : Prop := {
  owned_fresh : freshOk okP okC s;
  owned_wf : wellFormed s;
  owned_live : liveOk s
}.

Lemma freshOk_grow s s' :
  length (promises s) <= length (promises s') ->
  length (allVars s) <= length (allVars s') ->
  freshOk okP okC s -> freshOk okP okC s'.
Proof.
  intros Hp Hc [H1 H2]. split; intros n Hn; [apply H1 | apply H2]; lia.
Qed.

Lemma liveOk_same s s' :
  promises s' = promises s -> timers s' = timers s -> liveOk s -> liveOk s'.
Proof. intros Ep Et [H1 H2]. split; rewrite ?Ep, ?Et; assumption. Qed.

Lemma owned_same s s' :
  promises s' = promises s -> timers s' = timers s ->
  length (allVars s) <= length (allVars s') ->
  owned s -> owned s'.
Proof.
  intros Ep Et Hc [H1 H2 H3]. split.
  - eapply freshOk_grow; [| |exact H1]; [rewrite Ep; lia | exact Hc].
  - eapply wellFormed_same; eauto.
  - eapply liveOk_same; eauto.
Qed.

Lemma owned_setTimeout t s :
  allowed t -> timerReady s t -> owned s -> owned (setTimeout t s).
Proof.
  intros Hok Hr [H1 H2 [H3 H4]]. split.
  - exact H1.
  - apply wellFormed_setTimeout; assumption.
  - split; [|exact H4]. cbn. apply Forall_app. split; [exact H3|].
    constructor; [exact Hok | constructor].
Qed.

Lemma owned_alloc s :
  owned s -> owned (setPromises (promises s ++ [pendingPromise]) s).
Proof.
  intros [H1 H2 [H3 H4]]. split.
  - eapply freshOk_grow; [| |exact H1]; cbn; rewrite ?length_app; cbn; lia.
  - apply wellFormed_alloc; assumption.
  - split; [exact H3|]. cbn. intros r pr E Hst.
    apply lookup_app_Some in E as [E|[_ E]]; [eauto|].
    apply list_lookup_singleton_Some in E as [_ <-]. cbn. split; constructor.
Qed.

Lemma owned_settle s p pr st v r fns :
  promises s !! p = Some pr -> status pr = STATUS_PENDING ->
  (st = STATUS_FULFILLED /\ isPromise v = false /\ fns = onFulfilledCbs pr
   \/ st = STATUS_REJECTED /\ fns = onRejectedCbs pr) ->
  owned s ->
  owned (settledStore p
           (mkPromise st v r (onFulfilledCbs pr) (onRejectedCbs pr)) fns s).
Proof.
  intros E Hpend Hcase [H1 H2 [H3 H4]].
  assert (Hlt : p < length (promises s)) by (eapply lookup_lt_Some; eauto).
  split.
  - eapply freshOk_grow; [| |exact H1]; cbn; rewrite ?length_insert; lia.
  - apply wellFormed_settle; assumption.
  - split.
    + rewrite timers_settledStore. apply Forall_app. split; [exact H3|].
      apply Forall_fmap. destruct (H4 p pr E Hpend) as [Hf Hr].
      destruct Hcase as [(_ & _ & ->) | (_ & ->)]; assumption.
    + rewrite promises_settledStore. intros q prq Eq Hq.
      destruct (decide (p = q)) as [->|Hne].
      * rewrite list_lookup_insert_eq in Eq by exact Hlt.
        injection Eq as <-. cbn in Hq.
        destruct Hcase as [(-> & _) | (-> & _)]; discriminate.
      * rewrite list_lookup_insert_ne in Eq by exact Hne. eauto.
Qed.

Lemma owned_register s this f g promise2 :
  allowed (TFulfilled this f promise2) -> allowed (TRejected this g promise2) ->
  owned s ->
  owned (registeredStore this (TFulfilled this f promise2)
           (TRejected this g promise2) s).
Proof.
  intros Hf Hg [H1 H2 [H3 H4]]. split.
  - eapply freshOk_grow; [| |exact H1]; cbn; rewrite ?length_alter; lia.
  - apply wellFormed_register; assumption.
  - split; [exact H3|]. cbn. intros r pr E Hst.
    apply lookup_alter_Some in E as [[-> (y & Ey & ->)]|[_ E]]; [|eauto].
    cbn in *. destruct (H4 r y Ey Hst) as [Hyf Hyr].
    split; apply Forall_app; (split; [assumption|]);
      (constructor; [assumption|constructor]).
Qed.

Lemma allowed_then f promise2 this :
  fnOk okP okC f = true -> okP promise2 = true ->
  allowed (TFulfilled this f promise2) /\ allowed (TRejected this f promise2).
Proof. intros Hf Hp. split; left; cbn; rewrite Hf, Hp; reflexivity. Qed.

Lemma owned_pop t rest s :
  timers s = t :: rest -> owned s -> owned (setTimers rest s).
Proof.
  intros E [H1 H2 [H3 H4]]. split.
  - exact H1.
  - eapply wellFormed_pop; eauto.
  - split; [|exact H4]. cbn. rewrite E in H3. inversion H3; subst; assumption.
Qed.

Variable Extra : State -> Prop.

Hypothesis Extra_calledVars : forall cs s, Extra s -> Extra (setCalledVars cs s).
Hypothesis Extra_handlerLog : forall l s, Extra s -> Extra (setHandlerLog l s).
Hypothesis Extra_allocVars :
  forall s, owned s -> Extra s ->
            Extra (setAllVars (allVars s ++ [mkAllVars [] 0]) s).
Hypothesis Extra_setVars :
  forall s c vars vars',
    okC c = true -> allVars s !! c = Some vars -> owned s -> Extra s ->
    Extra (setAllVars (<[c := vars']> (allVars s)) s).
Hypothesis Extra_setTimeout :
  forall t s, taskOk okP okC t = true -> timerReady s t -> owned s ->
              Extra s -> Extra (setTimeout t s).
Hypothesis Extra_alloc :
  forall s, owned s -> Extra s ->
            Extra (setPromises (promises s ++ [pendingPromise]) s).
Hypothesis Extra_settle :
  forall s p pr st v r fns,
    okP p = true ->
    promises s !! p = Some pr -> status pr = STATUS_PENDING ->
    (st = STATUS_FULFILLED /\ isPromise v = false /\ r = reason pr
       /\ fns = onFulfilledCbs pr
     \/ st = STATUS_REJECTED /\ v = value pr /\ fns = onRejectedCbs pr) ->
    owned s -> Extra s ->
    Extra (settledStore p
             (mkPromise st v r (onFulfilledCbs pr) (onRejectedCbs pr)) fns s).
Hypothesis Extra_register :
  forall s this f g promise2,
    fnOk okP okC f = true -> fnOk okP okC g = true -> okP promise2 = true ->
    statusOf s this = Some STATUS_PENDING -> owned s -> Extra s ->
    Extra (registeredStore this (TFulfilled this f promise2)
             (TRejected this g promise2) s).

Definition kept (s : State) : Prop := owned s /\ Extra s.

Ltac kept_frame lem :=
  apply lem; unfold kept;
  first
    [ solve [intros ? [[] ?]; assumption]
    | solve [intros ? ? ? ? [? ?]; split;
             [ apply owned_setTimeout; [left|..]
             | apply Extra_setTimeout ]; assumption]
    | solve [intros ? [? ?]; split;
             [apply owned_alloc | apply Extra_alloc]; assumption]
    | solve [intros ? ? ? ? ? ? ? ? [? ?];
             rewrite invokeArrayFns_settledStore; split;
             [ apply owned_settle; auto
             | apply Extra_settle; auto 10 ]]
    | solve [intros ? ? ? ? ? ? ? [? ?];
             rewrite invokeArrayFns_settledStore; split;
             [ apply owned_settle; auto
             | apply Extra_settle; auto 10 ]]
    | solve [intros ? ? ? ? ? ? ? ? ? [? ?];
             rewrite register_registeredStore; split;
             [ apply owned_register;
               [eapply allowed_then | eapply allowed_then | ]
             | apply Extra_register ]; eassumption]
    | solve [intros ? [? ?]; split;
             [ eapply owned_same; [| | |eassumption]; cbn;
               rewrite ?length_app; auto with lia
             | first [apply Extra_calledVars | apply Extra_allocVars];
               assumption ]]
    | solve [intros ? ? [? ?]; split;
             [ eapply owned_same; [| | |eassumption]; cbn;
               rewrite ?length_app; auto with lia
             | first [apply Extra_calledVars | apply Extra_handlerLog];
               assumption ]]
    | solve [intros ? ? ? ? ? ? ? [? ?]; split;
             [ eapply owned_same; [| | |eassumption]; cbn;
               rewrite ?length_insert; auto with lia
             | eapply Extra_setVars; eassumption ]]
    | idtac ].

Lemma applyFn_kept f v s :
  fnOk okP okC f = true -> kept s -> kept (snd (applyFn f v s)).
Proof using Extra_calledVars Extra_setVars Extra_setTimeout Extra_alloc
            Extra_settle Extra_register.
  kept_frame (applyFn_pres okP okC kept).
Qed.

Lemma resolveFn_kept this v s :
  okP this = true -> kept s -> kept (snd (resolveFn this v s)).
Proof using Extra_setTimeout Extra_alloc Extra_settle Extra_register.
  kept_frame (resolveFn_pres okP okC kept).
Qed.

Lemma rejectFn_kept this r s :
  okP this = true -> kept s -> kept (snd (rejectFn this r s)).
Proof using Extra_settle.
  kept_frame (rejectFn_pres okP kept).
Qed.

Lemma promiseResolutionProcedure_kept promise x resolve reject s :
  fnOk okP okC resolve = true -> fnOk okP okC reject = true ->
  kept s -> kept (snd (promiseResolutionProcedure promise x resolve reject s)).
Proof using Extra_calledVars Extra_setVars Extra_setTimeout Extra_alloc
            Extra_settle Extra_register.
  kept_frame (promiseResolutionProcedure_pres okP okC kept).
Qed.

Lemma runTask_kept t s :
  taskOk okP okC t = true -> kept s -> kept (runTask t s).
Proof using Extra_calledVars Extra_handlerLog Extra_setVars Extra_setTimeout
            Extra_alloc Extra_settle Extra_register.
  kept_frame (runTask_pres okP okC kept).
Qed.

Lemma performCall_kept a s :
  actionOk okP okC a = true -> kept s ->
  match a with ATick => True | _ => kept (perform s a) end.
Proof using Extra_calledVars Extra_allocVars Extra_setVars Extra_setTimeout
            Extra_alloc Extra_settle Extra_register.
  kept_frame (performCall_pres okP okC kept).
Qed.

(** Timers: an allowed one is covered by the above; one that satisfies
    [mine] has to maintain the property by what it is. *)
Hypothesis Extra_pop :
  forall t rest s,
    timers s = t :: rest -> taskOk okP okC t = true -> owned s -> Extra s ->
    Extra (setTimers rest s).
Hypothesis mine_runs :
  forall t rest s,
    timers s = t :: rest -> mine t -> kept s ->
    kept (runTask t (setTimers rest s)).

Lemma tick_kept s : kept s -> kept (tick s).
Proof using All.
  intros HK. unfold tick. destruct (timers s) as [|t rest] eqn:E; [exact HK|].
  assert (Hhead : allowed t).
  { destruct HK as [[_ _ [Hl _]] _]. rewrite E in Hl.
    inversion Hl; subst; assumption. }
  destruct Hhead as [Hok|Hm]; [|eapply mine_runs; eauto].
  apply runTask_kept; [exact Hok|]. destruct HK as [Ho He].
  split; [eapply owned_pop; eauto | eapply Extra_pop; eauto].
Qed.

Lemma perform_kept a s :
  actionOk okP okC a = true -> kept s -> kept (perform s a).
Proof using All.
  intros Hok HK. pose proof (performCall_kept a s Hok HK) as H.
  destruct a; try exact H. apply tick_kept, HK.
Qed.

Lemma performAll_kept acts : forall s,
  forallb (actionOk okP okC) acts = true -> kept s -> kept (performAll acts s).
Proof using All.
  induction acts as [|a acts IH]; intros s Hok HK; cbn; [exact HK|].
  cbn in Hok. apply andb_prop in Hok as [H1 H2].
  apply IH; [exact H2|]. apply perform_kept; assumption.
Qed.

End Owned.


(** ** Deciding the two conditions on a given store *)

Definition settledAs (st : Status) (s : State) (r : nat) : bool :=
  match promises s !! r with
  | Some pr =>
      match status pr, st with
      | STATUS_FULFILLED, STATUS_FULFILLED => true
      | STATUS_REJECTED, STATUS_REJECTED => true
      | _, _ => false
      end
  | None => false
  end.

Definition timerReadyb (s : State) (t : Task) : bool :=
  match t with
  | TFulfilled this _ _ => settledAs STATUS_FULFILLED s this
  | TRejected this _ _ => settledAs STATUS_REJECTED s this
  | TScript _ _ _ => true
  end.

Definition isFulfilCbOf (r : nat) (cb : Cb) : bool :=
  match cb with Defer (TFulfilled this _ _) => Nat.eqb this r | _ => false end.
Definition isRejectCbOf (r : nat) (cb : Cb) : bool :=
  match cb with Defer (TRejected this _ _) => Nat.eqb this r | _ => false end.

Definition promiseFormed (r : nat) (pr : PromiseImpl) : bool :=
  match status pr with
  | STATUS_PENDING =>
      forallb (isFulfilCbOf r) (onFulfilledCbs pr)
      && forallb (isRejectCbOf r) (onRejectedCbs pr)
  | STATUS_FULFILLED => negb (isPromise (value pr))
  | STATUS_REJECTED => true
  end.

Fixpoint forallbFrom {A} (f : nat -> A -> bool) (i : nat) (l : list A) : bool :=
  match l with
  | [] => true
  | x :: rest => f i x && forallbFrom f (S i) rest
  end.

Lemma forallbFrom_lookup {A} (f : nat -> A -> bool) l : forall i j x,
  forallbFrom f i l = true -> l !! j = Some x -> f (i + j) x = true.
Proof.
  induction l as [|y l IH]; intros i j x H E; [discriminate|].
  cbn in H. apply andb_prop in H as [H1 H2]. destruct j as [|j]; cbn in E.
  - injection E as <-. rewrite Nat.add_0_r. exact H1.
  - replace (i + S j) with (S i + j) by lia. eapply IH; eauto.
Qed.

Definition wellFormedb (s : State) : bool :=
  forallb (timerReadyb s) (timers s)
  && forallbFrom promiseFormed 0 (promises s).

Lemma timerReadyb_sound s t : timerReadyb s t = true -> timerReady s t.
Proof.
  destruct t; cbn; try (intros; exact I); unfold settledAs, statusOf;
    destruct (promises s !! this) as [pr|]; try discriminate; cbn;
    destruct (status pr); try discriminate; reflexivity.
Qed.

Lemma forallb_Forall {A} (f : A -> bool) (P : A -> Prop) l :
  (forall x, f x = true -> P x) -> forallb f l = true -> Forall P l.
Proof.
  intros H. induction l as [|x l IH]; cbn; intros E; constructor;
    apply andb_prop in E as [E1 E2]; auto.
Qed.

Lemma wellFormedb_sound s : wellFormedb s = true -> wellFormed s.
Proof.
  unfold wellFormedb. intros H. apply andb_prop in H as [H1 H2].
  assert (Hp : forall r pr, promises s !! r = Some pr -> promiseFormed r pr = true).
  { intros r pr E. exact (forallbFrom_lookup _ _ 0 r pr H2 E). }
  split.
  - eapply forallb_Forall; [apply timerReadyb_sound | exact H1].
  - intros r pr E Hst. specialize (Hp r pr E). unfold promiseFormed in Hp.
    rewrite Hst in Hp. apply andb_prop in Hp as [Hf _].
    eapply forallb_Forall; [|exact Hf].
    intros [[this f p2| |]]; cbn; try discriminate.
    intros Ee. apply Nat.eqb_eq in Ee as ->. eexists _, _. reflexivity.
  - intros r pr E Hst. specialize (Hp r pr E). unfold promiseFormed in Hp.
    rewrite Hst in Hp. apply andb_prop in Hp as [_ Hr].
    eapply forallb_Forall; [|exact Hr].
    intros [[|this f p2|]]; cbn; try discriminate.
    intros Ee. apply Nat.eqb_eq in Ee as ->. eexists _, _. reflexivity.
  - intros r pr E Hst. specialize (Hp r pr E). unfold promiseFormed in Hp.
    rewrite Hst in Hp. apply negb_true_iff in Hp. exact Hp.
Qed.

(** Nothing but allowed closures in the timers and callbacks in use. *)
Definition nobody (t : Task) : Prop := False.

Definition liveOkb (okP okC : nat -> bool) (s : State) : bool :=
  forallb (taskOk okP okC) (timers s)
  && forallb (fun pr =>
       match status pr with
       | STATUS_PENDING =>
           forallb (fun cb => taskOk okP okC (cbTask cb))
             (onFulfilledCbs pr ++ onRejectedCbs pr)
       | _ => true
       end) (promises s).

Lemma liveOkb_sound okP okC s :
  liveOkb okP okC s = true -> liveOk okP okC nobody s.
Proof.
  unfold liveOkb. intros H. apply andb_prop in H as [H1 H2]. split.
  - eapply forallb_Forall; [|exact H1]. intros t Ht. left. exact Ht.
  - intros r pr E Hst.
    assert (Hin : In pr (promises s)).
    { apply list_elem_of_In. eapply list_elem_of_lookup_2; eauto. }
    rewrite forallb_forall in H2. specialize (H2 pr Hin). rewrite Hst in H2.
    assert (Hall : Forall (fun cb => allowed okP okC nobody (cbTask cb))
                     (onFulfilledCbs pr ++ onRejectedCbs pr)).
    { eapply forallb_Forall; [|exact H2]. intros cb Ht. left. exact Ht. }
    apply Forall_app in Hall. exact Hall.
Qed.

Definition notId (p : nat) (n : nat) : bool := negb (Nat.eqb n p).


(** ** How the elementary updates change what is observed of a promise *)

Lemma settlement_alloc s p :
  p < length (promises s) ->
  settlement (setPromises (promises s ++ [pendingPromise]) s) p = settlement s p.
Proof. intros H. unfold settlement. cbn. rewrite lookup_app_l by exact H. reflexivity. Qed.

Lemma settlement_lt s p x : settlement s p = Some x -> p < length (promises s).
Proof.
  unfold settlement. destruct (promises s !! p) eqn:E; [|discriminate].
  intros _. eapply lookup_lt_Some; eauto.
Qed.

Lemma settlement_settledStore s q pr' fns p :
  q <> p -> settlement (settledStore q pr' fns s) p = settlement s p.
Proof.
  intros H. unfold settlement. rewrite promises_settledStore.
  rewrite list_lookup_insert_ne by exact H. reflexivity.
Qed.

Lemma settlement_settledStore_eq s q pr' fns :
  q < length (promises s) ->
  settlement (settledStore q pr' fns s) q
  = Some (status pr', value pr', reason pr').
Proof.
  intros H. unfold settlement. rewrite promises_settledStore.
  rewrite list_lookup_insert_eq by exact H. reflexivity.
Qed.

Lemma settlement_registeredStore s this tf tr p :
  settlement (registeredStore this tf tr s) p = settlement s p.
Proof.
  unfold settlement, registeredStore. cbn.
  destruct (decide (this = p)) as [->|Hne].
  - rewrite list_lookup_alter_eq. destruct (promises s !! p); reflexivity.
  - rewrite list_lookup_alter_ne by exact Hne. reflexivity.
Qed.

Lemma notId_true p n : notId p n = true <-> n <> p.
Proof.
  unfold notId. rewrite negb_true_iff, Nat.eqb_neq. reflexivity.
Qed.

(** ** A promise whose capabilities nobody holds *)

(** When no timer and no callback of a pending promise holds a
    capability of [p], [p] is what it is for ever, as long as the
    program does not call a capability of [p] (which it cannot have
    obtained). *)
Lemma unreachable_promise_keeps (p : nat) (x : Status * Val * Val)
    (s : State) (later : list Action) :
  settlement s p = Some x ->
  wellFormed s ->
  liveOk (notId p) anyId nobody s ->
  forallb (actionOk (notId p) anyId) later = true ->
  settlement (performAll later s) p = Some x.
Proof.
  intros Hx Hwf Hlive Hacts.
  assert (HK : kept (notId p) anyId nobody (fun s' => settlement s' p = Some x) s).
  { split; [split|]; try assumption.
    split; intros n Hn; [|reflexivity].
    apply notId_true. apply settlement_lt in Hx. lia. }
  cut (kept (notId p) anyId nobody (fun s' => settlement s' p = Some x)
         (performAll later s)); [intros [_ H]; exact H|].
  apply (performAll_kept (notId p) anyId nobody
           (fun s' => settlement s' p = Some x));
    try assumption; try (intros; assumption).
  - intros s' _ Hs. rewrite settlement_alloc; [exact Hs|].
    eapply settlement_lt; eauto.
  - intros s' q pr st v r fns Hq _ _ _ _ Hs.
    rewrite settlement_settledStore; [exact Hs|]. apply notId_true. exact Hq.
  - intros s' this f g p2 _ _ _ _ _ Hs.
    rewrite settlement_registeredStore. exact Hs.
  - intros t rest s' _ Hm. destruct Hm.
Qed.

(** C10.  [race] of an empty array returns a new pending promise and
    gives its capabilities to nobody: the executor returns at once.
    Whatever the program does next (calls of closures, of [then], of
    the static methods, timers firing), the promise stays pending.  The
    store the call starts from is well formed and nothing in it holds a
    capability of the promise about to be created. *)
Theorem race_empty_never_settles (s : State) (later : list Action) :
  let p := length (promises s) in
  wellFormedb s = true ->
  liveOkb (notId p) anyId s = true ->
  forallb (actionOk (notId p) anyId) later = true ->
  race (VArr []) s
    = (Normal (VPromise p), setPromises (promises s ++ [pendingPromise]) s)
  /\ settlement (performAll later (snd (race (VArr []) s))) p
     = Some (STATUS_PENDING, VNull, VNull).
Proof.
  intros p Hwf Hlive Hacts. split; [reflexivity|].
  apply wellFormedb_sound in Hwf. apply liveOkb_sound in Hlive.
  change (snd (race (VArr []) s))
    with (setPromises (promises s ++ [pendingPromise]) s).
  apply unreachable_promise_keeps; [| | |exact Hacts].
  - unfold settlement. cbn. fold p.
    rewrite list_lookup_middle by reflexivity. reflexivity.
  - apply wellFormed_alloc. exact Hwf.
  - destruct Hlive as [H1 H2]. split; [exact H1|]. cbn. intros r pr E Hst.
    apply lookup_app_Some in E as [E|[_ E]]; [eauto|].
    apply list_lookup_singleton_Some in E as [_ <-]. cbn. split; constructor.
Qed.


(** ** The two capabilities, by cases *)

Lemma resolveFn_plain this v s :
  isPromise v = false ->
  resolveFn this v s =
  match promises s !! this with
  | Some pr =>
      match status pr with
      | STATUS_PENDING =>
          (Normal VUndefined,
           settledStore this
             (mkPromise STATUS_FULFILLED v (reason pr)
                (onFulfilledCbs pr) (onRejectedCbs pr))
             (onFulfilledCbs pr) s)
      | _ => (Normal VUndefined, s)
      end
  | None => (Normal VUndefined, s)
  end.
Proof.
  intros Hv. unfold resolveFn, settledStore.
  destruct v; try discriminate Hv;
    (destruct (promises s !! this) as [pr|]; [|reflexivity];
     destruct (status pr); try reflexivity;
     rewrite invokeArrayFns_timers; reflexivity).
Qed.

Lemma rejectFn_cases this r s :
  rejectFn this r s =
  match promises s !! this with
  | Some pr =>
      match status pr with
      | STATUS_PENDING =>
          (Normal VUndefined,
           settledStore this
             (mkPromise STATUS_REJECTED (value pr) r
                (onFulfilledCbs pr) (onRejectedCbs pr))
             (onRejectedCbs pr) s)
      | _ => (Normal VUndefined, s)
      end
  | None => (Normal VUndefined, s)
  end.
Proof.
  unfold rejectFn, settledStore.
  destruct (promises s !! this) as [pr|]; [|reflexivity].
  destruct (status pr); try reflexivity.
  rewrite invokeArrayFns_timers. reflexivity.
Qed.

(** ** [race]: adopting a promise of this implementation *)

Definition pendingTriple : Status * Val * Val := (STATUS_PENDING, VNull, VNull).

Section RaceAdoption.

(** [q] is the first element, [p] the promise that [race] returns and
    [p2] the promise that [q.then(...)] returns inside the executor. *)
Variables (q p p2 : nat).
Hypothesis q_not_p : q <> p.
Hypothesis p2_not_p : p2 <> p.

Definition raceFulfilTimer : Task := TFulfilled q (FPass (FResolve p)) p2.
Definition raceRejectTimer : Task := TRejected q (FPass (FReject p)) p2.

Definition isRaceTimer (t : Task) : bool :=
  match t with
  | TFulfilled q' (FPass (FResolve p')) p2' =>
      Nat.eqb q' q && Nat.eqb p' p && Nat.eqb p2' p2
  | TRejected q' (FPass (FReject p')) p2' =>
      Nat.eqb q' q && Nat.eqb p' p && Nat.eqb p2' p2
  | _ => false
  end.

Definition raceTimer (t : Task) : Prop := isRaceTimer t = true.

Lemma isRaceTimer_true t :
  isRaceTimer t = true -> t = raceFulfilTimer \/ t = raceRejectTimer.
Proof.
  destruct t as [q' f p2'|q' f p2'|]; cbn; try discriminate;
    destruct f; try discriminate; destruct f; try discriminate;
    intros H; apply andb_prop in H as [H H3]; apply andb_prop in H as [H1 H2];
    apply Nat.eqb_eq in H1, H2, H3; subst; auto.
Qed.

Lemma raceTimer_not_ok okC t :
  isRaceTimer t = true -> taskOk (notId p) okC t = false.
Proof.
  intros H. apply isRaceTimer_true in H as [-> | ->]; cbn;
    unfold notId; rewrite Nat.eqb_refl; reflexivity.
Qed.

(** While [q] is pending [p] is pending and the two callbacks wait on
    [q]; once [q] is settled, [p] has the value or the reason of [q],
    or is still pending with the adopting timer in the queue. *)
Definition adopts (s : State) : Prop :=
  match promises s !! q with
  | Some prq =>
      match status prq with
      | STATUS_PENDING =>
          settlement s p = Some pendingTriple
          /\ In (Defer raceFulfilTimer) (onFulfilledCbs prq)
          /\ In (Defer raceRejectTimer) (onRejectedCbs prq)
      | STATUS_FULFILLED =>
          settlement s p = Some (STATUS_FULFILLED, value prq, VNull)
          \/ (settlement s p = Some pendingTriple
              /\ In raceFulfilTimer (timers s))
      | STATUS_REJECTED =>
          settlement s p = Some (STATUS_REJECTED, VNull, reason prq)
          \/ (settlement s p = Some pendingTriple
              /\ In raceRejectTimer (timers s))
      end
  | None => False
  end.

Lemma adopts_settlement s : adopts s -> exists x, settlement s p = Some x.
Proof.
  unfold adopts. destruct (promises s !! q) as [prq|]; [|contradiction].
  destruct (status prq); intros H.
  - destruct H as [H _]; eauto.
  - destruct H as [H|[H _]]; eauto.
  - destruct H as [H|[H _]]; eauto.
Qed.

Lemma adopts_same s s' :
  promises s' = promises s -> timers s' = timers s -> adopts s -> adopts s'.
Proof.
  intros Ep Et. unfold adopts, settlement. rewrite Ep, Et. trivial.
Qed.

Lemma adopts_more_timers s ts :
  adopts s -> adopts (addTimers ts s).
Proof.
  unfold adopts, settlement. cbn.
  destruct (promises s !! q) as [prq|]; [|trivial].
  destruct (status prq); intros H; [exact H| |];
    (destruct H as [H|[H1 H2]]; [left; exact H|right; split; [exact H1|]];
     apply in_or_app; left; exact H2).
Qed.

Lemma adopts_alloc s :
  adopts s -> adopts (setPromises (promises s ++ [pendingPromise]) s).
Proof.
  intros H. destruct (adopts_settlement s H) as [x Hx].
  apply settlement_lt in Hx.
  unfold adopts in *. rewrite settlement_alloc by exact Hx. cbn.
  destruct (promises s !! q) as [prq|] eqn:E; [|contradiction].
  rewrite (lookup_app_l_Some _ _ _ _ E). exact H.
Qed.

Lemma adopts_register s this tf tr :
  adopts s -> adopts (registeredStore this tf tr s).
Proof.
  unfold adopts. rewrite settlement_registeredStore. cbn [registeredStore promises setPromises timers].
  destruct (decide (this = q)) as [->|Hne].
  - rewrite list_lookup_alter_eq.
    destruct (promises s !! q) as [prq|]; [|trivial]. cbn.
    destruct (status prq); intros H; try exact H.
    destruct H as (H1 & H2 & H3). split; [exact H1|].
    split; apply in_or_app; left; assumption.
  - rewrite list_lookup_alter_ne by exact Hne. trivial.
Qed.

Lemma adopts_settle s r pr st v w fns :
  r <> p ->
  promises s !! r = Some pr -> status pr = STATUS_PENDING ->
  (st = STATUS_FULFILLED /\ isPromise v = false /\ w = reason pr
     /\ fns = onFulfilledCbs pr
   \/ st = STATUS_REJECTED /\ v = value pr /\ fns = onRejectedCbs pr) ->
  adopts s ->
  adopts (settledStore r
            (mkPromise st v w (onFulfilledCbs pr) (onRejectedCbs pr)) fns s).
Proof.
  intros Hrp E Hpend Hcase H.
  assert (Hlt : r < length (promises s)) by (eapply lookup_lt_Some; eauto).
  unfold adopts in *. rewrite settlement_settledStore by exact Hrp.
  rewrite promises_settledStore, timers_settledStore.
  destruct (decide (r = q)) as [->|Hne].
  - rewrite list_lookup_insert_eq by exact Hlt. rewrite E, Hpend in H.
    destruct H as (H1 & H2 & H3). cbn.
    destruct Hcase as [(-> & _ & _ & ->) | (-> & _ & ->)]; right;
      (split; [exact H1|]); apply in_or_app; right;
      apply (in_map cbTask) in H2, H3; assumption.
  - rewrite list_lookup_insert_ne by exact Hne.
    destruct (promises s !! q) as [prq|]; [|trivial].
    destruct (status prq); [exact H| |];
      (destruct H as [H|[H1 H2]]; [left; exact H|right; split; [exact H1|]];
       apply in_or_app; left; exact H2).
Qed.

Lemma adopts_pop okC t rest s :
  timers s = t :: rest -> taskOk (notId p) okC t = true ->
  adopts s -> adopts (setTimers rest s).
Proof.
  intros E Hok. unfold adopts, settlement. cbn. rewrite E.
  assert (Hne : forall t', isRaceTimer t' = true -> In t' (t :: rest) -> In t' rest).
  { intros t' Ht' [<-|Hin]; [|exact Hin].
    rewrite (raceTimer_not_ok okC t Ht') in Hok. discriminate. }
  destruct (promises s !! q) as [prq|]; [|trivial].
  destruct (status prq); intros H; [exact H| |];
    (destruct H as [H|[H1 H2]]; [left; exact H|right; split; [exact H1|]];
     apply Hne; [|exact H2]; cbn; rewrite !Nat.eqb_refl; reflexivity).
Qed.


Ltac adopts_extra :=
  first
    [ solve [intros; eapply adopts_same; [| |eassumption]; reflexivity]
    | solve [intros; match goal with
                     | |- adopts (setTimeout ?t ?s) =>
                         apply (adopts_more_timers s [t]); assumption
                     end]
    | solve [intros; apply adopts_alloc; assumption]
    | solve [intros; eapply adopts_settle; eauto; apply notId_true; assumption]
    | solve [intros; apply adopts_register; assumption]
    | solve [intros; eapply adopts_pop; eauto] ].

Definition raceKept : State -> Prop := kept (notId p) anyId raceTimer adopts.

Lemma race_prp_kept promise x s :
  raceKept s ->
  raceKept (snd (promiseResolutionProcedure promise x (FResolve p2) (FReject p2) s)).
Proof using q_not_p p2_not_p.
  apply (promiseResolutionProcedure_kept (notId p) anyId raceTimer adopts);
    try adopts_extra; apply notId_true; exact p2_not_p.
Qed.

Lemma race_rejectFn_kept r s :
  raceKept s -> raceKept (snd (rejectFn p2 r s)).
Proof using q_not_p p2_not_p.
  apply (rejectFn_kept (notId p) anyId raceTimer adopts);
    try adopts_extra; apply notId_true; exact p2_not_p.
Qed.

(** The rest of a timer of [then] for [p2], after the handler returned. *)
Lemma race_timer_rest kept_s (x : Val) :
  raceKept kept_s ->
  raceKept
    match promiseResolutionProcedure p2 x (FResolve p2) (FReject p2) kept_s with
    | (Normal _, s2) => s2
    | (Thrown e, s2) => snd (rejectFn p2 e s2)
    end.
Proof using q_not_p p2_not_p.
  intros HK. pose proof (race_prp_kept p2 x kept_s HK) as H.
  destruct (promiseResolutionProcedure _ _ _ _ _) as [[?|e] s2]; cbn [snd] in H;
    [exact H | apply race_rejectFn_kept; exact H].
Qed.

Lemma raceTimer_runs t rest s :
  timers s = t :: rest -> isRaceTimer t = true ->
  raceKept s -> raceKept (runTask t (setTimers rest s)).
Proof using q_not_p p2_not_p.
  intros Et Ht [Ho Ha].
  assert (Ho' : forall ev, owned (notId p) anyId raceTimer
                             (logHandler ev (setTimers rest s))).
  { intros ev. eapply owned_same; [| | |eapply owned_pop; eauto]; reflexivity. }
  pose proof (owned_wf _ _ _ _ Ho) as Hwf.
  assert (Hready : timerReady s t).
  { pose proof (wf_timers _ Hwf) as Hr. rewrite Et in Hr.
    inversion Hr; subst; assumption. }
  destruct (adopts_settlement s Ha) as [x Hx].
  unfold settlement in Hx.
  destruct (promises s !! p) as [prp|] eqn:Ep; [|discriminate]. clear x Hx.
  assert (Hlt : p < length (promises s)) by (eapply lookup_lt_Some; eauto).
  apply isRaceTimer_true in Ht as [-> | ->];
    unfold raceFulfilTimer, raceRejectTimer in *;
    cbn [runTask setTimers promises];
    cbn in Hready; unfold statusOf in Hready;
    (destruct (promises s !! q) as [prq|] eqn:Eq; [|discriminate]);
    cbn in Hready; injection Hready as Hst;
    unfold adopts in Ha; rewrite Eq, Hst in Ha; unfold settlement in Ha;
    rewrite Ep in Ha; cbn in Ha; unfold pendingTriple in Ha;
    unfold handlerBody; cbn [applyFn].
  - (* the fulfilment timer *)
    assert (Hv : isPromise (value prq) = false) by (eapply wf_values; eauto).
    rewrite (resolveFn_plain _ _ _ Hv).
    change (promises (logHandler (HandlerCalled q (FPass (FResolve p)) (value prq))
                        (setTimers rest s)) !! p) with (promises s !! p).
    rewrite Ep.
    destruct (status prp) eqn:Hsp; cbv beta iota; apply race_timer_rest.
    + split; [apply owned_settle; auto|].
      destruct Ha as [Ha|[Ha _]]; [congruence|].
      unfold adopts. rewrite promises_settledStore.
      rewrite list_lookup_insert_ne by congruence.
      change (promises (logHandler (HandlerCalled q (FPass (FResolve p)) (value prq))
                          (setTimers rest s)) !! q) with (promises s !! q).
      rewrite Eq, Hst. left.
      rewrite settlement_settledStore_eq by exact Hlt. cbn. congruence.
    + split; [apply Ho'|].
      destruct Ha as [Ha|[Ha _]]; [|congruence].
      unfold adopts, settlement. cbn. rewrite Eq, Hst, Ep. left.
      cbn. rewrite ?Hsp. first [exact Ha | congruence].
    + split; [apply Ho'|].
      destruct Ha as [Ha|[Ha _]]; [|congruence].
      unfold adopts, settlement. cbn. rewrite Eq, Hst, Ep. left.
      cbn. rewrite ?Hsp. first [exact Ha | congruence].
  - (* the rejection timer *)
    rewrite rejectFn_cases.
    change (promises (logHandler (HandlerCalled q (FPass (FReject p)) (reason prq))
                        (setTimers rest s)) !! p) with (promises s !! p).
    rewrite Ep.
    destruct (status prp) eqn:Hsp; cbv beta iota; apply race_timer_rest.
    + split; [apply owned_settle; auto|].
      destruct Ha as [Ha|[Ha _]]; [congruence|].
      unfold adopts. rewrite promises_settledStore.
      rewrite list_lookup_insert_ne by congruence.
      change (promises (logHandler (HandlerCalled q (FPass (FReject p)) (reason prq))
                          (setTimers rest s)) !! q) with (promises s !! q).
      rewrite Eq, Hst. left.
      rewrite settlement_settledStore_eq by exact Hlt. cbn. congruence.
    + split; [apply Ho'|].
      destruct Ha as [Ha|[Ha _]]; [|congruence].
      unfold adopts, settlement. cbn. rewrite Eq, Hst, Ep. left.
      cbn. rewrite ?Hsp. first [exact Ha | congruence].
    + split; [apply Ho'|].
      destruct Ha as [Ha|[Ha _]]; [|congruence].
      unfold adopts, settlement. cbn. rewrite Eq, Hst, Ep. left.
      cbn. rewrite ?Hsp. first [exact Ha | congruence].
Qed.

Lemma race_performAll_kept later s :
  forallb (actionOk (notId p) anyId) later = true ->
  raceKept s -> raceKept (performAll later s).
Proof using q_not_p p2_not_p.
  apply (performAll_kept (notId p) anyId raceTimer adopts);
    try adopts_extra.
  intros; eapply raceTimer_runs; eauto.
Qed.

End RaceAdoption.


(** ** [race]: what the executor does with the first element *)

Lemma liveOk_weaken okP okC (mine mine' : Task -> Prop) s :
  (forall t, mine t -> mine' t) ->
  liveOk okP okC mine s -> liveOk okP okC mine' s.
Proof.
  intros Hm [H1 H2].
  assert (Ha : forall t, allowed okP okC mine t -> allowed okP okC mine' t)
    by (intros t [H|H]; [left|right]; auto).
  split.
  - eapply Forall_impl; [exact H1 | exact Ha].
  - intros r pr E Hst. destruct (H2 r pr E Hst) as [Hf Hr].
    split; (eapply Forall_impl; [eassumption|]); intros cb; apply Ha.
Qed.

(** The store in which the executor of a new promise starts. *)
Lemma owned_newPromise mine s :
  wellFormed s ->
  liveOk (notId (length (promises s))) anyId nobody s ->
  owned (notId (length (promises s))) anyId mine
    (setPromises (promises s ++ [pendingPromise]) s).
Proof.
  intros Hwf Hlive. split.
  - split; intros n Hn; [|reflexivity]. apply notId_true.
    cbn in Hn. rewrite length_app in Hn. cbn in Hn. lia.
  - apply wellFormed_alloc. exact Hwf.
  - apply (liveOk_weaken _ _ nobody mine) in Hlive; [|intros t []].
    destruct Hlive as [H1 H2]. split; [exact H1|]. cbn. intros r pr E Hst.
    apply lookup_app_Some in E as [E|[_ E]]; [eauto|].
    apply list_lookup_singleton_Some in E as [_ <-]. cbn. split; constructor.
Qed.

Lemma settlement_new s :
  settlement (setPromises (promises s ++ [pendingPromise]) s)
    (length (promises s)) = Some pendingTriple.
Proof.
  unfold settlement. cbn. rewrite list_lookup_middle by reflexivity. reflexivity.
Qed.

Lemma race_returns x rest s :
  fst (race (VArr (x :: rest)) s) = Normal (VPromise (length (promises s))).
Proof.
  unfold race. cbn [isIterable truthy andb].
  pose proof (construct_promises_length
                (raceExecutor (VArr (x :: rest))) s) as H.
  destruct (construct _ _) as [p s1]. cbn in *. congruence.
Qed.

(** The first element is a promise of this implementation. *)
Lemma race_promise_kept q rest s :
  q < length (promises s) ->
  wellFormed s ->
  liveOk (notId (length (promises s))) anyId nobody s ->
  raceKept q (length (promises s)) (S (length (promises s)))
    (snd (race (VArr (VPromise q :: rest)) s)).
Proof.
  intros Hq Hwf Hlive. set (p := length (promises s)).
  pose proof (owned_newPromise (raceTimer q p (S p)) s Hwf Hlive) as Ho1.
  fold p in Ho1.
  pose proof (owned_alloc _ _ _ _ Ho1) as Ho2.
  set (s2 := setPromises
               (promises (setPromises (promises s ++ [pendingPromise]) s)
                ++ [pendingPromise])
               (setPromises (promises s ++ [pendingPromise]) s)) in *.
  assert (Hp : settlement s2 p = Some pendingTriple).
  { unfold s2. rewrite settlement_alloc by (cbn; rewrite length_app; cbn; lia).
    apply settlement_new. }
  assert (Eq : promises s2 !! q = promises s !! q).
  { unfold s2. cbn. rewrite !lookup_app_l; [reflexivity|lia|].
    rewrite length_app. cbn. lia. }
  assert (Hrace : snd (race (VArr (VPromise q :: rest)) s)
                  = snd (thenExecutor q (FPass (FResolve p)) (FPass (FReject p))
                           (S p) s2)).
  { unfold race. cbn [isIterable truthy andb]. unfold construct at 1.
    unfold raceExecutor. cbn [lengthOf arrayOf fmap option_fmap option_map length].
    change (elemAt _ (VArr (VPromise q :: rest)) 0) with (VPromise q).
    cbn [testThen truthy callThen]. unfold then_, construct.
    cbn [default].
    replace (length (promises (setPromises (promises s ++ [pendingPromise]) s)))
      with (S p) by (cbn; rewrite length_app; cbn; lia).
    fold p. fold s2.
    destruct (thenExecutor q _ _ (S p) s2) as [[?|?] s3] eqn:E; cbn [snd fst].
    - reflexivity.
    - unfold thenExecutor in E. destruct (statusOf s2 q) as [[]|]; discriminate. }
  rewrite Hrace. unfold thenExecutor, statusOf. rewrite Eq.
  destruct (promises s !! q) as [prq|] eqn:Eprq;
    [|apply lookup_ge_None in Eprq; lia].
  assert (Hm1 : allowed (notId p) anyId (raceTimer q p (S p))
                  (TFulfilled q (FPass (FResolve p)) (S p)))
    by (right; unfold raceTimer; cbn; rewrite !Nat.eqb_refl; reflexivity).
  assert (Hm2 : allowed (notId p) anyId (raceTimer q p (S p))
                  (TRejected q (FPass (FReject p)) (S p)))
    by (right; unfold raceTimer; cbn; rewrite !Nat.eqb_refl; reflexivity).
  cbn [fmap option_fmap option_map].
  destruct (status prq) eqn:Hst; cbn [snd].
  - (* pending: the two callbacks are registered *)
    rewrite register_registeredStore. split.
    + apply owned_register; assumption.
    + unfold adopts. rewrite settlement_registeredStore.
      cbn [registeredStore promises setPromises].
      rewrite list_lookup_alter_eq, Eq. cbn. rewrite Hst.
      split; [exact Hp|]. split; apply in_or_app; right; left; reflexivity.
  - split.
    + apply owned_setTimeout; [exact Hm1| |exact Ho2].
      cbn. unfold statusOf. rewrite Eq. cbn. congruence.
    + unfold adopts. cbn [setTimeout setTimers promises timers].
      rewrite Eq, Hst. right. split; [exact Hp|].
      apply in_or_app. right. left. reflexivity.
  - split.
    + apply owned_setTimeout; [exact Hm2| |exact Ho2].
      cbn. unfold statusOf. rewrite Eq. cbn. congruence.
    + unfold adopts. cbn [setTimeout setTimers promises timers].
      rewrite Eq, Hst. right. split; [exact Hp|].
      apply in_or_app. right. left. reflexivity.
Qed.


(** What the body of a foreign [then] does first, in the call itself. *)
Inductive FirstCall :=
| CallsFulfil (y : Val)
| CallsReject (r : Val)
| Throws (e : Val)
| NoCall.

Fixpoint firstCall (body : Script) : FirstCall :=
  match body with
  | SEnd => NoCall
  | SFulfil y _ => CallsFulfil y
  | SReject r _ => CallsReject r
  | SThrow e => Throws e
  | SLater _ k => firstCall k
  end.

Lemma runScript_keepsSettled body onF onR s :
  keepsSettled s (snd (runScript body onF onR s)).
Proof.
  apply runScript_respects;
    first [ exact keepsSettled_refl | exact keepsSettled_trans
          | exact keepsSettled_alloc
          | intros; eapply keepsSettled_settle; eassumption
          | exact keepsSettled_register
          | intros; apply keepsSettled_same_promises; reflexivity ].
Qed.

Lemma rejectFn_keepsSettled p r s : keepsSettled s (snd (rejectFn p r s)).
Proof.
  apply rejectFn_respects;
    first [ exact keepsSettled_refl | exact keepsSettled_trans
          | intros; eapply keepsSettled_settle; eassumption
          | intros; apply keepsSettled_same_promises; reflexivity ].
Qed.

Lemma settlement_isSettled s p st v r :
  settlement s p = Some (st, v, r) -> st <> STATUS_PENDING -> isSettled s p.
Proof.
  unfold settlement, isSettled. destruct (promises s !! p) as [pr|]; [|discriminate].
  cbn. intros E Hst. exists pr. split; [reflexivity|]. congruence.
Qed.

(** A thenable as first element: its [then] runs inside the executor
    with the two capabilities (wrapped) as arguments. *)
Lemma thenable_executor body p s :
  settlement s p = Some pendingTriple ->
  let r := runScript body (FPass (FResolve p)) (FPass (FReject p)) s in
  match firstCall body with
  | CallsFulfil y =>
      if isPromise y then True
      else settlement (snd r) p = Some (STATUS_FULFILLED, y, VNull)
  | CallsReject e => settlement (snd r) p = Some (STATUS_REJECTED, VNull, e)
  | Throws e => fst r = Thrown e /\ settlement (snd r) p = Some pendingTriple
  | NoCall => fst r = Normal VUndefined /\ settlement (snd r) p = Some pendingTriple
  end.
Proof.
  revert s. induction body; intros s Hp; cbv zeta; cbn [firstCall runScript].
  - auto.
  - destruct (isPromise y) eqn:Hy; [exact I|].
    cbn [applyFn]. rewrite (resolveFn_plain _ _ _ Hy).
    unfold settlement, pendingTriple in Hp.
    destruct (promises s !! p) as [pr|] eqn:E; [|discriminate].
    cbn in Hp. injection Hp as Hst Hv Hr. rewrite Hst. cbv beta iota.
    pose proof (runScript_keepsSettled body (FPass (FResolve p)) (FPass (FReject p))
      (settledStore p (mkPromise STATUS_FULFILLED y (reason pr)
         (onFulfilledCbs pr) (onRejectedCbs pr)) (onFulfilledCbs pr) s) p) as Hk.
    rewrite settlement_settledStore_eq in Hk by (eapply lookup_lt_Some; eauto).
    cbn [status value reason] in Hk. rewrite Hr in Hk |- *. apply Hk.
    eapply settlement_isSettled;
      [ rewrite settlement_settledStore_eq by (eapply lookup_lt_Some; eauto);
        reflexivity
      | discriminate ].
  - cbn [applyFn]. rewrite rejectFn_cases.
    unfold settlement, pendingTriple in Hp.
    destruct (promises s !! p) as [pr|] eqn:E; [|discriminate].
    cbn in Hp. injection Hp as Hst Hv Hr. rewrite Hst. cbv beta iota.
    pose proof (runScript_keepsSettled body (FPass (FResolve p)) (FPass (FReject p))
      (settledStore p (mkPromise STATUS_REJECTED (value pr) r
         (onFulfilledCbs pr) (onRejectedCbs pr)) (onRejectedCbs pr) s) p) as Hk.
    rewrite settlement_settledStore_eq in Hk by (eapply lookup_lt_Some; eauto).
    cbn [status value reason] in Hk. rewrite Hv in Hk |- *. apply Hk.
    eapply settlement_isSettled;
      [ rewrite settlement_settledStore_eq by (eapply lookup_lt_Some; eauto);
        reflexivity
      | discriminate ].
  - auto.
  - apply IHbody2. exact Hp.
Qed.


Definition existing (s : State) (x : Val) : bool :=
  match x with
  | VPromise q => Nat.ltb q (length (promises s))
  | _ => true
  end.

Lemma race_settled_at_once x rest s later st v r :
  st <> STATUS_PENDING ->
  settlement (snd (race (VArr (x :: rest)) s)) (length (promises s))
    = Some (st, v, r) ->
  settlement (performAll later (snd (race (VArr (x :: rest)) s)))
    (length (promises s)) = Some (st, v, r).
Proof.
  intros Hst H. rewrite <- H. apply performAll_keepsSettled.
  eapply settlement_isSettled; eauto.
Qed.

Lemma race_plain x rest s :
  testThen x = NoThen ->
  settlement (snd (race (VArr (x :: rest)) s)) (length (promises s))
  = Some (STATUS_FULFILLED, x, VNull).
Proof.
  intros Hx.
  assert (Hnp : isPromise x = false).
  { destruct x; try reflexivity. cbn in Hx. discriminate. }
  unfold race. cbn [isIterable truthy andb]. unfold construct, raceExecutor.
  cbn [lengthOf arrayOf fmap option_fmap option_map length].
  change (elemAt _ (VArr (x :: rest)) 0) with x. rewrite Hx.
  rewrite (resolveFn_plain _ _ _ Hnp). cbn [promises setPromises].
  rewrite list_lookup_middle by reflexivity. cbn [status pendingPromise snd].
  rewrite settlement_settledStore_eq by (cbn; rewrite length_app; cbn; lia).
  reflexivity.
Qed.

Lemma race_getter_throws c e rest s :
  settlement (snd (race (VArr (VObj c (ThenGetterThrows e) :: rest)) s))
    (length (promises s))
  = Some (STATUS_REJECTED, VNull, e).
Proof.
  unfold race. cbn [isIterable truthy andb]. unfold construct, raceExecutor.
  cbn [lengthOf arrayOf fmap option_fmap option_map length].
  change (elemAt _ (VArr (VObj c (ThenGetterThrows e) :: rest)) 0)
    with (VObj c (ThenGetterThrows e)).
  cbn [testThen truthy snd]. rewrite rejectFn_cases. cbn [promises setPromises].
  rewrite list_lookup_middle by reflexivity. cbn [status pendingPromise snd].
  rewrite settlement_settledStore_eq by (cbn; rewrite length_app; cbn; lia).
  reflexivity.
Qed.

Lemma race_thenable c body rest s :
  let p := length (promises s) in
  let after := snd (race (VArr (VObj c (ThenFunction body) :: rest)) s) in
  match firstCall body with
  | CallsFulfil y =>
      if isPromise y then True
      else settlement after p = Some (STATUS_FULFILLED, y, VNull)
  | CallsReject r => settlement after p = Some (STATUS_REJECTED, VNull, r)
  | Throws e => settlement after p = Some (STATUS_REJECTED, VNull, e)
  | NoCall => settlement after p = Some pendingTriple
  end.
Proof.
  cbv zeta. unfold race. cbn [isIterable truthy andb].
  unfold construct, raceExecutor.
  cbn [lengthOf arrayOf fmap option_fmap option_map length].
  change (elemAt _ (VArr (VObj c (ThenFunction body) :: rest)) 0)
    with (VObj c (ThenFunction body)).
  cbn [testThen truthy callThen].
  pose proof (thenable_executor body (length (promises s)) _ (settlement_new s)) as H.
  cbv zeta in H.
  destruct (runScript body _ _ _) as [o s1]. cbn [fst snd] in H.
  destruct (firstCall body) as [y|r|e|].
  - destruct (isPromise y); [exact I|].
    destruct o; cbn [snd]; [exact H|].
    rewrite (rejectFn_keepsSettled _ _ s1); [exact H|].
    eapply settlement_isSettled; [exact H | discriminate].
  - destruct o; cbn [snd]; [exact H|].
    rewrite (rejectFn_keepsSettled _ _ s1); [exact H|].
    eapply settlement_isSettled; [exact H | discriminate].
  - destruct H as [-> H]. cbn [snd]. rewrite rejectFn_cases.
    unfold settlement, pendingTriple in H.
    destruct (promises s1 !! length (promises s)) as [pr|] eqn:E; [|discriminate].
    cbn in H. injection H as Hst Hv Hr. rewrite Hst. cbn [snd].
    rewrite settlement_settledStore_eq by (eapply lookup_lt_Some; eauto).
    cbn. rewrite Hv. reflexivity.
  - destruct H as [-> H]. exact H.
Qed.




(** ** [all]: counting and the result array *)

Fixpoint countb {A} (f : A -> bool) (l : list A) : nat :=
  match l with
  | [] => 0
  | x :: rest => (if f x then 1 else 0) + countb f rest
  end.

Lemma countb_app {A} (f : A -> bool) l1 l2 :
  countb f (l1 ++ l2) = countb f l1 + countb f l2.
Proof. induction l1 as [|x l1 IH]; cbn; [reflexivity|]. rewrite IH. lia. Qed.

Lemma countb_none {A} (f : A -> bool) l :
  Forall (fun x => f x = false) l -> countb f l = 0.
Proof. induction 1 as [|x l Hx _ IH]; cbn; [reflexivity|]. rewrite Hx, IH. reflexivity. Qed.

Lemma countb_zero {A} (f : A -> bool) l x :
  countb f l = 0 -> In x l -> f x = false.
Proof.
  induction l as [|y l IH]; cbn; [contradiction|].
  intros H [<-|Hin]; [destruct (f y); [discriminate|reflexivity]|].
  apply IH; [|exact Hin]. destruct (f y); [discriminate|exact H].
Qed.

Lemma countb_ext {A} (f g : A -> bool) l :
  Forall (fun x => f x = g x) l -> countb f l = countb g l.
Proof. induction 1 as [|x l Hx _ IH]; cbn; [reflexivity|]. rewrite Hx, IH. reflexivity. Qed.

Lemma countb_le {A} (f : A -> bool) l : countb f l <= length l.
Proof. induction l as [|x l IH]; cbn; [lia|]. destruct (f x); lia. Qed.

Lemma countb_all {A} (f : A -> bool) l x :
  countb f l = length l -> In x l -> f x = true.
Proof.
  induction l as [|y l IH]; cbn; [contradiction|].
  pose proof (countb_le f l) as Hle.
  intros H [<-|Hin]; [destruct (f y); [reflexivity|lia]|].
  apply IH; [|exact Hin]. destruct (f y); lia.
Qed.

(** Turning one [false] into [true] adds one. *)
Lemma countb_seq_flip (f g : nat -> bool) i : forall n a,
  a <= i < a + n -> f i = false -> g i = true ->
  (forall j, j <> i -> g j = f j) ->
  countb g (seq a n) = S (countb f (seq a n)).
Proof.
  induction n as [|n IH]; intros a Hi Hf Hg Hother; [lia|]. cbn [seq countb].
  destruct (decide (a = i)) as [->|Hne].
  - rewrite Hf, Hg. f_equal.
    apply countb_ext, Forall_forall. intros j Hj.
    apply list_elem_of_In, in_seq in Hj. apply Hother. lia.
  - rewrite (Hother a Hne). rewrite (IH (S a)); [lia| lia |assumption..].
Qed.

Lemma length_arraySet arr : forall index v,
  length (arraySet arr index v) = Nat.max (length arr) (S index).
Proof.
  induction arr as [|slot arr IH]; intros index v.
  - induction index as [|index IHi]; cbn; [reflexivity|].
    cbn in IHi. rewrite IHi. reflexivity.
  - destruct index as [|index]; cbn; [lia|]. rewrite IH. lia.
Qed.

Lemma lookup_arraySet_eq arr : forall index v,
  arraySet arr index v !! index = Some (Some v).
Proof.
  induction arr as [|slot arr IH]; intros index v.
  - induction index as [|index IHi]; cbn; [reflexivity | exact IHi].
  - destruct index as [|index]; cbn; [reflexivity | apply IH].
Qed.

(** A slot is filled. *)
Definition filled (arr : list (option Val)) (i : nat) : bool :=
  match arr !! i with Some (Some _) => true | _ => false end.

Lemma lookup_arraySet_ne arr : forall index v j,
  j <> index ->
  arraySet arr index v !! j = arr !! j
  \/ (arr !! j = None /\ arraySet arr index v !! j = Some None).
Proof.
  induction arr as [|slot arr IH]; intros index v j Hj.
  - revert j Hj. induction index as [|index IHi]; intros j Hj.
    + destruct j; [lia|]. left. reflexivity.
    + destruct j as [|j]; cbn; [right; auto|].
      destruct (IHi j) as [H|[H1 H2]]; [lia|left|right]; auto.
  - destruct index as [|index], j as [|j]; cbn; try lia; auto.
Qed.

Lemma filled_arraySet_ne arr index v j :
  j <> index -> filled (arraySet arr index v) j = filled arr j.
Proof.
  intros Hj. unfold filled.
  destruct (lookup_arraySet_ne arr index v j Hj) as [->|[-> ->]]; reflexivity.
Qed.

Lemma filled_arraySet_eq arr index v : filled (arraySet arr index v) index = true.
Proof. unfold filled. rewrite lookup_arraySet_eq. reflexivity. Qed.

Lemma lookup_arraySet_keep arr index v j y :
  j <> index -> arr !! j = Some y -> arraySet arr index v !! j = Some y.
Proof.
  intros Hj E. destruct (lookup_arraySet_ne arr index v j Hj) as [->|[H _]];
    congruence.
Qed.


(** ** [all] over promises of this implementation and plain values *)

Section AllCombinator.

(** [xs] is the input array, [p] the promise that [all] returns and [c]
    its variables [res] and [fulfilledCount]. *)
Variables (xs : list Val) (p c : nat).

(** The elements are promises created before [p], or values on which
    the test [iterator && typeof iterator.then === 'function'] fails. *)
Definition allInput (x : Val) : Prop :=
  match x with
  | VPromise q => q < p
  | _ => testThen x = NoThen
  end.

Hypothesis xs_input : Forall allInput xs.

Definition slotFulfilTimer (i q p3 : nat) : Task :=
  TFulfilled q (FProcessRes c (VArr xs) i (FResolve p)) p3.
Definition slotRejectTimer (q p3 : nat) : Task :=
  TRejected q (FPass (FReject p)) p3.

(** The timers and callbacks that [all] hands to [then]. *)
Definition allTimer (t : Task) : Prop :=
  exists i q p3,
    xs !! i = Some (VPromise q) /\ p3 <> p
    /\ (t = slotFulfilTimer i q p3 \/ t = slotRejectTimer q p3).

(** The closure [value => processRes(i, value)] of slot [i]. *)
Definition isSlotTimer (i : nat) (t : Task) : bool :=
  match t with
  | TFulfilled _ (FProcessRes c' _ i' _) _ => Nat.eqb c' c && Nat.eqb i' i
  | _ => false
  end.

Definition queued (i : nat) (ts : list Task) : nat := countb (isSlotTimer i) ts.
Definition waiting (i : nat) (cbs : list Cb) : nat :=
  countb (isSlotTimer i) (cbTask <$> cbs).

Definition allOwned : State -> Prop := owned (notId p) (notId c) allTimer.

Lemma slotTimer_not_ok i t :
  isSlotTimer i t = true -> taskOk (notId p) (notId c) t = false.
Proof.
  destruct t as [q f p3| |]; cbn; try discriminate.
  destruct f; try discriminate. intros H. apply andb_prop in H as [H _].
  apply Nat.eqb_eq in H as ->. cbn. unfold notId at 1. rewrite Nat.eqb_refl.
  reflexivity.
Qed.

Lemma ok_not_slotTimer i t :
  taskOk (notId p) (notId c) t = true -> isSlotTimer i t = false.
Proof.
  intros H. destruct (isSlotTimer i t) eqn:E; [|reflexivity].
  rewrite (slotTimer_not_ok i t E) in H. discriminate.
Qed.

Lemma isSlotTimer_fulfil i j q p3 :
  isSlotTimer i (slotFulfilTimer j q p3) = Nat.eqb j i.
Proof. cbn. rewrite Nat.eqb_refl. reflexivity. Qed.

Lemma allTimer_slot i t :
  allTimer t -> isSlotTimer i t = true ->
  exists q p3, xs !! i = Some (VPromise q) /\ t = slotFulfilTimer i q p3.
Proof.
  intros (i0 & q0 & p3 & Hx & _ & [-> | ->]) Hs; [|discriminate].
  rewrite isSlotTimer_fulfil in Hs. apply Nat.eqb_eq in Hs as ->.
  exists q0, p3. auto.
Qed.

Lemma input_not_combined i : xs !! i <> Some (VPromise p).
Proof.
  intros E. rewrite Forall_lookup in xs_input.
  specialize (xs_input i _ E). cbn in xs_input. lia.
Qed.

(** The callbacks of a pending promise hold the closure of slot [i]
    only if the promise is the element [i]. *)
Lemma waiting_other s r pr i :
  allOwned s ->
  promises s !! r = Some pr -> status pr = STATUS_PENDING ->
  xs !! i <> Some (VPromise r) ->
  waiting i (onFulfilledCbs pr) = 0.
Proof.
  intros [_ Hwf [_ Hlive]] E Hst Hx.
  destruct (Hlive r pr E Hst) as [Hf _].
  pose proof (wf_onFulfilled _ Hwf r pr E Hst) as Hsf.
  apply countb_none, Forall_fmap.
  rewrite Forall_forall in Hf, Hsf. apply Forall_forall. intros cb Hin.
  destruct (Hsf cb Hin) as (f & p2 & ->). specialize (Hf _ Hin).
  cbn [cbTask compose] in *.
  destruct (isSlotTimer i (TFulfilled r f p2)) eqn:Es; [|reflexivity].
  destruct Hf as [Hok|Hm];
    [rewrite (slotTimer_not_ok _ _ Es) in Hok; discriminate|].
  destruct (allTimer_slot i _ Hm Es) as (q & p3 & Hq & Ht).
  unfold slotFulfilTimer in Ht. congruence.
Qed.

Lemma waiting_rejected s r pr i :
  allOwned s ->
  promises s !! r = Some pr -> status pr = STATUS_PENDING ->
  waiting i (onRejectedCbs pr) = 0.
Proof.
  intros [_ Hwf _] E Hst.
  pose proof (wf_onRejected _ Hwf r pr E Hst) as Hsr.
  apply countb_none, Forall_fmap.
  eapply Forall_impl; [exact Hsr|]. intros cb (g & p2 & ->). reflexivity.
Qed.

(** What the array [res], the element [x] of slot [i] (as found in the
    store: [look]) and the number [nq] of queued timers of the slot say,
    once the loop has dealt with the slot ([started]) and before. *)
Definition slotInv (started : bool) (arr : list (option Val)) (i : nat)
    (x : Val) (look : option PromiseImpl) (nq : nat) : Prop :=
  match x with
  | VPromise _ =>
      match look with
      | Some prq =>
          if started then
            match status prq with
            | STATUS_PENDING =>
                filled arr i = false
                /\ waiting i (onFulfilledCbs prq) = 1 /\ nq = 0
            | STATUS_FULFILLED =>
                (filled arr i = false /\ nq = 1)
                \/ (arr !! i = Some (Some (value prq)) /\ nq = 0)
            | STATUS_REJECTED => filled arr i = false /\ nq = 0
            end
          else
            filled arr i = false /\ nq = 0
            /\ (status prq = STATUS_PENDING ->
                waiting i (onFulfilledCbs prq) = 0)
      | None => False
      end
  | _ => if started then arr !! i = Some (Some x) else filled arr i = false
  end.

Definition inputPromise (s : State) (x : Val) : option PromiseImpl :=
  match x with VPromise q => promises s !! q | _ => None end.

Definition slotAt (k : nat) (vars : AllVars) (s : State) (i : nat) (x : Val)
  : Prop :=
  slotInv (Nat.ltb i k) (res vars) i x (inputPromise s x)
          (queued i (timers s)).

(** What they say of the promise returned. *)
Definition combined (vars : AllVars) (s : State) : Prop :=
  match settlement s p with
  | Some (STATUS_PENDING, _, _) => fulfilledCount vars < length xs
  | Some (STATUS_FULFILLED, v, _) =>
      v = VRes c /\ fulfilledCount vars = length xs
  | Some (STATUS_REJECTED, _, r) =>
      exists i q prq,
        xs !! i = Some (VPromise q) /\ promises s !! q = Some prq
        /\ status prq = STATUS_REJECTED /\ r = reason prq
  | None => False
  end.

(** The invariant of a call of [all], when the loop is at index [k]. *)
Definition allInvK (k : nat) (s : State) : Prop :=
  exists vars,
    allVars s !! c = Some vars
    /\ length (res vars) <= length xs
    /\ fulfilledCount vars = countb (filled (res vars)) (seq 0 (length xs))
    /\ (forall i x, xs !! i = Some x -> slotAt k vars s i x)
    /\ combined vars s.

Lemma slotInv_look b arr i x look look' nq nq' :
  (look <> None -> look' = look) -> nq' = nq ->
  slotInv b arr i x look nq -> slotInv b arr i x look' nq'.
Proof.
  intros Hl ->. unfold slotInv. destruct x; trivial.
  destruct look; [|contradiction]. rewrite Hl by discriminate. trivial.
Qed.

Lemma allInvK_transfer k s s' :
  allVars s' !! c = allVars s !! c ->
  (forall vars i x, xs !! i = Some x -> slotAt k vars s i x -> slotAt k vars s' i x) ->
  (forall vars, combined vars s -> combined vars s') ->
  allInvK k s -> allInvK k s'.
Proof.
  intros Ec Hslot Hcomb (vars & H1 & H2 & H3 & H4 & H5).
  exists vars. rewrite Ec. repeat split; auto.
Qed.

Lemma combined_same vars s s' :
  settlement s' p = settlement s p ->
  (forall q prq, promises s !! q = Some prq -> status prq = STATUS_REJECTED ->
                 promises s' !! q = Some prq) ->
  combined vars s -> combined vars s'.
Proof.
  intros Hp Hq. unfold combined. rewrite Hp.
  destruct (settlement s p) as [[[[] v] r]|]; trivial.
  intros (i & q & prq & H1 & H2 & H3 & H4). exists i, q, prq. auto.
Qed.

Lemma allInvK_same k s s' :
  promises s' = promises s -> timers s' = timers s ->
  allVars s' !! c = allVars s !! c ->
  allInvK k s -> allInvK k s'.
Proof.
  intros Ep Et Ec. apply allInvK_transfer; [exact Ec| |].
  - intros vars i x _. unfold slotAt, inputPromise. rewrite Ep, Et. trivial.
  - intros vars. apply combined_same.
    + unfold settlement. rewrite Ep. reflexivity.
    + rewrite Ep. trivial.
Qed.

Lemma allInvK_cell k s : allInvK k s -> c < length (allVars s).
Proof. intros (vars & H & _). eapply lookup_lt_Some; eauto. Qed.

Lemma allInvK_settlement k s : allInvK k s -> exists x, settlement s p = Some x.
Proof.
  intros (vars & _ & _ & _ & _ & H). unfold combined in H.
  destruct (settlement s p); [eauto|contradiction].
Qed.

Lemma allInvK_setTimeout k t s :
  (forall i, isSlotTimer i t = false) -> allInvK k s -> allInvK k (setTimeout t s).
Proof.
  intros Hok. apply allInvK_transfer; [reflexivity| |].
  - intros vars i x _. apply slotInv_look; [reflexivity|].
    unfold queued. cbn. rewrite countb_app. cbn. rewrite Hok. lia.
  - intros vars. apply combined_same; [reflexivity | trivial].
Qed.

Lemma allInvK_pop k t rest s :
  timers s = t :: rest -> (forall i, isSlotTimer i t = false) ->
  allInvK k s -> allInvK k (setTimers rest s).
Proof.
  intros E Hok. apply allInvK_transfer; [reflexivity| |].
  - intros vars i x _. apply slotInv_look; [reflexivity|].
    unfold queued. cbn. rewrite E. cbn. rewrite Hok. reflexivity.
  - intros vars. apply combined_same; [reflexivity | trivial].
Qed.

Lemma inputPromise_alloc s x :
  inputPromise s x <> None ->
  inputPromise (setPromises (promises s ++ [pendingPromise]) s) x
  = inputPromise s x.
Proof.
  destruct x; cbn; try reflexivity. intros H.
  destruct (promises s !! p0) eqn:E; [|contradiction].
  apply lookup_app_l_Some. exact E.
Qed.

Lemma allInvK_alloc k s :
  allInvK k s -> allInvK k (setPromises (promises s ++ [pendingPromise]) s).
Proof.
  intros H. destruct (allInvK_settlement k s H) as [y Hy].
  revert H. apply allInvK_transfer; [reflexivity| |].
  - intros vars i x _. apply slotInv_look; [|reflexivity].
    apply inputPromise_alloc.
  - intros vars. apply combined_same.
    + apply settlement_alloc. eapply settlement_lt; eauto.
    + intros q prq E _. cbn. apply lookup_app_l_Some. exact E.
Qed.

Lemma combined_registeredStore vars this tf tr s :
  combined vars s -> combined vars (registeredStore this tf tr s).
Proof.
  unfold combined. rewrite settlement_registeredStore.
  destruct (settlement s p) as [[[[] v] r]|]; trivial.
  intros (i & q & prq & H1 & H2 & H3 & H4).
  cbn [registeredStore promises setPromises].
  destruct (decide (this = q)) as [->|Hne].
  - eexists i, q, _. rewrite list_lookup_alter_eq, H2. cbn.
    split; [exact H1|]. split; [reflexivity|]. cbn. auto.
  - exists i, q, prq. rewrite list_lookup_alter_ne by exact Hne. auto.
Qed.

(** Registering callbacks, of which the first is the closure of the
    slots [mark]. *)
Lemma slotInv_register b arr i q this tf tr s nq (mark : bool) :
  isSlotTimer i tf = mark ->
  slotInv b arr i (VPromise q) (promises s !! q) nq ->
  match promises (registeredStore this tf tr s) !! q with
  | Some prq' =>
      exists prq, promises s !! q = Some prq
        /\ status prq' = status prq /\ value prq' = value prq
        /\ waiting i (onFulfilledCbs prq')
           = waiting i (onFulfilledCbs prq)
             + (if decide (this = q) then if mark then 1 else 0 else 0)
  | None => False
  end.
Proof.
  intros Hm. cbn [slotInv registeredStore promises setPromises].
  destruct (promises s !! q) as [prq|] eqn:E; [|contradiction]. intros _.
  destruct (decide (this = q)) as [->|Hne].
  - rewrite list_lookup_alter_eq, E. cbn. exists prq.
    repeat split. unfold waiting. rewrite fmap_app, countb_app. cbn.
    rewrite Hm. destruct mark; reflexivity.
  - rewrite list_lookup_alter_ne, E by exact Hne. exists prq.
    repeat split. lia.
Qed.

Lemma allInvK_register k s this f g promise2 :
  fnOk (notId p) (notId c) f = true ->
  allInvK k s ->
  allInvK k (registeredStore this (TFulfilled this f promise2)
               (TRejected this g promise2) s).
Proof.
  intros Hf. apply allInvK_transfer; [reflexivity| |].
  - intros vars i x _. unfold slotAt. destruct x; trivial. intros H.
    assert (Hm : isSlotTimer i (TFulfilled this f promise2) = false).
    { destruct f; try reflexivity. cbn in Hf |- *.
      apply andb_prop in Hf as [Hc _]. apply notId_true in Hc.
      apply Nat.eqb_neq in Hc. rewrite Hc. reflexivity. }
    pose proof (slotInv_register _ _ _ _ this _
                  (TRejected this g promise2) _ _ _ Hm H) as Hr.
    cbn [inputPromise slotInv] in H |- *.
    change (timers (registeredStore this (TFulfilled this f promise2)
                      (TRejected this g promise2) s)) with (timers s).
    destruct (promises (registeredStore _ _ _ s) !! p0) as [prq'|];
      [|contradiction].
    destruct Hr as (prq & E & Hst & Hv & Hw). rewrite E in H.
    rewrite Hst, Hv, Hw.
    replace (if decide (this = p0) then 0 else 0) with 0
      by (destruct (decide (this = p0)); reflexivity).
    rewrite Nat.add_0_r. exact H.
  - intros vars. apply combined_registeredStore.
Qed.

Lemma combined_settledStore vars s r pr st v rr fns :
  r <> p -> promises s !! r = Some pr -> status pr = STATUS_PENDING ->
  combined vars s ->
  combined vars
    (settledStore r (mkPromise st v rr (onFulfilledCbs pr) (onRejectedCbs pr))
       fns s).
Proof.
  intros Hr E Hst. unfold combined. rewrite settlement_settledStore by exact Hr.
  destruct (settlement s p) as [[[[] v0] r0]|]; trivial.
  intros (i & q & prq & H1 & H2 & H3 & H4). exists i, q, prq.
  rewrite promises_settledStore.
  rewrite list_lookup_insert_ne by congruence. auto.
Qed.

Lemma allInvK_settle k s r pr st v rr fns :
  r <> p ->
  promises s !! r = Some pr -> status pr = STATUS_PENDING ->
  (st = STATUS_FULFILLED /\ fns = onFulfilledCbs pr
   \/ st = STATUS_REJECTED /\ fns = onRejectedCbs pr) ->
  allOwned s -> allInvK k s ->
  allInvK k
    (settledStore r (mkPromise st v rr (onFulfilledCbs pr) (onRejectedCbs pr))
       fns s).
Proof.
  intros Hr E Hst Hcase Ho.
  assert (Hlt : r < length (promises s)) by (eapply lookup_lt_Some; eauto).
  apply allInvK_transfer; [reflexivity| |].
  - intros vars i x Hx. unfold slotAt. destruct x; trivial.
    cbn [inputPromise]. rewrite promises_settledStore, timers_settledStore.
    unfold queued. rewrite countb_app. fold (queued i (timers s)).
    fold (waiting i fns).
    destruct (decide (r = p0)) as [<-|Hne].
    + rewrite list_lookup_insert_eq by exact Hlt. rewrite E.
      pose proof (waiting_rejected s r pr i Ho E Hst) as Hwr.
      destruct (Nat.ltb i k);
        cbn [slotInv status value onFulfilledCbs onRejectedCbs]; rewrite Hst.
      * intros (H1 & H2 & H3).
        destruct Hcase as [[-> ->]|[-> ->]]; [left|]; split; auto; lia.
      * intros (H1 & H2 & H3). specialize (H3 eq_refl).
        destruct Hcase as [[-> ->]|[-> ->]];
          (split; [exact H1|]); (split; [lia|discriminate]).
    + rewrite list_lookup_insert_ne by exact Hne.
      assert (Hw : waiting i fns = 0).
      { destruct Hcase as [[_ ->]|[_ ->]].
        - eapply waiting_other; eauto. congruence.
        - eapply waiting_rejected; eauto. }
      rewrite Hw, Nat.add_0_r. trivial.
  - intros vars. apply combined_settledStore; assumption.
Qed.

(** *** The elementary updates, as the calls of allowed closures make them *)

Definition allKept (k : nat) : State -> Prop :=
  kept (notId p) (notId c) allTimer (allInvK k).

Lemma allExtra_calledVars k cs s : allInvK k s -> allInvK k (setCalledVars cs s).
Proof. apply allInvK_same; reflexivity. Qed.

Lemma allExtra_handlerLog k l s : allInvK k s -> allInvK k (setHandlerLog l s).
Proof. apply allInvK_same; reflexivity. Qed.

Lemma allExtra_allocVars k s :
  allOwned s -> allInvK k s ->
  allInvK k (setAllVars (allVars s ++ [mkAllVars [] 0]) s).
Proof.
  intros _ H. pose proof (allInvK_cell k s H) as Hc. revert H.
  apply allInvK_same; try reflexivity. cbn. apply lookup_app_l. exact Hc.
Qed.

Lemma allExtra_setVars k s c' vars vars' :
  notId c c' = true -> allVars s !! c' = Some vars -> allOwned s ->
  allInvK k s -> allInvK k (setAllVars (<[c' := vars']> (allVars s)) s).
Proof.
  intros Hc _ _. apply notId_true in Hc.
  apply allInvK_same; try reflexivity. cbn.
  apply list_lookup_insert_ne. exact Hc.
Qed.

Lemma allExtra_setTimeout k t s :
  taskOk (notId p) (notId c) t = true -> timerReady s t -> allOwned s ->
  allInvK k s -> allInvK k (setTimeout t s).
Proof.
  intros Hok _ _. apply allInvK_setTimeout. intros i.
  apply ok_not_slotTimer. exact Hok.
Qed.

Lemma allExtra_alloc k s :
  allOwned s -> allInvK k s ->
  allInvK k (setPromises (promises s ++ [pendingPromise]) s).
Proof. intros _. apply allInvK_alloc. Qed.

Lemma allExtra_settle k s r pr st v rr fns :
  notId p r = true ->
  promises s !! r = Some pr -> status pr = STATUS_PENDING ->
  (st = STATUS_FULFILLED /\ isPromise v = false /\ rr = reason pr
     /\ fns = onFulfilledCbs pr
   \/ st = STATUS_REJECTED /\ v = value pr /\ fns = onRejectedCbs pr) ->
  allOwned s -> allInvK k s ->
  allInvK k
    (settledStore r (mkPromise st v rr (onFulfilledCbs pr) (onRejectedCbs pr))
       fns s).
Proof.
  intros Hr E Hst Hcase. apply notId_true in Hr.
  apply allInvK_settle; try assumption.
  destruct Hcase as [(H1 & _ & _ & H2)|(H1 & _ & H2)]; auto.
Qed.

Lemma allExtra_register k s this f g promise2 :
  fnOk (notId p) (notId c) f = true -> fnOk (notId p) (notId c) g = true ->
  notId p promise2 = true ->
  statusOf s this = Some STATUS_PENDING -> allOwned s -> allInvK k s ->
  allInvK k (registeredStore this (TFulfilled this f promise2)
               (TRejected this g promise2) s).
Proof. intros Hf _ _ _ _. apply allInvK_register. exact Hf. Qed.

Lemma allExtra_pop k t rest s :
  timers s = t :: rest -> taskOk (notId p) (notId c) t = true -> allOwned s ->
  allInvK k s -> allInvK k (setTimers rest s).
Proof.
  intros E Hok _. apply (allInvK_pop k t); [exact E|]. intros i.
  apply ok_not_slotTimer. exact Hok.
Qed.

Ltac all_extra :=
  first [ exact (allExtra_calledVars _) | exact (allExtra_handlerLog _)
        | exact (allExtra_allocVars _) | exact (allExtra_setVars _)
        | exact (allExtra_setTimeout _) | exact (allExtra_alloc _)
        | exact (allExtra_settle _) | exact (allExtra_register _)
        | exact (allExtra_pop _) ].

Lemma all_prp_kept k promise p3 x s :
  p3 <> p -> allKept k s ->
  allKept k (snd (promiseResolutionProcedure promise x (FResolve p3) (FReject p3) s)).
Proof using xs_input.
  intros Hp3.
  apply (promiseResolutionProcedure_kept (notId p) (notId c) allTimer (allInvK k));
    try all_extra; apply notId_true; exact Hp3.
Qed.

Lemma all_rejectFn_kept k p3 r s :
  p3 <> p -> allKept k s -> allKept k (snd (rejectFn p3 r s)).
Proof using xs_input.
  intros Hp3.
  apply (rejectFn_kept (notId p) (notId c) allTimer (allInvK k));
    try all_extra; apply notId_true; exact Hp3.
Qed.

(** The rest of a timer of [then] for [p3], after the handler returned. *)
Lemma all_timer_rest k p3 s (x : Val) :
  p3 <> p -> allKept k s ->
  allKept k
    match promiseResolutionProcedure p3 x (FResolve p3) (FReject p3) s with
    | (Normal _, s2) => s2
    | (Thrown e, s2) => snd (rejectFn p3 e s2)
    end.
Proof using xs_input.
  intros Hp3 HK. pose proof (all_prp_kept k p3 p3 x s Hp3 HK) as H.
  destruct (promiseResolutionProcedure _ _ _ _ _) as [[?|e] s2]; cbn [snd] in H;
    [exact H | apply all_rejectFn_kept; assumption].
Qed.

(** *** [processRes] *)

Lemma countb_unfilled (f : nat -> bool) i n :
  i < n -> f i = false -> countb f (seq 0 n) < n.
Proof.
  intros Hi Hf. pose proof (countb_le f (seq 0 n)) as Hle.
  rewrite length_seq in Hle.
  destruct (decide (countb f (seq 0 n) = n)) as [E|]; [|lia].
  rewrite (countb_all f (seq 0 n) i) in Hf; [discriminate| |].
  - rewrite length_seq. exact E.
  - apply in_seq. lia.
Qed.

Lemma slotInv_arraySet_ne b arr i v j x look nq :
  j <> i -> slotInv b arr j x look nq ->
  slotInv b (arraySet arr i v) j x look nq.
Proof.
  intros Hj. unfold slotInv.
  assert (Hk : forall y, arr !! j = Some y -> arraySet arr i v !! j = Some y)
    by (intros y; apply lookup_arraySet_keep; exact Hj).
  rewrite (filled_arraySet_ne arr i v j Hj).
  destruct x; try (destruct b; auto);
    destruct look as [prq|]; auto; destruct (status prq); intuition auto.
Qed.

(** Slot [i], not filled so far, receives [v]. *)
Lemma processRes_slot i v s vars :
  i < length xs ->
  allOwned s ->
  allVars s !! c = Some vars ->
  length (res vars) <= length xs ->
  fulfilledCount vars = countb (filled (res vars)) (seq 0 (length xs)) ->
  filled (res vars) i = false ->
  combined vars s ->
  let r := processRes (resolveFn p) c (VArr xs) i v s in
  fst r = Normal VUndefined
  /\ allOwned (snd r)
  /\ (forall q, q <> p -> promises (snd r) !! q = promises s !! q)
  /\ (forall j, queued j (timers (snd r)) = queued j (timers s))
  /\ exists vars',
       allVars (snd r) !! c = Some vars'
       /\ res vars' = arraySet (res vars) i v
       /\ length (res vars') <= length xs
       /\ fulfilledCount vars'
          = countb (filled (res vars')) (seq 0 (length xs))
       /\ combined vars' (snd r).
Proof using xs_input.
  intros Hi Ho Ec Hlen Hcount Hfill Hcomb.
  assert (Hc : c < length (allVars s)) by (eapply lookup_lt_Some; eauto).
  pose proof (countb_unfilled _ i _ Hi Hfill) as Hlt. rewrite <- Hcount in Hlt.
  set (vars' := mkAllVars (arraySet (res vars) i v) (S (fulfilledCount vars))).
  set (s1 := setAllVars (<[c := vars']> (allVars s)) s).
  assert (Ho1 : allOwned s1).
  { eapply owned_same; [| | |exact Ho]; cbn; rewrite ?length_insert; auto. }
  assert (Ec1 : allVars s1 !! c = Some vars')
    by (cbn; apply list_lookup_insert_eq; exact Hc).
  assert (Hlen' : length (res vars') <= length xs)
    by (cbn; rewrite length_arraySet; lia).
  assert (Hcount' : fulfilledCount vars'
                    = countb (filled (res vars')) (seq 0 (length xs))).
  { cbn. rewrite Hcount. symmetry. apply (countb_seq_flip _ _ i).
    - lia.
    - exact Hfill.
    - apply filled_arraySet_eq.
    - intros j Hj. apply filled_arraySet_ne. exact Hj. }
  assert (Hle : fulfilledCount vars' <= length xs).
  { rewrite Hcount'. pose proof (countb_le (filled (res vars')) (seq 0 (length xs))) as H.
    rewrite length_seq in H. exact H. }
  assert (Hcomb1 : fulfilledCount vars' <> length xs -> combined vars' s1).
  { intros Hne. unfold combined in *.
    change (settlement s1 p) with (settlement s p).
    destruct (settlement s p) as [[[[] v0] r0]|]; [lia|lia|exact Hcomb|exact Hcomb]. }
  intros r. subst r. unfold processRes. rewrite Ec. fold vars'. fold s1.
  cbv zeta. change (lengthOf s1 (VArr xs)) with (Some (length xs)).
  case_bool_decide as Hfull.
  - injection Hfull as Hfull.
    rewrite resolveFn_plain by reflexivity.
    change (promises s1) with (promises s).
    unfold combined, settlement in Hcomb.
    destruct (promises s !! p) as [prp|] eqn:Ep; [|contradiction].
    cbn in Hcomb.
    destruct (status prp) eqn:Hsp; cbn [fst snd].
    + split; [reflexivity|]. split.
      { apply owned_settle; auto. }
      split.
      { intros q Hq. rewrite promises_settledStore.
        apply list_lookup_insert_ne. congruence. }
      split.
      { intros j. rewrite timers_settledStore. unfold queued.
        rewrite countb_app. fold (waiting j (onFulfilledCbs prp)).
        rewrite (waiting_other s p prp j Ho Ep Hsp (input_not_combined j)).
        cbn. lia. }
      exists vars'. repeat split; try assumption.
      unfold combined.
      rewrite settlement_settledStore_eq by (eapply lookup_lt_Some; eauto).
      cbn. auto.
    + lia.
    + split; [reflexivity|]. split; [exact Ho1|]. split; [reflexivity|].
      split; [reflexivity|]. exists vars'. repeat split; try assumption.
      unfold combined, settlement. change (promises s1) with (promises s).
      rewrite Ep. cbn. rewrite Hsp. exact Hcomb.
  - cbn [fst snd]. split; [reflexivity|]. split; [exact Ho1|].
    split; [reflexivity|]. split; [reflexivity|].
    exists vars'. repeat split; try assumption. apply Hcomb1. congruence.
Qed.

(** *** The timers of [all] *)

Lemma slotAt_settle_combined k vars s pr' fns i x :
  xs !! i = Some x -> waiting i fns = 0 ->
  slotAt k vars s i x -> slotAt k vars (settledStore p pr' fns s) i x.
Proof using xs_input.
  intros Hx Hw. apply slotInv_look.
  - intros _. destruct x; try reflexivity. cbn [inputPromise].
    rewrite promises_settledStore. apply list_lookup_insert_ne.
    intros <-. exact (input_not_combined i Hx).
  - rewrite timers_settledStore. unfold queued. rewrite countb_app.
    fold (waiting i fns). lia.
Qed.

(** [reject] of the promise returned, called with the reason of an
    element that is rejected. *)
Lemma reject_combined_kept k i q prq s :
  xs !! i = Some (VPromise q) ->
  promises s !! q = Some prq -> status prq = STATUS_REJECTED ->
  allKept k s -> allKept k (snd (rejectFn p (reason prq) s)).
Proof using xs_input.
  intros Hx Eq Hst [Ho HI]. rewrite rejectFn_cases.
  destruct (allInvK_settlement k s HI) as [y Hy]. unfold settlement in Hy.
  destruct (promises s !! p) as [prp|] eqn:Ep; [|discriminate]. clear y Hy.
  destruct (status prp) eqn:Hsp; cbn [snd]; try (split; assumption).
  split; [apply owned_settle; auto|].
  destruct HI as (vars & Ec & Hlen & Hcount & Hslots & Hcomb).
  exists vars. repeat split; try assumption.
  - intros j x Hxj. apply slotAt_settle_combined; [exact Hxj| |auto].
    eapply waiting_rejected; eauto.
  - unfold combined.
    rewrite settlement_settledStore_eq by (eapply lookup_lt_Some; eauto).
    cbn -[settledStore]. exists i, q, prq. rewrite promises_settledStore.
    rewrite list_lookup_insert_ne; [auto|].
    intros <-. exact (input_not_combined i Hx).
Qed.

Lemma timer_head_ready t rest s :
  timers s = t :: rest -> allOwned s -> timerReady s t.
Proof.
  intros Et Ho. pose proof (wf_timers _ (owned_wf _ _ _ _ Ho)) as Hr.
  rewrite Et in Hr. inversion Hr; subst; assumption.
Qed.

Lemma slotRejectTimer_runs k i q p3 rest s :
  xs !! i = Some (VPromise q) -> p3 <> p ->
  timers s = slotRejectTimer q p3 :: rest ->
  allKept k s -> allKept k (runTask (slotRejectTimer q p3) (setTimers rest s)).
Proof using xs_input.
  intros Hx Hp3 Et [Ho HI].
  pose proof (timer_head_ready _ _ _ Et Ho) as Hready.
  cbn in Hready. unfold statusOf in Hready.
  destruct (promises s !! q) as [prq|] eqn:Eq; [|discriminate].
  cbn in Hready. injection Hready as Hst.
  unfold slotRejectTimer. cbn [runTask setTimers promises]. rewrite Eq.
  unfold handlerBody. cbn [applyFn].
  set (sL := logHandler _ (setTimers rest s)).
  assert (HK : allKept k sL).
  { split.
    - eapply owned_same; [| | |eapply owned_pop; eauto]; reflexivity.
    - apply allExtra_handlerLog. eapply allInvK_pop; eauto. }
  pose proof (reject_combined_kept k i q prq sL Hx Eq Hst HK) as HK2.
  pose proof (rejectFn_normal p (reason prq) sL) as Hn.
  destruct (rejectFn p (reason prq) sL) as [o s2]. cbn in Hn, HK2. subst o.
  apply all_timer_rest; assumption.
Qed.

Lemma slotFulfilTimer_runs i q p3 rest s :
  xs !! i = Some (VPromise q) -> p3 <> p ->
  timers s = slotFulfilTimer i q p3 :: rest ->
  allKept (length xs) s ->
  allKept (length xs) (runTask (slotFulfilTimer i q p3) (setTimers rest s)).
Proof using xs_input.
  intros Hx Hp3 Et [Ho (vars & Ec & Hlen & Hcount & Hslots & Hcomb)].
  pose proof (timer_head_ready _ _ _ Et Ho) as Hready.
  cbn in Hready. unfold statusOf in Hready.
  destruct (promises s !! q) as [prq|] eqn:Eq; [|discriminate].
  cbn in Hready. injection Hready as Hst.
  assert (Hi : i < length xs) by (eapply lookup_lt_Some; eauto).
  pose proof (Hslots i _ Hx) as Hsi. unfold slotAt in Hsi.
  cbn [inputPromise slotInv] in Hsi.
  rewrite Eq, (proj2 (Nat.ltb_lt _ _) Hi), Hst, Et in Hsi.
  unfold queued in Hsi. cbn [countb] in Hsi.
  rewrite isSlotTimer_fulfil, Nat.eqb_refl in Hsi.
  destruct Hsi as [[Hfill Hq]|[_ Hq]]; [|lia].
  unfold slotFulfilTimer. cbn [runTask setTimers promises]. rewrite Eq.
  unfold handlerBody. cbn [applyFn].
  set (sL := logHandler _ (setTimers rest s)).
  assert (HoL : allOwned sL).
  { eapply owned_same; [| | |eapply owned_pop; eauto]; reflexivity. }
  assert (HcombL : combined vars sL).
  { revert Hcomb. apply combined_same; [reflexivity | trivial]. }
  destruct (processRes_slot i (value prq) sL vars Hi HoL Ec Hlen Hcount Hfill HcombL)
    as (Hfst & Ho2 & Hprom & Hqueue & vars' & Ec' & Hres & Hlen' & Hcount' & Hcomb').
  destruct (processRes (resolveFn p) c (VArr xs) i (value prq) sL) as [o s2].
  cbn [fst snd] in *. subst o.
  apply all_timer_rest; [exact Hp3|]. split; [exact Ho2|].
  exists vars'. repeat split; try assumption.
  intros j x Hxj. pose proof (Hslots j x Hxj) as Hj. unfold slotAt in *.
  rewrite Hres, Hqueue. change (timers sL) with rest.
  assert (Hlook : inputPromise s2 x = inputPromise s x).
  { destruct x; try reflexivity. cbn [inputPromise]. rewrite Hprom; [reflexivity|].
    intros ->. exact (input_not_combined j Hxj). }
  rewrite Hlook.
  destruct (decide (j = i)) as [->|Hne].
  - rewrite Hx in Hxj. injection Hxj as <-. cbn [inputPromise slotInv].
    rewrite Eq, (proj2 (Nat.ltb_lt _ _) Hi), Hst. right.
    split; [apply lookup_arraySet_eq | unfold queued; lia].
  - apply slotInv_arraySet_ne; [exact Hne|]. revert Hj.
    apply slotInv_look; [reflexivity|].
    rewrite Et. unfold queued. cbn [countb]. rewrite isSlotTimer_fulfil.
    destruct (Nat.eqb_spec i j); [congruence|reflexivity].
Qed.

Lemma allTimer_runs t rest s :
  timers s = t :: rest -> allTimer t ->
  allKept (length xs) s -> allKept (length xs) (runTask t (setTimers rest s)).
Proof using xs_input.
  intros Et (i & q & p3 & Hx & Hp3 & [-> | ->]) HK.
  - eapply slotFulfilTimer_runs; eauto.
  - eapply slotRejectTimer_runs; eauto.
Qed.

Lemma all_performAll_kept later s :
  forallb (actionOk (notId p) (notId c)) later = true ->
  allKept (length xs) s -> allKept (length xs) (performAll later s).
Proof using xs_input.
  apply (performAll_kept (notId p) (notId c) allTimer (allInvK (length xs)));
    try all_extra.
  intros; eapply allTimer_runs; eauto.
Qed.

(** *** The loop of [all] *)

Lemma slotAt_frontier k j vars s x :
  j <> k -> slotAt k vars s j x -> slotAt (S k) vars s j x.
Proof.
  intros Hj. unfold slotAt.
  replace (Nat.ltb j (S k)) with (Nat.ltb j k); [trivial|].
  destruct (Nat.ltb_spec j k), (Nat.ltb_spec j (S k)); auto; lia.
Qed.

Lemma allInvK_advance k s s' :
  allVars s' !! c = allVars s !! c ->
  (forall vars j x, xs !! j = Some x -> j <> k ->
                    slotAt k vars s j x -> slotAt k vars s' j x) ->
  (forall vars x, xs !! k = Some x ->
     slotInv false (res vars) k x (inputPromise s x) (queued k (timers s)) ->
     slotInv true (res vars) k x (inputPromise s' x) (queued k (timers s'))) ->
  (forall vars, combined vars s -> combined vars s') ->
  allInvK k s -> allInvK (S k) s'.
Proof.
  intros Ec Hother Hthis Hcomb (vars & H1 & H2 & H3 & H4 & H5).
  exists vars. rewrite Ec. repeat split; auto.
  intros j x Hx. destruct (decide (j = k)) as [->|Hne].
  - specialize (H4 k x Hx). unfold slotAt in *.
    rewrite Nat.ltb_irrefl in H4.
    rewrite (proj2 (Nat.ltb_lt k (S k))) by lia. auto.
  - apply slotAt_frontier; auto.
Qed.

Lemma slotAt_register k vars i x this tf tr s :
  isSlotTimer i tf = false ->
  slotAt k vars s i x -> slotAt k vars (registeredStore this tf tr s) i x.
Proof.
  intros Hm. unfold slotAt. destruct x; trivial. intros H.
  pose proof (slotInv_register _ _ _ _ this _ tr _ _ _ Hm H) as Hr.
  cbn [inputPromise slotInv] in H |- *.
  change (timers (registeredStore this tf tr s)) with (timers s).
  destruct (promises (registeredStore _ _ _ s) !! p0) as [prq'|];
    [|contradiction].
  destruct Hr as (prq & E & Hst & Hv & Hw). rewrite E in H.
  rewrite Hst, Hv, Hw.
  replace (if decide (this = p0) then 0 else 0) with 0
    by (destruct (decide (this = p0)); reflexivity).
  rewrite Nat.add_0_r. exact H.
Qed.

Lemma allInvK_lt k s : allInvK k s -> p < length (promises s).
Proof.
  intros H. destruct (allInvK_settlement k s H) as [y Hy].
  eapply settlement_lt; eauto.
Qed.

(** The element [k] is a promise [q]: [q.then(value => processRes(k,
    value), reason => reject(reason))]. *)
Lemma all_then_step k q s :
  xs !! k = Some (VPromise q) -> allKept k s ->
  allKept (S k)
    (snd (then_ q (Some (FProcessRes c (VArr xs) k (FResolve p)))
            (Some (FPass (FReject p))) s)).
Proof using xs_input.
  intros Hx [Ho HI].
  pose proof (allInvK_lt k s HI) as Hp.
  set (p3 := length (promises s)).
  assert (Hp3 : p3 <> p) by (unfold p3; lia).
  set (s1 := setPromises (promises s ++ [pendingPromise]) s).
  assert (Ho1 : allOwned s1) by (apply owned_alloc; exact Ho).
  assert (HI1 : allInvK k s1) by (apply allInvK_alloc; exact HI).
  assert (Hsk : slotAt k (default (mkAllVars [] 0) (allVars s1 !! c)) s1 k (VPromise q)).
  { destruct HI1 as (vars & -> & _ & _ & Hslots & _). cbn [default]. auto. }
  unfold slotAt in Hsk. rewrite Nat.ltb_irrefl in Hsk.
  cbn [inputPromise slotInv] in Hsk.
  destruct (promises s1 !! q) as [prq|] eqn:Eq; [|contradiction].
  destruct Hsk as (_ & Hq0 & Hw0).
  assert (HtF : allTimer (slotFulfilTimer k q p3))
    by (exists k, q, p3; auto).
  assert (HtR : allTimer (slotRejectTimer q p3))
    by (exists k, q, p3; auto).
  unfold then_, construct. cbn [default from_option id]. fold s1. fold p3.
  unfold thenExecutor, statusOf. rewrite Eq. cbn [fmap option_fmap option_map].
  destruct (status prq) eqn:Hst; cbn [snd].
  - (* pending: the callbacks are registered *)
    rewrite register_registeredStore.
    fold (slotFulfilTimer k q p3). fold (slotRejectTimer q p3). split.
    + apply owned_register; [right; exact HtF | right; exact HtR | exact Ho1].
    + revert HI1. apply allInvK_advance; [reflexivity| | |].
      * intros vars j x _ Hj. apply slotAt_register.
        rewrite isSlotTimer_fulfil. apply Nat.eqb_neq. congruence.
      * intros vars x Hxk. rewrite Hx in Hxk. injection Hxk as <-. intros H.
        pose proof (slotInv_register _ _ _ _ q _ (slotRejectTimer q p3) _ _ true
                      (eq_trans (isSlotTimer_fulfil k k q p3) (Nat.eqb_refl k)) H)
          as Hr.
        cbn [inputPromise slotInv] in H |- *.
        change (timers (registeredStore q (slotFulfilTimer k q p3)
                          (slotRejectTimer q p3) s1)) with (timers s1).
        destruct (promises (registeredStore _ _ _ s1) !! q) as [prq'|];
          [|contradiction].
        destruct Hr as (prq0 & E & Hst' & Hv & Hw). rewrite E in H.
        rewrite Eq in E. injection E as <-.
        rewrite Hst', Hst, Hw. rewrite decide_True by reflexivity.
        destruct H as (H1 & H2 & H3). rewrite (H3 Hst). auto.
      * intros vars. apply combined_registeredStore.
  - (* fulfilled: the timer of the slot is set *)
    fold (slotFulfilTimer k q p3). split.
    + apply owned_setTimeout; [right; exact HtF | | exact Ho1].
      cbn. unfold statusOf. rewrite Eq. cbn. congruence.
    + revert HI1. apply allInvK_advance; [reflexivity| | |].
      * intros vars j x _ Hj. apply slotInv_look; [reflexivity|].
        unfold queued. cbn. rewrite countb_app. cbn [countb].
        rewrite isSlotTimer_fulfil.
        destruct (Nat.eqb_spec k j); [congruence|lia].
      * intros vars x Hxk. rewrite Hx in Hxk. injection Hxk as <-.
        cbn [inputPromise slotInv]. change (promises (setTimeout _ s1)) with (promises s1).
        rewrite Eq, Hst. intros (H1 & H2 & _). left. split; [exact H1|].
        unfold queued in *. cbn. rewrite countb_app. cbn [countb].
        rewrite isSlotTimer_fulfil, Nat.eqb_refl.
        change (timers s1) with (timers s) in H2. lia.
      * intros vars. apply combined_same; [reflexivity | trivial].
  - (* rejected: the timer of the rejection is set *)
    fold (slotRejectTimer q p3). split.
    + apply owned_setTimeout; [right; exact HtR | | exact Ho1].
      cbn. unfold statusOf. rewrite Eq. cbn. congruence.
    + revert HI1. apply allInvK_advance; [reflexivity| | |].
      * intros vars j x _ Hj. apply slotInv_look; [reflexivity|].
        unfold queued. cbn. rewrite countb_app. cbn. lia.
      * intros vars x Hxk. rewrite Hx in Hxk. injection Hxk as <-.
        cbn [inputPromise slotInv]. change (promises (setTimeout _ s1)) with (promises s1).
        rewrite Eq, Hst. intros (H1 & H2 & _). split; [exact H1|].
        unfold queued in *. cbn. rewrite countb_app. cbn.
        change (timers s1) with (timers s) in H2. lia.
      * intros vars. apply combined_same; [reflexivity | trivial].
Qed.

(** The element [k] is no thenable: [processRes(k, iterator)]. *)
Lemma all_plain_step k x s :
  xs !! k = Some x -> isPromise x = false -> allKept k s ->
  let r := processRes (resolveFn p) c (VArr xs) k x s in
  fst r = Normal VUndefined /\ allKept (S k) (snd r).
Proof using xs_input.
  intros Hx Hplain [Ho (vars & Ec & Hlen & Hcount & Hslots & Hcomb)].
  assert (Hk : k < length xs) by (eapply lookup_lt_Some; eauto).
  pose proof (Hslots k x Hx) as Hsk. unfold slotAt in Hsk.
  rewrite Nat.ltb_irrefl in Hsk.
  assert (Hfill : filled (res vars) k = false).
  { destruct x; try exact Hsk. discriminate. }
  destruct (processRes_slot k x s vars Hk Ho Ec Hlen Hcount Hfill Hcomb)
    as (Hfst & Ho2 & Hprom & Hqueue & vars' & Ec' & Hres & Hlen' & Hcount' & Hcomb').
  cbv zeta. split; [exact Hfst|]. split; [exact Ho2|].
  exists vars'. repeat split; try assumption.
  intros j y Hy. unfold slotAt. rewrite Hres, Hqueue.
  assert (Hlook : inputPromise (snd (processRes (resolveFn p) c (VArr xs) k x s)) y
                  = inputPromise s y).
  { destruct y; try reflexivity. cbn [inputPromise]. rewrite Hprom; [reflexivity|].
    intros ->. exact (input_not_combined j Hy). }
  rewrite Hlook. destruct (decide (j = k)) as [->|Hne].
  - rewrite Hx in Hy. injection Hy as <-.
    rewrite (proj2 (Nat.ltb_lt k (S k))) by lia.
    destruct x; try discriminate; apply lookup_arraySet_eq.
  - apply slotInv_arraySet_ne; [exact Hne|].
    apply (slotAt_frontier k j vars s y Hne). auto.
Qed.

Lemma testThen_promise q : testThen (VPromise q) = HasThen.
Proof. reflexivity. Qed.

Lemma allInput_plain x : allInput x -> isPromise x = false -> testThen x = NoThen.
Proof. destruct x; cbn; try discriminate; auto. Qed.

Lemma allLoop_kept m : forall k s,
  k + m = length xs -> allKept k s ->
  fst (allLoop p c (VArr xs) m k s) = Normal VUndefined
  /\ allKept (length xs) (snd (allLoop p c (VArr xs) m k s)).
Proof using xs_input.
  induction m as [|m IH]; intros k s Hk HK.
  - cbn. replace (length xs) with k by lia. auto.
  - cbn [allLoop]. change (lengthOf s (VArr xs)) with (Some (length xs)).
    cbv beta iota. rewrite (proj2 (Nat.ltb_lt k (length xs))) by lia.
    destruct (lookup_lt_is_Some_2 xs k) as [x Hx]; [lia|].
    replace (elemAt s (VArr xs) k) with x
      by (unfold elemAt; cbn; rewrite Hx; reflexivity).
    pose proof (proj1 (Forall_lookup _ _) xs_input k x Hx) as Hin.
    destruct (isPromise x) eqn:Hpx.
    + destruct x; try discriminate. rewrite testThen_promise.
      pose proof (all_then_step k p0 s Hx HK) as H.
      cbn [callThen].
      destruct (then_ p0 _ _ s) as [p2 s1]. cbn [snd] in H.
      apply IH; [lia | exact H].
    + rewrite (allInput_plain x Hin Hpx).
      destruct (all_plain_step k x s Hx Hpx HK) as [Hfst H].
      destruct (processRes (resolveFn p) c (VArr xs) k x s) as [o s1].
      cbn [fst snd] in *. subst o. apply IH; [lia | exact H].
Qed.

(** *** The call *)

(** The store when the executor of [all] has declared its variables. *)
Definition allStart (s : State) : State :=
  setAllVars (allVars s ++ [mkAllVars [] 0])
    (setPromises (promises s ++ [pendingPromise]) s).

Lemma allStart_owned s :
  p = length (promises s) -> c = length (allVars s) ->
  wellFormed s -> liveOk (notId p) (notId c) nobody s ->
  allOwned (allStart s).
Proof.
  intros Hp Hc Hwf Hlive. split.
  - split; intros n Hn; apply notId_true; cbn in Hn; rewrite length_app in Hn;
      cbn in Hn; lia.
  - eapply wellFormed_same; [| |apply wellFormed_alloc; exact Hwf]; reflexivity.
  - apply (liveOk_weaken _ _ nobody allTimer) in Hlive; [|intros t []].
    destruct Hlive as [H1 H2]. split; [exact H1|]. cbn. intros r pr E Hst.
    apply lookup_app_Some in E as [E|[_ E]]; [eauto|].
    apply list_lookup_singleton_Some in E as [_ <-]. cbn. split; constructor.
Qed.

Lemma allStart_cell s :
  c = length (allVars s) -> allVars (allStart s) !! c = Some (mkAllVars [] 0).
Proof. intros ->. cbn. apply list_lookup_middle. reflexivity. Qed.

Lemma allStart_pending s :
  p = length (promises s) -> promises (allStart s) !! p = Some pendingPromise.
Proof. intros ->. cbn. apply list_lookup_middle. reflexivity. Qed.

Lemma allStart_inv s :
  p = length (promises s) -> c = length (allVars s) ->
  liveOk (notId p) (notId c) nobody s ->
  0 < length xs -> allInvK 0 (allStart s).
Proof using xs_input.
  intros Hp Hc [Ht Hcb] Hn.
  assert (Hok : forall i t, allowed (notId p) (notId c) nobody t ->
                            isSlotTimer i t = false).
  { intros i t [H|[]]. apply ok_not_slotTimer. exact H. }
  exists (mkAllVars [] 0).
  split; [apply allStart_cell; exact Hc|].
  split; [cbn; lia|].
  split.
  { cbn. symmetry. apply countb_none, Forall_forall. reflexivity. }
  split.
  - intros i x Hx. unfold slotAt.
    replace (Nat.ltb i 0) with false by (symmetry; apply Nat.ltb_ge; lia).
    pose proof (proj1 (Forall_lookup _ _) xs_input i x Hx) as Hin.
    destruct x; try reflexivity.
    cbn in Hin. cbn [inputPromise slotInv allStart promises setAllVars setPromises].
    destruct (lookup_lt_is_Some_2 (promises s) p0) as [prq Eq]; [lia|].
    rewrite (lookup_app_l_Some _ _ _ _ Eq).
    split; [reflexivity|]. split.
    + apply countb_none. eapply Forall_impl; [exact Ht|]. intros t. apply Hok.
    + intros Hst. destruct (Hcb p0 prq Eq Hst) as [Hf _].
      apply countb_none, Forall_fmap.
      eapply Forall_impl; [exact Hf|]. intros cb. apply Hok.
  - unfold combined, settlement. rewrite (allStart_pending s Hp). cbn. exact Hn.
Qed.

Lemma all_unfold s :
  all (VArr xs) s
  = let this := length (promises s) in
    match
      match length xs with
      | 0 => resolveFn this (VRes (length (allVars s))) (allStart s)
      | S _ => allLoop this (length (allVars s)) (VArr xs) (length xs) 0
                 (allStart s)
      end
    with
    | (Normal _, s2) => (Normal (VPromise this), s2)
    | (Thrown e, s2) => (Normal (VPromise this), snd (rejectFn this e s2))
    end.
Proof.
  unfold all, construct, allExecutor, allStart, lengthOf.
  cbn [isIterable truthy andb arrayOf fmap option_fmap option_map allVars
       setPromises].
  cbv zeta. destruct (length xs).
  - destruct (resolveFn _ _ _) as [[?|?] ?]; reflexivity.
  - destruct (allLoop _ _ _ _ _ _) as [[?|?] ?]; reflexivity.
Qed.

(** The call of [all] returns [p] and sets up the invariant. *)
Lemma all_call_kept s :
  p = length (promises s) -> c = length (allVars s) ->
  wellFormed s -> liveOk (notId p) (notId c) nobody s ->
  fst (all (VArr xs) s) = Normal (VPromise p)
  /\ allKept (length xs) (snd (all (VArr xs) s)).
Proof using xs_input.
  intros Hp Hc Hwf Hlive.
  pose proof (allStart_owned s Hp Hc Hwf Hlive) as Ho.
  rewrite all_unfold. cbv zeta. rewrite <- Hp, <- Hc.
  destruct (Nat.eq_dec (length xs) 0) as [Hz|Hnz].
  - rewrite Hz. rewrite resolveFn_plain by reflexivity.
    rewrite (allStart_pending s Hp). cbn [status pendingPromise fst snd].
    split; [reflexivity|]. split.
    + apply owned_settle; auto. apply allStart_pending. exact Hp.
    + exists (mkAllVars [] 0).
      split; [apply allStart_cell; exact Hc|].
      split; [cbn; lia|]. split; [rewrite Hz; reflexivity|]. split.
      * intros i x Hx. apply lookup_lt_Some in Hx. lia.
      * unfold combined. rewrite settlement_settledStore_eq.
        -- cbn. auto.
        -- eapply lookup_lt_Some. apply allStart_pending. exact Hp.
  - assert (HK : allKept 0 (allStart s)).
    { split; [exact Ho|]. apply allStart_inv; auto. lia. }
    destruct (allLoop_kept (length xs) 0 (allStart s) eq_refl HK) as [Hfst Hk].
    replace (match length xs with
             | 0 => resolveFn p (VRes c) (allStart s)
             | S _ => allLoop p c (VArr xs) (length xs) 0 (allStart s)
             end)
      with (allLoop p c (VArr xs) (length xs) 0 (allStart s))
      by (destruct (length xs); [lia|reflexivity]).
    destruct (allLoop p c (VArr xs) (length xs) 0 (allStart s)) as [o s2].
    cbn [fst snd] in *. subst o. auto.
Qed.

(** *** What is observed *)

(** The value that an element contributes once it is fulfilled; a
    value that is no promise is its own contribution. *)
Definition reported (s : State) (x : Val) : option Val :=
  match x with
  | VPromise q =>
      match promises s !! q with
      | Some prq =>
          match status prq with
          | STATUS_FULFILLED => Some (value prq)
          | _ => None
          end
      | None => None
      end
  | _ => Some x
  end.

Definition allSpec (final : State) : Prop :=
  match settlement final p with
  | Some (STATUS_PENDING, _, _) => True
  | Some (STATUS_FULFILLED, v, _) =>
      v = VRes c
      /\ exists vs, arrayOf final v = Some vs
           /\ Forall2 (fun x y => reported final x = Some y) xs vs
  | Some (STATUS_REJECTED, _, r) =>
      exists i q prq,
        xs !! i = Some (VPromise q) /\ promises final !! q = Some prq
        /\ status prq = STATUS_REJECTED /\ r = reason prq
  | None => False
  end
  /\ (timers final = [] ->
      Forall (fun x => is_Some (reported final x)) xs ->
      exists r, settlement final p = Some (STATUS_FULFILLED, VRes c, r)).

Lemma slot_filled_reported vars s i x :
  filled (res vars) i = true -> slotAt (length xs) vars s i x ->
  xs !! i = Some x ->
  exists y, res vars !! i = Some (Some y) /\ reported s x = Some y.
Proof.
  intros Hf Hs Hx. unfold slotAt in Hs.
  rewrite (proj2 (Nat.ltb_lt i (length xs))) in Hs
    by (eapply lookup_lt_Some; eauto).
  destruct x; try (eexists; split; [exact Hs | reflexivity]).
  cbn [slotInv inputPromise reported] in *.
  destruct (promises s !! p0) as [prq|]; [|contradiction].
  destruct (status prq).
  - destruct Hs as [Hs _]. congruence.
  - destruct Hs as [[Hs _]|[Hs _]]; [congruence|]. eauto.
  - destruct Hs as [Hs _]. congruence.
Qed.

Lemma slot_reported_filled vars s i x :
  timers s = [] -> is_Some (reported s x) ->
  slotAt (length xs) vars s i x -> xs !! i = Some x ->
  filled (res vars) i = true.
Proof.
  intros Ht [y Hy] Hs Hx. unfold slotAt in Hs.
  rewrite (proj2 (Nat.ltb_lt i (length xs))) in Hs
    by (eapply lookup_lt_Some; eauto).
  rewrite Ht in Hs. unfold filled.
  destruct x; try (cbn in Hs; rewrite Hs; reflexivity).
  cbn [slotInv inputPromise reported] in *.
  destruct (promises s !! p0) as [prq|]; [|contradiction].
  destruct (status prq); try discriminate.
  destruct Hs as [[_ Hs]|[Hs _]]; [discriminate|]. rewrite Hs. reflexivity.
Qed.

Lemma countb_full {A} (f : A -> bool) l :
  Forall (fun x => f x = true) l -> countb f l = length l.
Proof. induction 1 as [|x l Hx _ IH]; cbn; [reflexivity|]. rewrite Hx, IH. reflexivity. Qed.

Lemma allInvK_spec s : allInvK (length xs) s -> allSpec s.
Proof.
  intros (vars & Ec & Hlen & Hcount & Hslots & Hcomb). split.
  - unfold combined in Hcomb.
    destruct (settlement s p) as [[[[] v] r]|]; [exact I| |exact Hcomb|exact Hcomb].
    destruct Hcomb as [-> Hfull]. split; [reflexivity|].
    assert (Hall : forall i, i < length xs -> filled (res vars) i = true).
    { intros i Hi. apply (countb_all _ (seq 0 (length xs))).
      - rewrite length_seq. congruence.
      - apply in_seq. lia. }
    assert (Hlen2 : length (res vars) = length xs).
    { destruct (length xs) as [|n'] eqn:Hn; [lia|].
      specialize (Hall n' (Nat.lt_succ_diag_r n')). unfold filled in Hall.
      destruct (res vars !! n') eqn:E; [|discriminate].
      apply lookup_lt_Some in E. lia. }
    exists (default VUndefined <$> res vars). split.
    + cbn. rewrite Ec. reflexivity.
    + apply Forall2_same_length_lookup_2.
      * rewrite length_fmap. congruence.
      * intros i x y Hx Hy.
        destruct (slot_filled_reported vars s i x) as (y' & Hy1 & Hy2); auto.
        { apply Hall. eapply lookup_lt_Some; eauto. }
        rewrite list_lookup_fmap, Hy1 in Hy. cbn in Hy. congruence.
  - intros Ht Hrep.
    assert (Hfull : fulfilledCount vars = length xs).
    { rewrite Hcount.
      transitivity (length (seq 0 (length xs))); [|apply length_seq].
      apply countb_full, Forall_forall. intros i Hi.
      apply list_elem_of_In, in_seq in Hi.
      destruct (lookup_lt_is_Some_2 xs i) as [x Hx]; [lia|].
      eapply slot_reported_filled; eauto.
      exact (proj1 (Forall_lookup _ _) Hrep i x Hx). }
    unfold combined in Hcomb.
    destruct (settlement s p) as [[[[] v] r]|]; [lia| |exfalso|contradiction].
    + destruct Hcomb as [-> _]. eauto.
    + destruct Hcomb as (i & q & prq & Hx & Eq & Hst & _).
      pose proof (proj1 (Forall_lookup _ _) Hrep i _ Hx) as [y Hy].
      cbn in Hy. rewrite Eq, Hst in Hy. discriminate.
Qed.

End AllCombinator.

Definition allInputb (s : State) (x : Val) : bool :=
  match x with
  | VPromise q => Nat.ltb q (length (promises s))
  | _ => match testThen x with NoThen => true | _ => false end
  end.

Lemma allInputb_sound s xs :
  forallb (allInputb s) xs = true -> Forall (allInput (length (promises s))) xs.
Proof.
  apply forallb_Forall. intros x. unfold allInputb, allInput.
  destruct x; try (destruct (testThen _); congruence).
  apply Nat.ltb_lt.
Qed.

(** X1.  [all] where every report comes once.  On an array [xs] whose
    elements are promises of this implementation or values that are no
    thenables, [all] returns a new promise [p] such that, whatever
    allowed calls and timers come [later]: when [p] is fulfilled, its
    value is the array [res] of the call, which holds, slot by slot in
    the order of [xs], the value of the promise at that index (which is
    fulfilled) or the element itself; when [p] is rejected, its reason
    is the reason of an element that is rejected; when no timer is left
    and every element is fulfilled, [p] is fulfilled; and a settlement
    of [p] is never changed by what comes after it. *)
Theorem all_results_in_index_order (xs : list Val) (s : State)
    (later more : list Action) :
  let p := length (promises s) in
  let c := length (allVars s) in
  let final := performAll later (snd (all (VArr xs) s)) in
  wellFormedb s = true ->
  liveOkb (notId p) (notId c) s = true ->
  forallb (allInputb s) xs = true ->
  forallb (actionOk (notId p) (notId c)) later = true ->
  fst (all (VArr xs) s) = Normal (VPromise p)
  /\ allSpec xs p c final
  /\ (isSettled final p ->
      settlement (performAll more final) p = settlement final p).
Proof.
  intros p c final Hwf Hlive Hxs Hacts.
  apply wellFormedb_sound in Hwf. apply liveOkb_sound in Hlive.
  apply allInputb_sound in Hxs. fold p in Hxs.
  destruct (all_call_kept xs p c Hxs s eq_refl eq_refl Hwf Hlive) as [Hfst HK].
  split; [exact Hfst|]. split.
  - apply (allInvK_spec xs p c).
    exact (proj2 (all_performAll_kept xs p c Hxs later _ Hacts HK)).
  - apply performAll_keepsSettled.
Qed.

(** C5.  [fulfilledCount] is meant to count the elements that are
    fulfilled, and [resolve(res)] to wait for all of them; but [all]
    hands [processRes] to the [then] of a foreign thenable as it is,
    without the guard that the resolution procedure puts around the
    callbacks of a foreign [then], so every call counts.  With a first
    element whose [then] calls its first argument twice and a second
    element that is a pending promise, the count reaches the length of
    the input inside the loop: the promise returned is fulfilled at
    once, with an array of one result, while the second element is
    still pending. *)
Theorem all_counts_calls (y1 y2 : Val) :
  let twice := VObj false (ThenFunction (SFulfil y1 (SFulfil y2 SEnd))) in
  let s := snd (deferred emptyState) in
  let after := snd (all (VArr [twice; VPromise 0]) s) in
  settlement s 0 = Some (STATUS_PENDING, VNull, VNull)
  /\ fst (all (VArr [twice; VPromise 0]) s) = Normal (VPromise 1)
  /\ settlement after 0 = Some (STATUS_PENDING, VNull, VNull)
  /\ settlement after 1 = Some (STATUS_FULFILLED, VRes 0, VNull)
  /\ arrayOf after (VRes 0) = Some [y2]
  /\ fulfilledCount <$> allVars after !! 0 = Some 2.
Proof. cbv zeta. repeat split; reflexivity. Qed.


(** ** [allSettled] and the thenables that [resolve] does not see *)

(** C7.  [allSettled] maps every element through the static [resolve],
    which does not take a function with a [then] method for a thenable
    and which reads [then] outside of any executor.  So for an element
    [f] that is a function with a [then] method, whatever that method
    would do (here: [thn]), the record of [f] in the result is
    [{status: 'fulfilled', value: f}]; the resolution procedure, on such
    an [f] whose [then] rejects with ['x'], rejects with ['x'].  And for
    an element whose [then] getter throws [e], [allSettled] itself
    throws [e]: no promise is returned. *)
Theorem allSettled_callable_thenable (thn : ThenMember) (e : Val)
    (rest : list Val) (s : State) :
  let f := VObj true thn in
  let final := run 2 (snd (allSettled (VArr [f]) emptyState)) in
  fst (allSettled (VArr [f]) emptyState) = Normal (VPromise 2)
  /\ settlement final 2 = Some (STATUS_FULFILLED, VRes 0, VNull)
  /\ arrayOf final (VRes 0) = Some [VSettled STATUS_FULFILLED f]
  /\ settlement
       (snd (promiseResolutionProcedure 0
               (VObj true (ThenFunction (SReject (VStr "x") SEnd)))
               (FResolve 0) (FReject 0) (snd (deferred emptyState)))) 0
     = Some (STATUS_REJECTED, VNull, VStr "x")
  /\ allSettled (VArr (VObj false (ThenGetterThrows e) :: rest)) s
     = (Thrown e, s).
Proof. cbv zeta. repeat split; reflexivity. Qed.


(** * Further properties of the code *)

(** ** [then] and [catch]: what becomes of [promise2] *)

(** The store in which [new PromiseImpl(executor)] runs its executor. *)
Definition withNewPromise (s : State) : State :=
  setPromises (promises s ++ [pendingPromise]) s.

Lemma withNewPromise_old s q pr :
  promises s !! q = Some pr -> promises (withNewPromise s) !! q = Some pr.
Proof. intros E. cbn. apply lookup_app_l_Some. exact E. Qed.

Lemma withNewPromise_new s :
  promises (withNewPromise s) !! length (promises s) = Some pendingPromise.
Proof. cbn. apply list_lookup_middle. reflexivity. Qed.

(** [then], by the status of the source. *)
Lemma then_cases this pr onF onR s :
  promises s !! this = Some pr ->
  let promise2 := length (promises s) in
  then_ this onF onR s
  = (promise2,
     match status pr with
     | STATUS_FULFILLED =>
         setTimeout (TFulfilled this (default FIdentity onF) promise2)
           (withNewPromise s)
     | STATUS_REJECTED =>
         setTimeout (TRejected this (default FThrower onR) promise2)
           (withNewPromise s)
     | STATUS_PENDING =>
         registeredStore this
           (TFulfilled this (default FIdentity onF) promise2)
           (TRejected this (default FThrower onR) promise2)
           (withNewPromise s)
     end).
Proof.
  intros E. cbv zeta. unfold then_, construct, thenExecutor, statusOf.
  fold (withNewPromise s). rewrite (withNewPromise_old s this pr E).
  cbn [fmap option_fmap option_map].
  destruct (status pr); try reflexivity.
  rewrite register_registeredStore. reflexivity.
Qed.

(** A handler that neither reads nor writes the store. *)
Definition returns (handler : Fn) (arg : Val) (o : Outcome) : Prop :=
  forall s, applyFn handler arg s = (o, s).

Lemma returns_FUser h arg : returns (FUser h) arg (h arg).
Proof. intros s. reflexivity. Qed.

Lemma returns_FIdentity arg : returns FIdentity arg (Normal arg).
Proof. intros s. reflexivity. Qed.

Lemma returns_FThrower arg : returns FThrower arg (Thrown arg).
Proof. intros s. reflexivity. Qed.

(** What [promise2] becomes when it is given the outcome [o] of the
    handler: rejected with what was thrown, fulfilled with what was
    returned when that is no thenable. *)
Definition settledBy (o : Outcome) (s : State) (promise2 : nat) : Prop :=
  match o with
  | Thrown e => settlement s promise2 = Some (STATUS_REJECTED, VNull, e)
  | Normal x =>
      isPlain x = true ->
      settlement s promise2 = Some (STATUS_FULFILLED, x, VNull)
  end.

(** The body of a timer of [then], run while [promise2] is as created. *)
Lemma handlerBody_settles this handler arg promise2 o s :
  returns handler arg o ->
  promises s !! promise2 = Some pendingPromise ->
  settledBy o (handlerBody this handler arg promise2 s) promise2.
Proof.
  intros Hh E. unfold handlerBody. rewrite Hh. destruct o as [x|e]; cbn [settledBy].
  - intros Hx. rewrite (prp_plain _ _ _ _ Hx).
    apply (resolveFn_pending promise2 pendingPromise); auto.
    apply isPlain_not_promise. exact Hx.
  - apply (rejectFn_pending promise2 pendingPromise); auto.
Qed.

Lemma tick_only_timer t s s0 :
  timers s0 = [] -> s = setTimeout t s0 -> tick s = runTask t s0.
Proof.
  intros Ht ->. unfold tick, setTimeout. cbn [timers setTimers].
  rewrite Ht. cbn [app]. f_equal. destruct s0. cbn in *. subst. reflexivity.
Qed.

(** [then] on a store with no timer waiting, and one turn of the loop. *)
Lemma then_tick this pr onF onR s :
  promises s !! this = Some pr -> timers s = [] ->
  let promise2 := length (promises s) in
  fst (then_ this onF onR s) = promise2
  /\ tick (snd (then_ this onF onR s))
     = match status pr with
       | STATUS_FULFILLED =>
           handlerBody this (default FIdentity onF) (value pr) promise2
             (withNewPromise s)
       | STATUS_REJECTED =>
           handlerBody this (default FThrower onR) (reason pr) promise2
             (withNewPromise s)
       | STATUS_PENDING =>
           registeredStore this
             (TFulfilled this (default FIdentity onF) promise2)
             (TRejected this (default FThrower onR) promise2)
             (withNewPromise s)
       end.
Proof.
  intros E Ht. cbv zeta. rewrite (then_cases this pr onF onR s E). cbn [fst snd].
  split; [reflexivity|].
  destruct (status pr).
  - unfold tick. cbn [registeredStore timers setPromises withNewPromise].
    rewrite Ht. reflexivity.
  - rewrite (tick_only_timer _ _ (withNewPromise s) Ht eq_refl).
    cbn [runTask]. rewrite (withNewPromise_old s this pr E). reflexivity.
  - rewrite (tick_only_timer _ _ (withNewPromise s) Ht eq_refl).
    cbn [runTask]. rewrite (withNewPromise_old s this pr E). reflexivity.
Qed.

(** X2.  [then] whose argument for the status of the source is not a
    function hands the settlement on: with no timer waiting, one turn
    of the loop after [then] on a fulfilled promise without
    [onFulfilled], [promise2] is fulfilled with the same value (when the
    value is no thenable); on a rejected promise without [onRejected],
    [promise2] is rejected with the same reason.  On a pending promise
    [promise2] stays pending and no timer is set. *)
Theorem then_without_handler_hands_on (this : nat) (pr : PromiseImpl)
    (onFulfilled onRejected : option Fn) (s : State) :
  promises s !! this = Some pr -> timers s = [] ->
  let promise2 := fst (then_ this onFulfilled onRejected s) in
  let final := tick (snd (then_ this onFulfilled onRejected s)) in
  match status pr with
  | STATUS_FULFILLED =>
      onFulfilled = None -> isPlain (value pr) = true ->
      settlement final promise2 = Some (STATUS_FULFILLED, value pr, VNull)
  | STATUS_REJECTED =>
      onRejected = None ->
      settlement final promise2 = Some (STATUS_REJECTED, VNull, reason pr)
  | STATUS_PENDING =>
      settlement final promise2 = Some (STATUS_PENDING, VNull, VNull)
      /\ timers final = []
  end.
Proof.
  intros E Ht. cbv zeta.
  destruct (then_tick this pr onFulfilled onRejected s E Ht) as [-> ->].
  destruct (status pr).
  - split; [|exact Ht]. rewrite settlement_registeredStore.
    unfold settlement. rewrite withNewPromise_new. reflexivity.
  - intros -> Hv.
    exact (handlerBody_settles this FIdentity (value pr) _ _ _
             (returns_FIdentity _) (withNewPromise_new s) Hv).
  - intros ->.
    exact (handlerBody_settles this FThrower (reason pr) _ _ _
             (returns_FThrower _) (withNewPromise_new s)).
Qed.

(** X3.  The handler that [then] calls decides [promise2]: with no timer
    waiting, one turn of the loop after [then] on a settled promise, the
    handler for its status has been called once, with the value or the
    reason of the source, and [promise2] is rejected with what the
    handler threw, or fulfilled with what it returned (when that is no
    thenable). *)
Theorem then_handler_decides (this : nat) (pr : PromiseImpl)
    (h : Val -> Outcome) (onFulfilled onRejected : option Fn) (s : State) :
  promises s !! this = Some pr -> timers s = [] ->
  let promise2 := fst (then_ this onFulfilled onRejected s) in
  let final := tick (snd (then_ this onFulfilled onRejected s)) in
  match status pr with
  | STATUS_FULFILLED =>
      onFulfilled = Some (FUser h) ->
      settledBy (h (value pr)) final promise2
      /\ handlerLog final
         = handlerLog s ++ [HandlerCalled this (FUser h) (value pr)]
  | STATUS_REJECTED =>
      onRejected = Some (FUser h) ->
      settledBy (h (reason pr)) final promise2
      /\ handlerLog final
         = handlerLog s ++ [HandlerCalled this (FUser h) (reason pr)]
  | STATUS_PENDING => handlerLog final = handlerLog s
  end.
Proof.
  intros E Ht. cbv zeta.
  destruct (then_tick this pr onFulfilled onRejected s E Ht) as [-> ->].
  destruct (status pr).
  - reflexivity.
  - intros ->. split; [|rewrite handlerBody_log; reflexivity].
    exact (handlerBody_settles this (FUser h) (value pr) _ _ _
             (returns_FUser h _) (withNewPromise_new s)).
  - intros ->. split; [|rewrite handlerBody_log; reflexivity].
    exact (handlerBody_settles this (FUser h) (reason pr) _ _ _
             (returns_FUser h _) (withNewPromise_new s)).
Qed.

(** X4.  [catch(h)] is [then] with no [onFulfilled]: on a fulfilled
    promise the value goes through to [promise2] and [h] is not called;
    on a rejected promise [h] is called with the reason and [promise2]
    is fulfilled with what [h] returns (when that is no thenable), or
    rejected with what [h] throws. *)
Theorem catch_recovers (this : nat) (pr : PromiseImpl) (h : Val -> Outcome)
    (s : State) :
  promises s !! this = Some pr -> timers s = [] ->
  let promise2 := fst (catch_ this (Some (FUser h)) s) in
  let final := tick (snd (catch_ this (Some (FUser h)) s)) in
  match status pr with
  | STATUS_FULFILLED =>
      (isPlain (value pr) = true ->
       settlement final promise2 = Some (STATUS_FULFILLED, value pr, VNull))
      /\ handlerLog final
         = handlerLog s ++ [HandlerCalled this FIdentity (value pr)]
  | STATUS_REJECTED =>
      settledBy (h (reason pr)) final promise2
      /\ handlerLog final
         = handlerLog s ++ [HandlerCalled this (FUser h) (reason pr)]
  | STATUS_PENDING =>
      settlement final promise2 = Some (STATUS_PENDING, VNull, VNull)
      /\ handlerLog final = handlerLog s
  end.
Proof.
  intros E Ht. cbv zeta. unfold catch_.
  destruct (then_tick this pr None (Some (FUser h)) s E Ht) as [-> ->].
  destruct (status pr).
  - split; [|reflexivity]. rewrite settlement_registeredStore.
    unfold settlement. rewrite withNewPromise_new. reflexivity.
  - split; [|rewrite handlerBody_log; reflexivity].
    exact (handlerBody_settles this FIdentity (value pr) _ _ _
             (returns_FIdentity _) (withNewPromise_new s)).
  - split; [|rewrite handlerBody_log; reflexivity].
    exact (handlerBody_settles this (FUser h) (reason pr) _ _ _
             (returns_FUser h _) (withNewPromise_new s)).
Qed.


(** ** The constructor, [resolve], [reject] and [deferred] *)

(** X5.  The constructor catches what its executor throws: the new
    promise is rejected with it, unless the executor had settled the
    promise before it threw; then the throw is dropped. *)
Theorem construct_catches (executor : nat -> State -> Outcome * State)
    (s s2 : State) (e : Val) :
  let this := length (promises s) in
  executor this (withNewPromise s) = (Thrown e, s2) ->
  fst (construct executor s) = this
  /\ match promises s2 !! this with
     | Some pr =>
         match status pr with
         | STATUS_PENDING =>
             settlement (snd (construct executor s)) this
             = Some (STATUS_REJECTED, value pr, e)
         | _ => snd (construct executor s) = s2
         end
     | None => snd (construct executor s) = s2
     end.
Proof.
  intros this H. unfold construct. fold (withNewPromise s). fold this.
  rewrite H. cbn [fst snd]. split; [reflexivity|].
  destruct (promises s2 !! this) as [pr|] eqn:E.
  - destruct (status pr) eqn:Hst.
    + apply rejectFn_pending; assumption.
    + rewrite rejectFn_cases, E, Hst. reflexivity.
    + rewrite rejectFn_cases, E, Hst. reflexivity.
  - rewrite rejectFn_cases, E. reflexivity.
Qed.

Lemma settledStore_no_callbacks p pr' s :
  settledStore p pr' [] s = setPromises (<[p := pr']> (promises s)) s.
Proof. unfold settledStore. cbn [fmap list_fmap]. apply addTimers_nil. Qed.

Lemma insert_new_promise pr' s :
  <[length (promises s) := pr']> (promises s ++ [pendingPromise])
  = promises s ++ [pr'].
Proof.
  rewrite insert_app_r_alt by lia. rewrite Nat.sub_diag. reflexivity.
Qed.

(** A new promise settled by its executor before anybody could call
    [then] on it. *)
Definition withSettledPromise (pr' : PromiseImpl) (s : State) : State :=
  setPromises (promises s ++ [pr']) s.

Lemma settle_new_promise pr' s :
  settledStore (length (promises s)) pr' [] (withNewPromise s)
  = withSettledPromise pr' s.
Proof.
  rewrite settledStore_no_callbacks. unfold withSettledPromise.
  cbn [promises withNewPromise setPromises]. rewrite insert_new_promise.
  reflexivity.
Qed.

Lemma rejectFn_new r s :
  rejectFn (length (promises s)) r (withNewPromise s)
  = (Normal VUndefined,
     withSettledPromise (mkPromise STATUS_REJECTED VNull r [] []) s).
Proof.
  rewrite rejectFn_cases, withNewPromise_new.
  cbn [status pendingPromise value onFulfilledCbs onRejectedCbs].
  rewrite settle_new_promise. reflexivity.
Qed.

Lemma resolveFn_new v s :
  isPromise v = false ->
  resolveFn (length (promises s)) v (withNewPromise s)
  = (Normal VUndefined,
     withSettledPromise (mkPromise STATUS_FULFILLED v VNull [] []) s).
Proof.
  intros Hv. rewrite (resolveFn_plain _ _ _ Hv), withNewPromise_new.
  cbn [status pendingPromise reason onFulfilledCbs onRejectedCbs].
  rewrite settle_new_promise. reflexivity.
Qed.

(** The values that static [resolve] wraps as they are: all but the
    promises of this implementation and the objects (not functions)
    whose [then] is a function or throws when read. *)
Definition resolvesAsValue (v : Val) : bool :=
  match v with
  | VPromise _ => false
  | VObj false (ThenFunction _) => false
  | VObj false (ThenGetterThrows _) => false
  | _ => true
  end.

Lemma resolvesAsValue_not_promise v : resolvesAsValue v = true -> isPromise v = false.
Proof. destruct v; try reflexivity. discriminate. Qed.

Lemma resolve__value v s :
  resolvesAsValue v = true ->
  resolve_ v s
  = (Normal (VPromise (length (promises s))),
     withSettledPromise (mkPromise STATUS_FULFILLED v VNull [] []) s).
Proof.
  intros Hv. pose proof (resolvesAsValue_not_promise v Hv) as Hp.
  assert (H : (let '(p, s1) := construct (fun this => resolveFn this v) s in
               (Normal (VPromise p), s1))
              = (Normal (VPromise (length (promises s))),
                 withSettledPromise (mkPromise STATUS_FULFILLED v VNull [] []) s)).
  { unfold construct. fold (withNewPromise s). rewrite (resolveFn_new v s Hp).
    reflexivity. }
  destruct v as [| | | | | | |callable thn| | |]; try exact H; try discriminate.
  destruct callable, thn; try exact H; discriminate.
Qed.

Lemma reject__store r s :
  reject_ r s
  = (Normal (VPromise (length (promises s))),
     withSettledPromise (mkPromise STATUS_REJECTED VNull r [] []) s).
Proof.
  unfold reject_, construct. fold (withNewPromise s). rewrite rejectFn_new.
  reflexivity.
Qed.

Lemma settlement_withSettledPromise pr' s :
  settlement (withSettledPromise pr' s) (length (promises s))
  = Some (status pr', value pr', reason pr').
Proof.
  unfold settlement, withSettledPromise. cbn.
  rewrite list_lookup_middle by reflexivity. reflexivity.
Qed.

(** X6.  Static [resolve] of a value that it takes for no thenable, and
    static [reject] of any value at all (a promise or a thenable is not
    looked into), return a new promise that is settled already, with
    that value or reason; no timer is set and no other promise
    changes. *)
Theorem resolve_reject_settle_at_once (v r : Val) (s : State) :
  let p := length (promises s) in
  (resolvesAsValue v = true ->
   fst (resolve_ v s) = Normal (VPromise p)
   /\ settlement (snd (resolve_ v s)) p = Some (STATUS_FULFILLED, v, VNull)
   /\ timers (snd (resolve_ v s)) = timers s
   /\ forall q pr, promises s !! q = Some pr ->
                   promises (snd (resolve_ v s)) !! q = Some pr)
  /\ fst (reject_ r s) = Normal (VPromise p)
  /\ settlement (snd (reject_ r s)) p = Some (STATUS_REJECTED, VNull, r)
  /\ timers (snd (reject_ r s)) = timers s
  /\ forall q pr, promises s !! q = Some pr ->
                  promises (snd (reject_ r s)) !! q = Some pr.
Proof.
  cbv zeta. split.
  - intros Hv. rewrite (resolve__value v s Hv). cbn [fst snd].
    split; [reflexivity|]. split; [apply settlement_withSettledPromise|].
    split; [reflexivity|]. intros q pr E. cbn. apply lookup_app_l_Some. exact E.
  - rewrite reject__store. cbn [fst snd].
    split; [reflexivity|]. split; [apply settlement_withSettledPromise|].
    split; [reflexivity|]. intros q pr E. cbn. apply lookup_app_l_Some. exact E.
Qed.

(** X7.  [deferred()] makes a pending promise and hands out its two
    capabilities; settling it through them at once gives the very store
    of static [resolve] (for a value that [resolve] takes for no
    thenable) and of static [reject]. *)
Theorem deferred_then_settle (v r : Val) (s : State) :
  let p := fst (deferred s) in
  let s1 := snd (deferred s) in
  p = length (promises s)
  /\ settlement s1 p = Some (STATUS_PENDING, VNull, VNull)
  /\ timers s1 = timers s
  /\ (resolvesAsValue v = true ->
      snd (applyFn (FResolve p) v s1) = snd (resolve_ v s))
  /\ snd (applyFn (FReject p) r s1) = snd (reject_ r s).
Proof.
  cbv zeta. unfold deferred, construct. fold (withNewPromise s). cbn [fst snd].
  split; [reflexivity|]. split.
  { unfold settlement. rewrite withNewPromise_new. reflexivity. }
  split; [reflexivity|]. split.
  - intros Hv. rewrite (resolve__value v s Hv). cbn [applyFn snd].
    rewrite (resolveFn_new v s (resolvesAsValue_not_promise v Hv)). reflexivity.
  - rewrite reject__store. cbn [applyFn snd]. rewrite rejectFn_new. reflexivity.
Qed.

(** X8.  Static [resolve] is idempotent: what it returns is a promise,
    and [resolve] of that promise returns the same promise and leaves
    the store as it is. *)
Theorem resolve_idempotent (x v : Val) (s s' : State) :
  resolve_ x s = (Normal v, s') ->
  isPromise v = true /\ resolve_ v s' = (Normal v, s').
Proof.
  intros H.
  assert (Hc : forall executor,
    (let '(p, s1) := construct executor s in (Normal (VPromise p), s1))
    = (Normal v, s') -> isPromise v = true /\ resolve_ v s' = (Normal v, s')).
  { intros executor Hx. destruct (construct executor s) as [p s1].
    injection Hx as <- <-. split; reflexivity. }
  destruct x as [| | | | | |q|callable thn| | |];
    try exact (Hc _ H).
  - injection H as <- <-. split; reflexivity.
  - destruct callable, thn; try exact (Hc _ H). discriminate H.
Qed.

(** X9.  Static [resolve] of an object whose [then] is a function runs
    that [then] at once with the capabilities of a new promise, and the
    single settlement of that promise makes the first thing that [then]
    does count: fulfilled with the first value it is called with (taken
    as it is, when it is no promise of this implementation), rejected
    with the first reason, rejected with what [then] throws before any
    call; pending while [then] has called nothing. *)
Theorem resolve_thenable_first_call (body : Script) (s : State) :
  let x := VObj false (ThenFunction body) in
  let p := length (promises s) in
  fst (resolve_ x s) = Normal (VPromise p)
  /\ match firstCall body with
     | CallsFulfil y =>
         isPromise y = false ->
         settlement (snd (resolve_ x s)) p = Some (STATUS_FULFILLED, y, VNull)
     | CallsReject r =>
         settlement (snd (resolve_ x s)) p = Some (STATUS_REJECTED, VNull, r)
     | Throws e =>
         settlement (snd (resolve_ x s)) p = Some (STATUS_REJECTED, VNull, e)
     | NoCall =>
         settlement (snd (resolve_ x s)) p = Some (STATUS_PENDING, VNull, VNull)
     end.
Proof.
  cbv zeta. rewrite resolve__object_thenable. unfold construct.
  fold (withNewPromise s).
  assert (Hp : settlement (withNewPromise s) (length (promises s))
               = Some pendingTriple).
  { unfold settlement. rewrite withNewPromise_new. reflexivity. }
  pose proof (thenable_executor body (length (promises s)) (withNewPromise s) Hp)
    as H. cbv zeta in H.
  destruct (runScript body _ _ (withNewPromise s)) as [o s2] eqn:Er.
  cbn [fst snd] in H.
  assert (Hkeep : forall st y r, st <> STATUS_PENDING ->
            settlement s2 (length (promises s)) = Some (st, y, r) ->
            settlement (snd (let '(p, s1) :=
                          match o with
                          | Normal _ => (length (promises s), s2)
                          | Thrown e => (length (promises s),
                                         snd (rejectFn (length (promises s)) e s2))
                          end in (Normal (VPromise p), s1)))
                       (length (promises s)) = Some (st, y, r)).
  { intros st y r Hst Hs. destruct o as [?|e]; cbn [snd]; [exact Hs|].
    rewrite (rejectFn_keepsSettled _ e s2 _
               (settlement_isSettled _ _ _ _ _ Hs Hst)). exact Hs. }
  split; [destruct o; reflexivity|].
  destruct (firstCall body) as [y|r|e|].
  - intros Hy. rewrite Hy in H. apply Hkeep; [discriminate | exact H].
  - apply Hkeep; [discriminate | exact H].
  - destruct H as [-> H]. cbn [snd].
    unfold settlement, pendingTriple in H.
    destruct (promises s2 !! length (promises s)) as [pr|] eqn:E; [|discriminate].
    cbn in H. injection H as Hst Hv Hr.
    rewrite (rejectFn_pending _ pr e s2 E Hst). rewrite Hv. reflexivity.
  - destruct H as [-> H]. exact H.
Qed.


(** ** The resolution procedure on thenables and on promises *)

Ltac keeps_settled :=
  first [ exact keepsSettled_refl | exact keepsSettled_trans
        | exact keepsSettled_alloc
        | intros; eapply keepsSettled_settle; eassumption
        | exact keepsSettled_register
        | intros; apply keepsSettled_same_promises; reflexivity ].

Lemma prp_keepsSettled promise x resolve reject s :
  keepsSettled s (snd (promiseResolutionProcedure promise x resolve reject s)).
Proof. apply (promiseResolutionProcedure_respects keepsSettled); keeps_settled. Qed.

(** What follows the call of the handler in a timer of [then] changes
    no settled promise. *)
Lemma handlerBody_keeps this handler arg promise2 s :
  keepsSettled
    (snd (applyFn handler arg (logHandler (HandlerCalled this handler arg) s)))
    (handlerBody this handler arg promise2 s).
Proof.
  unfold handlerBody. destruct (applyFn _ _ _) as [[x|e] s1]; cbn [snd].
  - pose proof (prp_keepsSettled promise2 x (FResolve promise2)
                  (FReject promise2) s1) as H.
    destruct (promiseResolutionProcedure _ _ _ _ _) as [[?|e] s2];
      cbn [snd] in H; [exact H|].
    eapply keepsSettled_trans; [exact H | apply rejectFn_keepsSettled].
  - apply rejectFn_keepsSettled.
Qed.

Lemma isCalled_after_set called s :
  called < length (calledVars s) -> isCalled called (setCalled called s) = true.
Proof.
  intros Hlt. rewrite isCalled_setCalled, decide_True by reflexivity.
  apply bool_decide_eq_true. exact Hlt.
Qed.

(** The [try] block around a foreign [then] and its [catch], for a
    pending promise with its own capabilities. *)
Lemma scriptOn_first_call p called body : forall s pr,
  promises s !! p = Some pr -> status pr = STATUS_PENDING ->
  isCalled called s = false -> called < length (calledVars s) ->
  let r :=
    match scriptOn (FResolve p) (FReject p) (applyFn (FResolve p))
            (applyFn (FReject p)) p called body s with
    | (Normal _, s1) => (Normal VUndefined, s1)
    | (Thrown e, s1) => prpCatch (applyFn (FReject p)) called e s1
    end in
  match firstCall body with
  | CallsFulfil y =>
      isPlain y = true ->
      settlement (snd r) p = Some (STATUS_FULFILLED, y, reason pr)
  | CallsReject e => settlement (snd r) p = Some (STATUS_REJECTED, value pr, e)
  | Throws e => settlement (snd r) p = Some (STATUS_REJECTED, value pr, e)
  | NoCall => settlement (snd r) p = Some (STATUS_PENDING, value pr, reason pr)
  end.
Proof.
  assert (Hrest : forall k s1 x,
    isCalled called s1 = true ->
    settlement s1 p = x ->
    settlement (snd
      match scriptOn (FResolve p) (FReject p) (applyFn (FResolve p))
              (applyFn (FReject p)) p called k s1 with
      | (Normal _, s2) => (Normal VUndefined, s2)
      | (Thrown e, s2) => prpCatch (applyFn (FReject p)) called e s2
      end) p = x).
  { intros k s1 x Hc Hs. rewrite scriptOn_called by exact Hc.
    destruct (outcomeOf k); cbn [snd]; [exact Hs|].
    rewrite prpCatch_called by exact Hc. exact Hs. }
  induction body; intros s pr E Hst Hc Hlt; cbv zeta; cbn [firstCall scriptOn].
  - cbn [snd]. unfold settlement. rewrite E, <- Hst. reflexivity.
  - intros Hy. rewrite Hc.
    change (prpOn (FResolve p) (FReject p) (applyFn (FResolve p))
              (applyFn (FReject p)) p y (setCalled called s))
      with (promiseResolutionProcedure p y (FResolve p) (FReject p)
              (setCalled called s)).
    rewrite (prp_plain _ _ _ _ Hy).
    apply Hrest.
    + apply (applyFn_keepsCalled (FResolve p)), keepsCalled_newCalled.
      apply isCalled_after_set. exact Hlt.
    + apply (resolveFn_pending p pr); auto. apply isPlain_not_promise. exact Hy.
  - rewrite Hc. cbn [applyFn].
    pose proof (rejectFn_normal p r (setCalled called s)) as Hn.
    pose proof (rejectFn_pending p pr r (setCalled called s) E Hst) as Hs.
    pose proof (applyFn_keepsCalled (FReject p) r (setCalled called s) called
                  (isCalled_after_set called s Hlt)) as Hk.
    cbn [applyFn] in Hk.
    destruct (rejectFn p r (setCalled called s)) as [o s1]. cbn [fst snd] in *.
    subst o. apply Hrest; assumption.
  - unfold prpCatch. rewrite Hc. cbn [applyFn].
    pose proof (rejectFn_normal p e (setCalled called s)) as Hn.
    pose proof (rejectFn_pending p pr e (setCalled called s) E Hst) as Hs.
    destruct (rejectFn p e (setCalled called s)) as [o s1]. cbn [fst snd] in *.
    subst o. exact Hs.
  - apply (IHbody2 _ pr); assumption.
Qed.

(** X10.  The resolution procedure on an object or function [x], for a
    pending promise with its own capabilities: when reading [x.then]
    throws, the promise is rejected with what was thrown; when [x.then]
    is a function, the first thing it does decides: its first call of
    [resolvePromise] with a value that is no thenable fulfils the promise
    with it, its first call of [rejectPromise] rejects it, a throw
    before any call rejects it with what was thrown, and while [then]
    has called nothing the promise stays pending; timers that [then]
    sets in between do not matter. *)
Theorem prp_thenable_first_call (p : nat) (pr : PromiseImpl) (c : bool)
    (body : Script) (e : Val) (s : State) :
  promises s !! p = Some pr -> status pr = STATUS_PENDING ->
  let after x := snd (promiseResolutionProcedure p x (FResolve p) (FReject p) s) in
  settlement (after (VObj c (ThenGetterThrows e))) p
    = Some (STATUS_REJECTED, value pr, e)
  /\ match firstCall body with
     | CallsFulfil y =>
         isPlain y = true ->
         settlement (after (VObj c (ThenFunction body))) p
         = Some (STATUS_FULFILLED, y, reason pr)
     | CallsReject r =>
         settlement (after (VObj c (ThenFunction body))) p
         = Some (STATUS_REJECTED, value pr, r)
     | Throws e' =>
         settlement (after (VObj c (ThenFunction body))) p
         = Some (STATUS_REJECTED, value pr, e')
     | NoCall =>
         settlement (after (VObj c (ThenFunction body))) p
         = Some (STATUS_PENDING, value pr, reason pr)
     end.
Proof.
  intros E Hst. cbv zeta. unfold promiseResolutionProcedure. cbn [prpOn newCalled].
  set (called := length (calledVars s)).
  set (s0 := setCalledVars (calledVars s ++ [false]) s).
  assert (Hc : isCalled called s0 = false).
  { unfold isCalled, s0, called. cbn.
    rewrite list_lookup_middle by reflexivity. reflexivity. }
  assert (Hlt : called < length (calledVars s0)).
  { unfold s0, called. cbn. rewrite length_app. cbn. lia. }
  split.
  - exact (scriptOn_first_call p called (SThrow e) s0 pr E Hst Hc Hlt).
  - exact (scriptOn_first_call p called body s0 pr E Hst Hc Hlt).
Qed.

(** [then] on [q] with handlers that settle [p], when no timer is
    waiting: one turn of the loop later the handler has run. *)
Lemma adopt_tick (p q : nat) (pr prq : PromiseImpl) (f g : Fn) (s : State)
    (x : Status * Val * Val) :
  promises s !! q = Some prq -> timers s = [] ->
  status prq <> STATUS_PENDING ->
  x.1.1 <> STATUS_PENDING ->
  (forall s1, promises s1 !! p = Some pr ->
     settlement
       (snd (applyFn (match status prq with
                      | STATUS_REJECTED => g
                      | _ => f
                      end)
               (match status prq with
                | STATUS_REJECTED => reason prq
                | _ => value prq
                end) s1)) p = Some x) ->
  promises s !! p = Some pr ->
  settlement (tick (snd (then_ q (Some f) (Some g) s))) p = Some x.
Proof.
  intros Eq Ht Hq Hx Happ Ep.
  destruct (then_tick q prq (Some f) (Some g) s Eq Ht) as [_ ->].
  cbn [default from_option id].
  assert (Hkeep : forall handler arg,
    settlement (snd (applyFn handler arg
                       (logHandler (HandlerCalled q handler arg)
                          (withNewPromise s)))) p = Some x ->
    settlement (handlerBody q handler arg (length (promises s))
                  (withNewPromise s)) p = Some x).
  { intros handler arg H.
    rewrite (handlerBody_keeps q handler arg (length (promises s))
               (withNewPromise s) p); [exact H|].
    destruct x as [[st v] r]. eapply settlement_isSettled; eauto. }
  destruct (status prq); [congruence| |];
    apply Hkeep, Happ; apply (withNewPromise_old s p pr Ep).
Qed.

(** X11.  The resolution procedure on a promise [q] of this
    implementation, for a pending promise [p] with its own capabilities:
    [p] is not settled by the call, which is [q.then(...)]; with no
    timer waiting, one turn of the loop later [p] is fulfilled with the
    value of a fulfilled [q] (when it is no thenable) or rejected with
    the reason of a rejected [q]; while [q] is pending [p] stays pending
    and no timer is set. *)
Theorem prp_adopts_promise (p q : nat) (pr prq : PromiseImpl) (s : State) :
  q <> p ->
  promises s !! p = Some pr -> status pr = STATUS_PENDING ->
  promises s !! q = Some prq -> timers s = [] ->
  let r := promiseResolutionProcedure p (VPromise q) (FResolve p) (FReject p) s in
  let final := tick (snd r) in
  fst r = Normal (VPromise (length (promises s)))
  /\ settlement (snd r) p = settlement s p
  /\ match status prq with
     | STATUS_FULFILLED =>
         isPlain (value prq) = true ->
         settlement final p = Some (STATUS_FULFILLED, value prq, reason pr)
     | STATUS_REJECTED =>
         settlement final p = Some (STATUS_REJECTED, value pr, reason prq)
     | STATUS_PENDING =>
         settlement final p = settlement s p /\ timers final = []
     end.
Proof.
  intros Hqp Ep Hst Eq Ht. cbv zeta.
  unfold promiseResolutionProcedure. cbn [prpOn].
  rewrite (proj2 (Nat.eqb_neq p q)) by congruence.
  pose proof (then_cases q prq (Some (FAdopt p (FResolve p) (FReject p)))
                (Some (FPass (FReject p))) s Eq) as Hthen. cbv zeta in Hthen.
  pose proof (lookup_lt_Some _ _ _ Ep) as Hlt.
  assert (Hsame : settlement
            (snd (then_ q (Some (FAdopt p (FResolve p) (FReject p)))
                    (Some (FPass (FReject p))) s)) p = settlement s p).
  { rewrite Hthen. cbn [snd].
    destruct (status prq); rewrite ?settlement_registeredStore;
      apply settlement_alloc; exact Hlt. }
  destruct (status prq) eqn:Hsq.
  - destruct (then_tick q prq (Some (FAdopt p (FResolve p) (FReject p)))
                (Some (FPass (FReject p))) s Eq Ht) as [_ Htick].
    rewrite Hsq in Htick.
    destruct (then_ q _ _ s) as [p2 s1] eqn:Et. cbn [fst snd] in *.
    split; [injection Hthen as -> _; reflexivity|]. split; [exact Hsame|].
    rewrite Htick. split.
    + rewrite settlement_registeredStore. apply settlement_alloc. exact Hlt.
    + cbn. exact Ht.
  - pose proof (fun Hv : isPlain (value prq) = true =>
      adopt_tick p q pr prq (FAdopt p (FResolve p) (FReject p))
        (FPass (FReject p)) s (STATUS_FULFILLED, value prq, reason pr)
        Eq Ht ltac:(congruence) ltac:(discriminate)) as H.
    rewrite Hsq in H.
    destruct (then_ q _ _ s) as [p2 s1] eqn:Et. cbn [fst snd] in *.
    split; [injection Hthen as -> _; reflexivity|]. split; [exact Hsame|].
    intros Hv. apply (H Hv); [|exact Ep].
    intros s2 E2.
    change (settlement
              (snd (promiseResolutionProcedure p (value prq) (FResolve p)
                      (FReject p) s2)) p
            = Some (STATUS_FULFILLED, value prq, reason pr)).
    rewrite (prp_plain _ _ _ _ Hv).
    apply (resolveFn_pending p pr); auto. apply isPlain_not_promise. exact Hv.
  - pose proof (adopt_tick p q pr prq (FAdopt p (FResolve p) (FReject p))
        (FPass (FReject p)) s (STATUS_REJECTED, value pr, reason prq)
        Eq Ht ltac:(congruence) ltac:(discriminate)) as H.
    rewrite Hsq in H.
    destruct (then_ q _ _ s) as [p2 s1] eqn:Et. cbn [fst snd] in *.
    split; [injection Hthen as -> _; reflexivity|]. split; [exact Hsame|].
    apply H; [|exact Ep].
    intros s2 E2. cbn [applyFn]. apply (rejectFn_pending p pr); auto.
Qed.

(** X12.  [_resolve] called with a promise [q] of this implementation
    does not fulfil its promise [p] with [q]: it calls [q.then]; with no
    timer waiting, one turn of the loop later [p] has the value or the
    reason of a settled [q].  While [q] is pending, so is [p], and
    nothing holds [p] to [q]: another call of [_resolve], with a value,
    fulfils [p] with that value. *)
Theorem resolve_with_promise (p q : nat) (pr prq : PromiseImpl) (v : Val)
    (s : State) :
  promises s !! p = Some pr -> status pr = STATUS_PENDING ->
  promises s !! q = Some prq -> timers s = [] ->
  let r := applyFn (FResolve p) (VPromise q) s in
  let final := tick (snd r) in
  fst r = Normal (VPromise (length (promises s)))
  /\ settlement (snd r) p = settlement s p
  /\ match status prq with
     | STATUS_FULFILLED =>
         isPromise (value prq) = false ->
         settlement final p = Some (STATUS_FULFILLED, value prq, reason pr)
     | STATUS_REJECTED =>
         settlement final p = Some (STATUS_REJECTED, value pr, reason prq)
     | STATUS_PENDING =>
         isPromise v = false ->
         settlement (snd (applyFn (FResolve p) v final)) p
         = Some (STATUS_FULFILLED, v, reason pr)
     end.
Proof.
  intros Ep Hst Eq Ht. cbv zeta. cbn [applyFn resolveFn].
  pose proof (then_cases q prq (Some (FPass (FResolve p)))
                (Some (FPass (FReject p))) s Eq) as Hthen. cbv zeta in Hthen.
  pose proof (lookup_lt_Some _ _ _ Ep) as Hlt.
  assert (Hsame : settlement
            (snd (then_ q (Some (FPass (FResolve p)))
                    (Some (FPass (FReject p))) s)) p = settlement s p).
  { rewrite Hthen. cbn [snd].
    destruct (status prq); rewrite ?settlement_registeredStore;
      apply settlement_alloc; exact Hlt. }
  destruct (status prq) eqn:Hsq.
  - destruct (then_tick q prq (Some (FPass (FResolve p)))
                (Some (FPass (FReject p))) s Eq Ht) as [_ Htick].
    rewrite Hsq in Htick.
    destruct (then_ q _ _ s) as [p2 s1] eqn:Et. cbn [fst snd] in *.
    split; [injection Hthen as -> _; reflexivity|]. split; [exact Hsame|].
    intros Hv. rewrite Htick.
    assert (E' : exists pr', promises (registeredStore q
                   (TFulfilled q (default FIdentity (Some (FPass (FResolve p))))
                      (length (promises s)))
                   (TRejected q (default FThrower (Some (FPass (FReject p))))
                      (length (promises s)))
                   (withNewPromise s)) !! p = Some pr'
                 /\ status pr' = STATUS_PENDING /\ reason pr' = reason pr).
    { cbn [registeredStore promises setPromises].
      destruct (decide (q = p)) as [->|Hne].
      - rewrite list_lookup_alter_eq, (withNewPromise_old s p pr Ep). cbn.
        eexists. split; [reflexivity|]. cbn. auto.
      - rewrite list_lookup_alter_ne by exact Hne.
        rewrite (withNewPromise_old s p pr Ep). eauto. }
    destruct E' as (pr' & E' & Hst' & Hr').
    rewrite (resolveFn_pending p pr' v _ E' Hst' Hv), Hr'. reflexivity.
  - pose proof (fun Hv : isPromise (value prq) = false =>
      adopt_tick p q pr prq (FPass (FResolve p))
        (FPass (FReject p)) s (STATUS_FULFILLED, value prq, reason pr)
        Eq Ht ltac:(congruence) ltac:(discriminate)) as H.
    rewrite Hsq in H.
    destruct (then_ q _ _ s) as [p2 s1] eqn:Et. cbn [fst snd] in *.
    split; [injection Hthen as -> _; reflexivity|]. split; [exact Hsame|].
    intros Hv. apply (H Hv); [|exact Ep].
    intros s2 E2. cbn [applyFn]. apply (resolveFn_pending p pr); auto.
  - pose proof (adopt_tick p q pr prq (FPass (FResolve p))
        (FPass (FReject p)) s (STATUS_REJECTED, value pr, reason prq)
        Eq Ht ltac:(congruence) ltac:(discriminate)) as H.
    rewrite Hsq in H.
    destruct (then_ q _ _ s) as [p2 s1] eqn:Et. cbn [fst snd] in *.
    split; [injection Hthen as -> _; reflexivity|]. split; [exact Hsame|].
    apply H; [|exact Ep].
    intros s2 E2. cbn [applyFn]. apply (rejectFn_pending p pr); auto.
Qed.


(** ** Callbacks are queued in the order of the calls of [then] *)

(** [this.then(...)] called once for each pair of [hs], in turn. *)
Definition thenEach (this : nat) (hs : list (option Fn * option Fn))
    (s : State) : State :=
  fold_left (fun acc h => snd (then_ this (fst h) (snd h) acc)) hs s.

Definition fulfilTimerAt (this p : nat) (i : nat) (h : option Fn * option Fn)
  : Task := TFulfilled this (default FIdentity (fst h)) (p + i).
Definition rejectTimerAt (this p : nat) (i : nat) (h : option Fn * option Fn)
  : Task := TRejected this (default FThrower (snd h)) (p + i).

Lemma thenEach_pending this : forall hs s pr,
  promises s !! this = Some pr -> status pr = STATUS_PENDING ->
  exists pr',
    promises (thenEach this hs s) !! this = Some pr'
    /\ status pr' = STATUS_PENDING
    /\ onFulfilledCbs pr'
       = onFulfilledCbs pr
         ++ (Defer <$> imap (fulfilTimerAt this (length (promises s))) hs)
    /\ onRejectedCbs pr'
       = onRejectedCbs pr
         ++ (Defer <$> imap (rejectTimerAt this (length (promises s))) hs)
    /\ timers (thenEach this hs s) = timers s.
Proof.
  induction hs as [|h hs IH]; intros s pr E Hst.
  - exists pr. cbn. rewrite !app_nil_r. auto.
  - cbn [thenEach fold_left]. fold (thenEach this hs).
    rewrite (then_cases this pr (fst h) (snd h) s E). cbv zeta. rewrite Hst.
    cbn [snd].
    set (s1 := registeredStore this _ _ (withNewPromise s)).
    assert (E1 : promises s1 !! this
                 = Some (mkPromise (status pr) (value pr) (reason pr)
                     (onFulfilledCbs pr ++ [Defer (fulfilTimerAt this (length (promises s)) 0 h)])
                     (onRejectedCbs pr ++ [Defer (rejectTimerAt this (length (promises s)) 0 h)]))).
    { unfold s1. cbn [registeredStore promises setPromises].
      rewrite list_lookup_alter_eq, (withNewPromise_old s this pr E).
      unfold fulfilTimerAt, rejectTimerAt. rewrite !Nat.add_0_r. reflexivity. }
    destruct (IH s1 _ E1 Hst) as (pr' & E' & Hst' & Hf & Hr & Ht).
    exists pr'. split; [exact E'|]. split; [exact Hst'|].
    assert (Hlen : length (promises s1) = S (length (promises s))).
    { unfold s1. cbn. rewrite length_alter, length_app. cbn. lia. }
    rewrite Hlen in Hf, Hr. cbn [onFulfilledCbs onRejectedCbs] in Hf, Hr.
    rewrite !imap_cons. cbn [fmap list_fmap].
    split; [|split].
    + rewrite Hf, <- app_assoc. cbn [app]. do 3 f_equal.
      apply imap_ext. intros i x _. unfold fulfilTimerAt. cbn. f_equal. lia.
    + rewrite Hr, <- app_assoc. cbn [app]. do 3 f_equal.
      apply imap_ext. intros i x _. unfold rejectTimerAt. cbn. f_equal. lia.
    + exact Ht.
Qed.

Lemma cbTask_Defer (ts : list Task) : cbTask <$> (Defer <$> ts) = ts.
Proof. induction ts as [|t ts IH]; cbn; [reflexivity|]. f_equal. exact IH. Qed.

(** X13.  When a pending promise is settled, the timers of its
    callbacks are set in the order in which [then] was called: behind
    the timers already set come those of the callbacks it had, then, in
    turn, those of the calls of [then] made since, each for the
    [promise2] of its call. *)
Theorem callbacks_in_order_of_then (this : nat) (pr : PromiseImpl)
    (hs : list (option Fn * option Fn)) (v : Val) (s : State) :
  promises s !! this = Some pr -> status pr = STATUS_PENDING ->
  let p := length (promises s) in
  let s' := thenEach this hs s in
  timers s' = timers s
  /\ (isPromise v = false ->
      timers (snd (applyFn (FResolve this) v s'))
      = timers s ++ (cbTask <$> onFulfilledCbs pr)
          ++ imap (fulfilTimerAt this p) hs)
  /\ timers (snd (applyFn (FReject this) v s'))
     = timers s ++ (cbTask <$> onRejectedCbs pr)
         ++ imap (rejectTimerAt this p) hs.
Proof.
  intros E Hst. cbv zeta.
  destruct (thenEach_pending this hs s pr E Hst) as (pr' & E' & Hst' & Hf & Hr & Ht).
  split; [exact Ht|]. cbn [applyFn]. split.
  - intros Hv. rewrite (resolveFn_plain _ _ _ Hv), E', Hst'. cbn [snd].
    rewrite timers_settledStore, Ht, Hf, fmap_app, cbTask_Defer. reflexivity.
  - rewrite rejectFn_cases, E', Hst'. cbn [snd].
    rewrite timers_settledStore, Ht, Hr, fmap_app, cbTask_Defer. reflexivity.
Qed.

Lemma settlement_withNewPromise s q :
  q <> length (promises s) ->
  settlement (withNewPromise s) q = settlement s q.
Proof.
  intros Hq. unfold settlement. cbn.
  destruct (decide (q < length (promises s))) as [Hlt|Hge].
  - rewrite lookup_app_l by exact Hlt. reflexivity.
  - rewrite !lookup_ge_None_2; [reflexivity|lia|].
    rewrite length_app. cbn. lia.
Qed.

(** X14.  [then] settles nothing: it returns a new promise, pending,
    and every other promise has the status, value and reason it had,
    whatever the status of the source and whatever the handlers. *)
Theorem then_settles_nothing (this : nat) (pr : PromiseImpl)
    (onFulfilled onRejected : option Fn) (s : State) :
  promises s !! this = Some pr ->
  let promise2 := fst (then_ this onFulfilled onRejected s) in
  let s' := snd (then_ this onFulfilled onRejected s) in
  promise2 = length (promises s)
  /\ settlement s' promise2 = Some (STATUS_PENDING, VNull, VNull)
  /\ forall q, q <> promise2 -> settlement s' q = settlement s q.
Proof.
  intros E. cbv zeta. rewrite (then_cases this pr onFulfilled onRejected s E).
  cbn [fst snd]. split; [reflexivity|].
  assert (Hnew : settlement (withNewPromise s) (length (promises s))
                 = Some (STATUS_PENDING, VNull, VNull)).
  { unfold settlement. rewrite withNewPromise_new. reflexivity. }
  split.
  - destruct (status pr); rewrite ?settlement_registeredStore; exact Hnew.
  - intros q Hq.
    destruct (status pr); rewrite ?settlement_registeredStore;
      apply settlement_withNewPromise; exact Hq.
Qed.


(** ** An invariant of every store the program can reach *)

Lemma liveOk_any s : liveOk anyId anyId nobody s.
Proof.
  split.
  - apply Forall_forall. intros t _. left. apply taskOk_any.
  - intros r pr _ _. split; apply Forall_forall; intros cb _; left;
      apply taskOk_any.
Qed.

(** X15.  Whatever the program does (calls of closures, of [then], of
    the static methods, timers firing), starting from a well-formed
    store such as the empty one: no promise is ever fulfilled with a
    promise of this implementation ([_resolve] always goes through
    [then] for those), and every timer of [then] in the queue has a
    source that is settled the way the timer expects, so that the value
    or reason it will read is there. *)
Theorem reachable_stores_well_formed (s : State) (acts : list Action) :
  wellFormedb s = true ->
  let s' := performAll acts s in
  (forall q pr, promises s' !! q = Some pr -> status pr = STATUS_FULFILLED ->
                isPromise (value pr) = false)
  /\ Forall (timerReady s') (timers s').
Proof.
  intros Hwf. apply wellFormedb_sound in Hwf. cbv zeta.
  assert (HK : kept anyId anyId nobody (fun _ => True) (performAll acts s)).
  { apply (performAll_kept anyId anyId nobody (fun _ => True));
      try (intros; exact I).
    - intros t rest s0 _ [].
    - apply forallb_forall. intros a _. apply actionOk_any.
    - split; [|exact I]. split; [|exact Hwf|apply liveOk_any].
      split; intros; reflexivity. }
  destruct HK as [[_ Hwf' _] _]. split.
  - apply (wf_values _ Hwf').
  - apply (wf_timers _ Hwf').
Qed.

(** ** A handler is called once *)

Lemma run_idle n : forall s, timers s = [] -> run n s = s.
Proof.
  induction n as [|n IH]; intros s Ht; cbn [run]; [reflexivity|].
  unfold tick. rewrite Ht. apply IH. exact Ht.
Qed.

(** A handler whose result settles [promise2] at once. *)
Definition settlesAtOnce (o : Outcome) : Prop :=
  match o with
  | Normal x => isPlain x = true
  | Thrown _ => True
  end.

(** Then the timer of [then] sets no timer, [promise2] having no
    callback yet. *)
Lemma handlerBody_timers this handler arg promise2 o s :
  returns handler arg o -> settlesAtOnce o ->
  promises s !! promise2 = Some pendingPromise ->
  timers (handlerBody this handler arg promise2 s) = timers s.
Proof.
  intros Hh Ho E. unfold handlerBody. rewrite Hh. destruct o as [x|e].
  - cbn in Ho. rewrite (prp_plain _ _ _ _ Ho).
    rewrite (resolveFn_plain _ _ _ (isPlain_not_promise _ Ho)).
    cbn [newCalled snd promises setCalledVars logHandler setHandlerLog].
    rewrite E. cbn [status pendingPromise snd].
    rewrite timers_settledStore. cbn. apply app_nil_r.
  - rewrite rejectFn_cases.
    cbn [promises logHandler setHandlerLog]. rewrite E.
    cbn [status pendingPromise snd].
    rewrite timers_settledStore. cbn. apply app_nil_r.
Qed.



(** ** [all] over values that are no thenables *)

Lemma arraySet_append arr v :
  arraySet arr (length arr) v = arr ++ [Some v].
Proof. induction arr as [|slot arr IH]; cbn; [reflexivity|]. rewrite IH. reflexivity. Qed.

Lemma setAllVars_twice vs vs' s :
  setAllVars vs (setAllVars vs' s) = setAllVars vs s.
Proof. reflexivity. Qed.

Section AllValues.

(** [iterable] is an array or a string, with elements [xs]; [p] is the
    promise that [all] returns and [c] its variables. *)
Variables (iterable : Val) (xs : list Val) (p c : nat).

Hypothesis iterable_xs : forall s, arrayOf s iterable = Some xs.

(** The store when the loop has stored the first [k] elements. *)
Definition valuesState (k : nat) (s0 : State) : State :=
  setAllVars (<[c := mkAllVars (Some <$> take k xs) k]> (allVars s0)) s0.

Lemma lengthOf_iterable s : lengthOf s iterable = Some (length xs).
Proof using iterable_xs. unfold lengthOf. rewrite iterable_xs. reflexivity. Qed.

Lemma elemAt_iterable s k x : xs !! k = Some x -> elemAt s iterable k = x.
Proof using iterable_xs.
  intros Hx. unfold elemAt. rewrite iterable_xs. cbn. rewrite Hx. reflexivity.
Qed.

(** One turn of the loop on a value that is no thenable, not the last. *)
Lemma processRes_value k x s0 :
  xs !! k = Some x -> c < length (allVars s0) ->
  processRes (resolveFn p) c iterable k x (valuesState k s0)
  = if bool_decide (length xs = S k)
    then match resolveFn p (VRes c) (valuesState (S k) s0) with
         | (Normal _, s2) => (Normal VUndefined, s2)
         | (Thrown e, s2) => (Thrown e, s2)
         end
    else (Normal VUndefined, valuesState (S k) s0).
Proof using iterable_xs.
  intros Hx Hc. unfold processRes.
  assert (E : allVars (valuesState k s0) !! c
              = Some (mkAllVars (Some <$> take k xs) k)).
  { cbn. apply list_lookup_insert_eq. exact Hc. }
  rewrite E. cbv zeta. cbn [res fulfilledCount].
  assert (Hk : k <= length xs) by (apply lookup_lt_Some in Hx; lia).
  replace (arraySet (Some <$> take k xs) k x) with (Some <$> take (S k) xs).
  2:{ rewrite (take_S_r _ _ _ Hx), fmap_app. cbn.
      rewrite <- arraySet_append. f_equal.
      rewrite length_fmap, length_take. lia. }
  replace (setAllVars _ (valuesState k s0)) with (valuesState (S k) s0).
  2:{ unfold valuesState. rewrite setAllVars_twice. f_equal. cbn.
      rewrite list_insert_insert_eq. reflexivity. }
  rewrite lengthOf_iterable.
  destruct (decide (length xs = S k)) as [Hn|Hn].
  - rewrite !bool_decide_eq_true_2 by congruence. reflexivity.
  - rewrite !bool_decide_eq_false_2 by congruence. reflexivity.
Qed.

(** The loop over [d] values that are no thenables, none the last. *)
Lemma allLoop_skip_values d : forall k m s0,
  (forall i x, k <= i < k + d -> xs !! i = Some x -> testThen x = NoThen) ->
  k + d < length xs -> c < length (allVars s0) ->
  allLoop p c iterable (d + m) k (valuesState k s0)
  = allLoop p c iterable m (k + d) (valuesState (k + d) s0).
Proof using iterable_xs.
  induction d as [|d IH]; intros k m s0 Hval Hlt Hc.
  - rewrite Nat.add_0_r. reflexivity.
  - cbn [Nat.add allLoop]. rewrite lengthOf_iterable.
    rewrite (proj2 (Nat.ltb_lt k (length xs))) by lia.
    destruct (lookup_lt_is_Some_2 xs k) as [x Hx]; [lia|].
    rewrite (elemAt_iterable _ k x Hx).
    rewrite (Hval k x ltac:(lia) Hx).
    rewrite (processRes_value k x s0 Hx Hc).
    rewrite bool_decide_eq_false_2 by lia.
    rewrite (IH (S k) m s0); [|intros i y Hi; apply Hval; lia|lia|exact Hc].
    replace (S k + d) with (k + S d) by lia. reflexivity.
Qed.

End AllValues.

Lemma valuesState_start (xs : list Val) s :
  valuesState xs (length (allVars s)) 0 (allStart s) = allStart s.
Proof.
  unfold valuesState, allStart. cbn.
  rewrite insert_app_r_alt by lia. rewrite Nat.sub_diag. reflexivity.
Qed.

(** [all], for any iterable. *)
Lemma all_unfold_iterable iterable xs s :
  isIterable iterable = true ->
  (forall s', arrayOf s' iterable = Some xs) ->
  all iterable s
  = let this := length (promises s) in
    match
      match length xs with
      | 0 => resolveFn this (VRes (length (allVars s))) (allStart s)
      | S _ => allLoop this (length (allVars s)) iterable (length xs) 0
                 (allStart s)
      end
    with
    | (Normal _, s2) => (Normal (VPromise this), s2)
    | (Thrown e, s2) => (Normal (VPromise this), snd (rejectFn this e s2))
    end.
Proof.
  intros Hit Hxs. unfold all. rewrite Hit. unfold construct, allExecutor.
  change (setAllVars _ (setPromises (promises s ++ [pendingPromise]) s))
    with (allStart s).
  rewrite (lengthOf_iterable iterable xs Hxs).
  cbn [allVars setPromises]. cbv zeta. destruct (length xs).
  - destruct (resolveFn _ _ _) as [[?|?] ?]; reflexivity.
  - destruct (allLoop _ _ _ _ _ _) as [[?|?] ?]; reflexivity.
Qed.

Lemma valuesState_promises xs c k s0 :
  promises (valuesState xs c k s0) = promises s0.
Proof. reflexivity. Qed.

(** X17.  [all] over an array or a string whose elements are all values
    that are no thenables (in particular over the empty array) returns
    a promise that is fulfilled already, with an array of the same
    elements in the same order; no timer is set. *)
Theorem all_of_values_is_fulfilled (iterable : Val) (xs : list Val)
    (s : State) :
  isIterable iterable = true ->
  (forall s', arrayOf s' iterable = Some xs) ->
  Forall (fun x => testThen x = NoThen) xs ->
  let p := length (promises s) in
  let c := length (allVars s) in
  let s' := snd (all iterable s) in
  fst (all iterable s) = Normal (VPromise p)
  /\ settlement s' p = Some (STATUS_FULFILLED, VRes c, VNull)
  /\ arrayOf s' (VRes c) = Some xs
  /\ timers s' = timers s.
Proof.
  intros Hit Hxs Hval. cbv zeta.
  rewrite (all_unfold_iterable iterable xs s Hit Hxs). cbv zeta.
  set (p := length (promises s)). set (c := length (allVars s)).
  assert (Hc : c < length (allVars (allStart s))).
  { unfold c. cbn. rewrite length_app. cbn. lia. }
  assert (Ep0 : forall k, promises (valuesState xs c k (allStart s)) !! p
                          = Some pendingPromise).
  { intros k. rewrite valuesState_promises. unfold allStart.
    cbn [promises setAllVars]. fold (withNewPromise s). apply withNewPromise_new. }
  assert (Hlast : forall k, resolveFn p (VRes c) (valuesState xs c k (allStart s))
            = (Normal VUndefined,
               snd (resolveFn p (VRes c) (valuesState xs c k (allStart s))))).
  { intros k. rewrite resolveFn_plain by reflexivity. rewrite Ep0. reflexivity. }
  assert (Hrun : match length xs with
                 | 0 => resolveFn p (VRes c) (allStart s)
                 | S _ => allLoop p c iterable (length xs) 0 (allStart s)
                 end
                 = (Normal VUndefined,
                    snd (resolveFn p (VRes c)
                           (valuesState xs c (length xs) (allStart s))))).
  { remember (length xs) as n eqn:Hn. destruct n as [|n].
    - rewrite <- (valuesState_start xs s) at 1. fold c. apply Hlast.
    - rewrite <- (valuesState_start xs s) at 1. fold c.
      replace (S n) with (n + 1) at 1 by lia.
      rewrite (allLoop_skip_values iterable xs p c Hxs n 0 1 (allStart s));
        [|intros i x _ Hx; exact (proj1 (Forall_lookup _ _) Hval i x Hx)
         |lia|exact Hc].
      cbn [Nat.add allLoop]. rewrite (lengthOf_iterable iterable xs Hxs).
      rewrite (proj2 (Nat.ltb_lt n (length xs))) by lia.
      destruct (lookup_lt_is_Some_2 xs n) as [x Hx]; [lia|].
      rewrite (elemAt_iterable iterable xs Hxs _ n x Hx).
      rewrite (proj1 (Forall_lookup _ _) Hval n x Hx).
      rewrite (processRes_value iterable xs p c Hxs n x (allStart s) Hx Hc).
      rewrite bool_decide_eq_true_2 by lia.
      rewrite Hlast. reflexivity. }
  set (last := valuesState xs c (length xs) (allStart s)) in *.
  rewrite Hrun. cbn [fst snd]. split; [reflexivity|].
  rewrite resolveFn_plain by reflexivity.
  assert (Ep : promises last !! p = Some pendingPromise) by apply Ep0.
  rewrite Ep. cbn [status pendingPromise snd reason onFulfilledCbs onRejectedCbs].
  split; [|split].
  - rewrite settlement_settledStore_eq by (eapply lookup_lt_Some; eauto).
    reflexivity.
  - cbn [arrayOf]. rewrite settledStore_no_callbacks. cbn [allVars setPromises].
    unfold last, valuesState. cbn [allVars setAllVars].
    rewrite list_lookup_insert_eq by exact Hc. cbn.
    rewrite firstn_all, <- list_fmap_compose. f_equal.
    apply list_fmap_id.
  - rewrite timers_settledStore. cbn. apply app_nil_r.
Qed.

(** X18.  [all] over an array that has, behind values that are no
    thenables, an element whose [then] throws when read: the promise
    returned is rejected already with what was thrown, and the loop has
    stopped there: no [then] was called (no promise but the one
    returned was created) and no timer was set. *)
Theorem all_rejects_when_then_throws (values rest : list Val) (callable : bool)
    (e : Val) (s : State) :
  Forall (fun x => testThen x = NoThen) values ->
  let xs := values ++ VObj callable (ThenGetterThrows e) :: rest in
  let p := length (promises s) in
  let s' := snd (all (VArr xs) s) in
  fst (all (VArr xs) s) = Normal (VPromise p)
  /\ settlement s' p = Some (STATUS_REJECTED, VNull, e)
  /\ length (promises s') = S (length (promises s))
  /\ timers s' = timers s.
Proof.
  intros Hval xs. cbv zeta.
  assert (Hxs : forall s', arrayOf s' (VArr xs) = Some xs) by reflexivity.
  rewrite (all_unfold_iterable (VArr xs) xs s eq_refl Hxs). cbv zeta.
  set (p := length (promises s)). set (c := length (allVars s)).
  set (j := length values).
  assert (Hlen : length xs = j + S (length rest)).
  { unfold xs, j. rewrite length_app. reflexivity. }
  assert (Hj : xs !! j = Some (VObj callable (ThenGetterThrows e))).
  { unfold xs, j. apply list_lookup_middle. reflexivity. }
  assert (Hc : c < length (allVars (allStart s))).
  { unfold c. cbn. rewrite length_app. cbn. lia. }
  assert (Hrun : match length xs with
                 | 0 => resolveFn p (VRes c) (allStart s)
                 | S _ => allLoop p c (VArr xs) (length xs) 0 (allStart s)
                 end
                 = (Thrown e, valuesState xs c j (allStart s))).
  { rewrite Hlen. replace (j + S (length rest)) with (S (j + length rest)) by lia.
    cbv iota. rewrite <- (valuesState_start xs s) at 1. fold c.
    replace (S (j + length rest)) with (j + S (length rest)) by lia.
    rewrite (allLoop_skip_values (VArr xs) xs p c Hxs j 0 (S (length rest))
               (allStart s)); [| |lia|exact Hc].
    - cbn [Nat.add allLoop]. rewrite (lengthOf_iterable (VArr xs) xs Hxs).
      rewrite (proj2 (Nat.ltb_lt j (length xs))) by lia.
      rewrite (elemAt_iterable (VArr xs) xs Hxs _ j _ Hj). reflexivity.
    - intros i x Hi Hx. unfold xs in Hx. rewrite lookup_app_l in Hx by (fold j; lia).
      exact (proj1 (Forall_lookup _ _) Hval i x Hx). }
  rewrite Hrun. cbn [fst snd]. split; [reflexivity|].
  rewrite rejectFn_cases, valuesState_promises.
  unfold allStart. cbn [promises setAllVars]. fold (withNewPromise s).
  unfold p. rewrite withNewPromise_new.
  cbn [status pendingPromise snd value onFulfilledCbs onRejectedCbs].
  split; [|split].
  - rewrite settlement_settledStore_eq; [reflexivity|].
    cbn. rewrite length_app. cbn. lia.
  - rewrite promises_settledStore, length_insert. cbn.
    rewrite length_app. cbn. lia.
  - rewrite timers_settledStore. cbn. apply app_nil_r.
Qed.


(** ** [allSettled] over promises of this implementation and values *)

(** *** More capabilities allowed, the same store *)

Lemma fnOk_mono (okP okP' okC okC' : nat -> bool) f :
  (forall n, okP n = true -> okP' n = true) ->
  (forall n, okC n = true -> okC' n = true) ->
  fnOk okP okC f = true -> fnOk okP' okC' f = true.
Proof.
  intros HP HC. induction f; cbn; auto;
    rewrite ?andb_true_iff; intuition auto.
Qed.

Lemma taskOk_mono (okP okP' okC okC' : nat -> bool) t :
  (forall n, okP n = true -> okP' n = true) ->
  (forall n, okC n = true -> okC' n = true) ->
  taskOk okP okC t = true -> taskOk okP' okC' t = true.
Proof.
  intros HP HC. destruct t; cbn; rewrite !andb_true_iff;
    intros [H1 H2]; split; eauto using fnOk_mono.
Qed.

Lemma actionOk_mono (okP okP' okC okC' : nat -> bool) a :
  (forall n, okP n = true -> okP' n = true) ->
  (forall n, okC n = true -> okC' n = true) ->
  actionOk okP okC a = true -> actionOk okP' okC' a = true.
Proof.
  intros HP HC. destruct a; cbn; auto; [eauto using fnOk_mono|].
  rewrite !andb_true_iff. intros [H1 H2].
  destruct onFulfilled, onRejected; cbn in *; eauto using fnOk_mono.
Qed.

Lemma actionsOk_mono (okP okP' okC okC' : nat -> bool) acts :
  (forall n, okP n = true -> okP' n = true) ->
  (forall n, okC n = true -> okC' n = true) ->
  forallb (actionOk okP okC) acts = true ->
  forallb (actionOk okP' okC') acts = true.
Proof.
  intros HP HC H. rewrite forallb_forall in *. intros a Ha.
  eapply actionOk_mono; eauto.
Qed.

(** Every timer and callback in use is allowed for [okP], [okC], or is
    one of [mine]: so it is for more capabilities and more of [mine]. *)
Lemma liveOk_mono (okP okP' okC okC' : nat -> bool) (mine mine' : Task -> Prop) s :
  (forall t, allowed okP okC mine t -> allowed okP' okC' mine' t) ->
  liveOk okP okC mine s -> liveOk okP' okC' mine' s.
Proof.
  intros Ha [H1 H2]. split.
  - eapply Forall_impl; [exact H1 | exact Ha].
  - intros r pr E Hst. destruct (H2 r pr E Hst) as [Hf Hr].
    split; (eapply Forall_impl; [eassumption|]); intros cb; apply Ha.
Qed.

Lemma owned_head_ready okP okC mine t rest s :
  timers s = t :: rest -> owned okP okC mine s -> timerReady s t.
Proof.
  intros Et Ho. pose proof (wf_timers _ (owned_wf _ _ _ _ Ho)) as Hr.
  rewrite Et in Hr. inversion Hr; subst; assumption.
Qed.

(** *** The promises that carry the records *)

Section Records.

(** [pairs] lists, for each element, the promise that static [resolve]
    gave for it and the [promise2] of the [then] that makes its
    record. *)
Variable pairs : list (nat * nat).

Hypothesis pairs_fun :
  forall src src' p2, (src, p2) ∈ pairs -> (src', p2) ∈ pairs -> src = src'.

Definition isRecordTask (t : Task) : Prop :=
  exists src p2,
    (src, p2) ∈ pairs
    /\ (t = TFulfilled src FFulfilledRecord p2
        \/ t = TRejected src FRejectedRecord p2).

(** No capability of a [promise2] of [pairs]. *)
Definition notRecord (n : nat) : bool :=
  forallb (fun pair => negb (Nat.eqb n (snd pair))) pairs.

Lemma notRecord_true n src p2 :
  notRecord n = true -> (src, p2) ∈ pairs -> n <> p2.
Proof.
  unfold notRecord. rewrite forallb_forall. intros H Hin.
  specialize (H (src, p2) (proj1 (list_elem_of_In _ _) Hin)). cbn in H.
  apply negb_true_iff, Nat.eqb_neq in H. exact H.
Qed.

(** The [promise2] of a pair is pending, or fulfilled with the record of
    the settlement of its source. *)
Definition recordOk (s : State) (pair : nat * nat) : Prop :=
  match settlement s (snd pair) with
  | Some (STATUS_PENDING, _, _) => True
  | Some (STATUS_FULFILLED, v, _) =>
      match settlement s (fst pair) with
      | Some (STATUS_FULFILLED, w, _) => v = VSettled STATUS_FULFILLED w
      | Some (STATUS_REJECTED, _, r) => v = VSettled STATUS_REJECTED r
      | _ => False
      end
  | _ => False
  end.

Definition recordsInv (s : State) : Prop := Forall (recordOk s) pairs.

Definition recordsKept : State -> Prop :=
  kept notRecord anyId isRecordTask recordsInv.

Lemma recordOk_same s s' pair :
  (forall q x, settlement s q = Some x -> settlement s' q = Some x) ->
  recordOk s pair -> recordOk s' pair.
Proof.
  intros H. unfold recordOk.
  destruct (settlement s (snd pair)) as [[[st v] r]|] eqn:E2; [|contradiction].
  rewrite (H _ _ E2). destruct st; trivial.
  destruct (settlement s (fst pair)) as [[[st1 v1] r1]|] eqn:E1; [|contradiction].
  rewrite (H _ _ E1). trivial.
Qed.

Lemma recordsInv_same s s' :
  (forall q x, settlement s q = Some x -> settlement s' q = Some x) ->
  recordsInv s -> recordsInv s'.
Proof.
  intros H HI. eapply Forall_impl; [exact HI|].
  intros pair. apply recordOk_same. exact H.
Qed.

Lemma recordsInv_same_promises s s' :
  promises s' = promises s -> recordsInv s -> recordsInv s'.
Proof.
  intros E. apply recordsInv_same. intros q x. unfold settlement.
  rewrite E. trivial.
Qed.

(** A pending promise [r] is settled: the pairs of which it is not the
    [promise2] are as they were. *)
Lemma recordOk_settle s s' r v0 r0 pair :
  settlement s r = Some (STATUS_PENDING, v0, r0) ->
  (forall q, q <> r -> settlement s' q = settlement s q) ->
  snd pair <> r ->
  recordOk s pair -> recordOk s' pair.
Proof.
  intros Hr Hother Hp2. unfold recordOk. rewrite (Hother _ Hp2).
  destruct (settlement s (snd pair)) as [[[[] v] rr]|]; trivial.
  destruct (decide (fst pair = r)) as [->|Hne].
  - rewrite Hr. contradiction.
  - rewrite (Hother _ Hne). trivial.
Qed.

Lemma settled_store_other s r pr' fns q :
  q <> r -> settlement (settledStore r pr' fns s) q = settlement s q.
Proof. intros H. apply settlement_settledStore. congruence. Qed.

Lemma recordsExtra_settle s r pr st v rr fns :
  notRecord r = true ->
  promises s !! r = Some pr -> status pr = STATUS_PENDING ->
  (st = STATUS_FULFILLED /\ isPromise v = false /\ rr = reason pr
     /\ fns = onFulfilledCbs pr
   \/ st = STATUS_REJECTED /\ v = value pr /\ fns = onRejectedCbs pr) ->
  owned notRecord anyId isRecordTask s -> recordsInv s ->
  recordsInv
    (settledStore r (mkPromise st v rr (onFulfilledCbs pr) (onRejectedCbs pr))
       fns s).
Proof.
  intros Hr E Hst _ _ H. unfold recordsInv in *.
  rewrite Forall_forall in *. intros [src p2] Hin.
  apply (recordOk_settle s _ r (value pr) (reason pr)).
  - unfold settlement. rewrite E. cbn. rewrite Hst. reflexivity.
  - intros q Hq. apply settled_store_other. exact Hq.
  - cbn. intros <-. exact (notRecord_true _ src p2 Hr Hin eq_refl).
  - apply H. exact Hin.
Qed.

Lemma recordsExtra_alloc s :
  owned notRecord anyId isRecordTask s -> recordsInv s ->
  recordsInv (setPromises (promises s ++ [pendingPromise]) s).
Proof.
  intros _. apply recordsInv_same. intros q x E.
  rewrite settlement_alloc; [exact E|]. eapply settlement_lt; eauto.
Qed.

Lemma recordsExtra_register s this f g promise2 :
  fnOk notRecord anyId f = true -> fnOk notRecord anyId g = true ->
  notRecord promise2 = true ->
  statusOf s this = Some STATUS_PENDING ->
  owned notRecord anyId isRecordTask s -> recordsInv s ->
  recordsInv (registeredStore this (TFulfilled this f promise2)
                (TRejected this g promise2) s).
Proof.
  intros _ _ _ _ _. apply recordsInv_same. intros q x E.
  rewrite settlement_registeredStore. exact E.
Qed.

Ltac records_extra :=
  first [ solve [intros; eapply recordsInv_same_promises; [|eassumption];
                 reflexivity]
        | exact recordsExtra_alloc | exact recordsExtra_settle
        | exact recordsExtra_register ].

Lemma records_prp_plain_kept p2 x s :
  isPlain x = true ->
  (forall pr2 src, promises s !! p2 = Some pr2 -> status pr2 = STATUS_PENDING ->
     (src, p2) ∈ pairs ->
     match settlement s src with
     | Some (STATUS_FULFILLED, w, _) => x = VSettled STATUS_FULFILLED w
     | Some (STATUS_REJECTED, _, r) => x = VSettled STATUS_REJECTED r
     | _ => False
     end) ->
  recordsKept s ->
  recordsKept (snd (promiseResolutionProcedure p2 x (FResolve p2) (FReject p2) s)).
Proof using pairs_fun.
  intros Hx Hval [Ho HI]. rewrite (prp_plain _ _ _ _ Hx). cbn [snd].
  set (sN := snd (newCalled s)).
  assert (HoN : owned notRecord anyId isRecordTask sN).
  { eapply owned_same; [| | |exact Ho]; reflexivity. }
  assert (HIN : recordsInv sN).
  { eapply recordsInv_same_promises; [|exact HI]. reflexivity. }
  rewrite (resolveFn_plain _ _ _ (isPlain_not_promise _ Hx)).
  change (promises sN) with (promises s).
  destruct (promises s !! p2) as [pr2|] eqn:E2; [|split; assumption].
  destruct (status pr2) eqn:Hst2; cbn [snd]; try (split; assumption).
  split.
  { apply owned_settle; auto. left. repeat split.
    apply isPlain_not_promise. exact Hx. }
  unfold recordsInv in *. rewrite Forall_forall in *. intros [src q2] Hin.
  destruct (decide (q2 = p2)) as [->|Hne].
  - specialize (Hval pr2 src eq_refl Hst2 Hin). unfold recordOk. cbn [fst snd].
    rewrite settlement_settledStore_eq by (eapply lookup_lt_Some; eauto).
    cbn [status value reason].
    assert (Hsrc : src <> p2).
    { intros ->. unfold settlement in Hval. change (promises sN) with (promises s) in Hval.
      rewrite E2 in Hval. cbn in Hval. rewrite Hst2 in Hval. exact Hval. }
    rewrite settled_store_other by exact Hsrc.
    change (settlement sN src) with (settlement s src).
    destruct (settlement s src) as [[[[] w] r]|]; try contradiction; exact Hval.
  - apply (recordOk_settle sN _ p2 (value pr2) (reason pr2)).
    + unfold settlement. change (promises sN) with (promises s).
      rewrite E2. cbn. rewrite Hst2. reflexivity.
    + intros q Hq. apply settled_store_other. exact Hq.
    + exact Hne.
    + apply HIN. exact Hin.
Qed.

Lemma recordTask_runs t rest s :
  timers s = t :: rest -> isRecordTask t ->
  recordsKept s -> recordsKept (runTask t (setTimers rest s)).
Proof using pairs_fun.
  intros Et (src & p2 & Hin & Ht) HK.
  pose proof (owned_head_ready _ _ _ _ _ _ Et (proj1 HK)) as Hready.
  assert (HKL : forall ev, recordsKept (logHandler ev (setTimers rest s))).
  { intros ev. destruct HK as [Ho HI]. split.
    - eapply owned_same; [| | |eapply owned_pop; eauto]; reflexivity.
    - eapply recordsInv_same_promises; [|exact HI]. reflexivity. }
  assert (Hrest : forall x sL,
    isPlain x = true -> recordsKept sL ->
    (forall pr2 src', promises sL !! p2 = Some pr2 -> status pr2 = STATUS_PENDING ->
       (src', p2) ∈ pairs ->
       match settlement sL src' with
       | Some (STATUS_FULFILLED, w, _) => x = VSettled STATUS_FULFILLED w
       | Some (STATUS_REJECTED, _, r) => x = VSettled STATUS_REJECTED r
       | _ => False
       end) ->
    recordsKept
      match promiseResolutionProcedure p2 x (FResolve p2) (FReject p2) sL with
      | (Normal _, s2) => s2
      | (Thrown e, s2) => snd (rejectFn p2 e s2)
      end).
  { intros x sL Hx HKs Hval.
    pose proof (records_prp_plain_kept p2 x sL Hx Hval HKs) as H.
    rewrite (prp_plain _ _ _ _ Hx) in *. exact H. }
  destruct Ht as [-> | ->]; cbn in Hready; unfold statusOf in Hready;
    cbn [runTask setTimers promises];
    (destruct (promises s !! src) as [prs|] eqn:Es; [|discriminate]);
    cbn in Hready; injection Hready as Hst;
    unfold handlerBody; cbn [applyFn]; apply Hrest;
    try reflexivity; try apply HKL;
    intros pr2 src' _ _ Hin'; rewrite <- (pairs_fun _ _ _ Hin Hin');
    unfold settlement; cbn [promises logHandler setHandlerLog setTimers];
    rewrite Es; cbn; rewrite Hst; reflexivity.
Qed.

Lemma records_performAll_kept acts s :
  forallb (actionOk notRecord anyId) acts = true ->
  recordsKept s -> recordsKept (performAll acts s).
Proof using pairs_fun.
  apply (performAll_kept notRecord anyId isRecordTask recordsInv);
    try records_extra.
  intros; eapply recordTask_runs; eauto.
Qed.

End Records.


(** *** The loop of [allSettled] *)

(** The elements: promises that exist when [allSettled] is called, and
    values that are no thenables. *)
Definition allSettledInput (lenP : nat) (x : Val) : Prop :=
  match x with
  | VPromise q => q < lenP
  | _ => isPlain x = true
  end.

(** The promise that static [resolve] gives for an element. *)
Definition sourceOk (s : State) (x : Val) (pair : nat * nat) : Prop :=
  match x with
  | VPromise q => fst pair = q
  | _ => settlement s (fst pair) = Some (STATUS_FULFILLED, x, VNull)
  end.

(** The promises that the loop creates: one for [then], and one before
    it for the [resolve] of a value. *)
Definition createdBy (xs : list Val) : nat :=
  list_sum ((fun x => if isPromise x then 1 else 2) <$> xs).

(** From one store to a later one: what exists stays as it is. *)
Definition grows (s s' : State) : Prop :=
  (forall q x, settlement s q = Some x -> settlement s' q = Some x)
  /\ length (promises s) <= length (promises s')
  /\ length (allVars s') = length (allVars s).

Lemma grows_trans s1 s2 s3 : grows s1 s2 -> grows s2 s3 -> grows s1 s3.
Proof.
  intros (H1 & H2 & H3) (H4 & H5 & H6). split; [|split]; [auto|lia|congruence].
Qed.

Lemma grows_withNewPromise s : grows s (withNewPromise s).
Proof.
  split; [|split].
  - intros q x E. unfold withNewPromise. rewrite settlement_alloc; [exact E|].
    eapply settlement_lt; eauto.
  - cbn. rewrite length_app. lia.
  - reflexivity.
Qed.

Lemma liveOk_withNewPromise okP okC mine s :
  liveOk okP okC mine s -> liveOk okP okC mine (withNewPromise s).
Proof.
  intros [H1 H2]. split; [exact H1|]. cbn. intros r pr E Hst.
  apply lookup_app_Some in E as [E|[_ E]]; [eauto|].
  apply list_lookup_singleton_Some in E as [_ <-]. cbn. split; constructor.
Qed.

Lemma liveOk_setTimeout okP okC mine t s :
  allowed okP okC mine t -> liveOk okP okC mine s ->
  liveOk okP okC mine (setTimeout t s).
Proof.
  intros Ht [H1 H2]. split; [|exact H2]. cbn. apply Forall_app.
  split; [exact H1|]. constructor; [exact Ht | constructor].
Qed.

Lemma liveOk_register okP okC mine this tf tr s :
  allowed okP okC mine tf -> allowed okP okC mine tr ->
  liveOk okP okC mine s -> liveOk okP okC mine (registeredStore this tf tr s).
Proof.
  intros Hf Hr [H1 H2]. split; [exact H1|]. cbn. intros r pr E Hst.
  apply lookup_alter_Some in E as [[-> (y & Ey & ->)]|[_ E]]; [|eauto].
  cbn in *. destruct (H2 r y Ey Hst) as [Hyf Hyr].
  split; apply Forall_app; (split; [assumption|]);
    (constructor; [assumption|constructor]).
Qed.

Lemma liveOk_settle_new okP okC mine pr' s :
  status pr' <> STATUS_PENDING ->
  liveOk okP okC mine s -> liveOk okP okC mine (withSettledPromise pr' s).
Proof.
  intros Hst [H1 H2]. split; [exact H1|]. cbn. intros r pr E Hp.
  apply lookup_app_Some in E as [E|[_ E]]; [eauto|].
  apply list_lookup_singleton_Some in E as [_ <-]. contradiction.
Qed.

Lemma wellFormed_settle_new v s :
  isPromise v = false -> wellFormed s ->
  wellFormed (withSettledPromise (mkPromise STATUS_FULFILLED v VNull [] []) s).
Proof.
  intros Hv Hwf. rewrite <- settle_new_promise.
  apply (wellFormed_settle (withNewPromise s) (length (promises s)) pendingPromise
           STATUS_FULFILLED v VNull []).
  - apply withNewPromise_new.
  - reflexivity.
  - left. auto.
  - apply wellFormed_alloc. exact Hwf.
Qed.

Lemma grows_settle_new pr' s : grows s (withSettledPromise pr' s).
Proof.
  split; [|split].
  - intros q x E. unfold settlement in *. cbn.
    destruct (promises s !! q) as [pr|] eqn:Eq; [|discriminate].
    rewrite (lookup_app_l_Some _ _ _ _ Eq). exact E.
  - cbn. rewrite length_app. lia.
  - reflexivity.
Qed.

Section SettledLoop.

(** [lenP] promises and [lenC] calls of [all] exist when [allSettled] is
    called; [okP] and [okC] are what the closures in use may touch. *)
Variables (lenP lenC : nat) (okP okC : nat -> bool).

Record loopInv (xs : list Val) (pairs : list (nat * nat)) (s : State) : Prop := {
  li_wf : wellFormed s;
  li_live : liveOk okP okC (isRecordTask pairs) s;
  li_records : recordsInv pairs s;
  li_sources : Forall2 (sourceOk s) xs pairs;
  li_ids : Forall (fun pair => lenP <= snd pair < length (promises s)) pairs;
  li_fun : forall src src' p2,
             (src, p2) ∈ pairs -> (src', p2) ∈ pairs -> src = src';
  li_len : lenP <= length (promises s);
  li_vars : length (allVars s) = lenC
}.

Lemma isRecordTask_more pairs pairs' t :
  isRecordTask pairs t -> isRecordTask (pairs ++ pairs') t.
Proof.
  intros (src & p2 & Hin & Ht). exists src, p2. split; [|exact Ht].
  apply elem_of_app. left. exact Hin.
Qed.

Lemma allowed_more pairs pairs' t :
  allowed okP okC (isRecordTask pairs) t ->
  allowed okP okC (isRecordTask (pairs ++ pairs')) t.
Proof. intros [H|H]; [left; exact H | right; apply isRecordTask_more; exact H]. Qed.

Lemma sourceOk_grows s s' x pair :
  grows s s' -> sourceOk s x pair -> sourceOk s' x pair.
Proof. intros [H _]. unfold sourceOk. destruct x; auto. Qed.

(** What one turn of the loop does. *)
Lemma settledLoop_step xs pairs x s :
  loopInv xs pairs s -> allSettledInput lenP x ->
  exists src s1,
    resolve_ x s = (Normal (VPromise src), s1)
    /\ let p2 := length (promises s1) in
       fst (then_ src (Some FFulfilledRecord) (Some FRejectedRecord) s1) = p2
       /\ loopInv (xs ++ [x]) (pairs ++ [(src, p2)])
            (snd (then_ src (Some FFulfilledRecord) (Some FRejectedRecord) s1))
       /\ length (promises s1) = length (promises s) + (if isPromise x then 0 else 1)
       /\ length (promises
                   (snd (then_ src (Some FFulfilledRecord) (Some FRejectedRecord) s1)))
          = S (length (promises s1))
       /\ grows s (snd (then_ src (Some FFulfilledRecord) (Some FRejectedRecord) s1)).
Proof.
  intros [Hwf Hlive Hrec Hsrc Hids Hfun Hlen Hvars] Hx.
  assert (Hres : exists src s1,
    resolve_ x s = (Normal (VPromise src), s1)
    /\ wellFormed s1
    /\ liveOk okP okC (isRecordTask pairs) s1
    /\ grows s s1 /\ sourceOk s1 x (src, length (promises s1))
    /\ is_Some (promises s1 !! src)
    /\ length (promises s1) = length (promises s) + (if isPromise x then 0 else 1)).
  { destruct (isPromise x) eqn:Hp.
    - destruct x; try discriminate. cbn in Hx. exists p, s.
      split; [reflexivity|]. split; [exact Hwf|]. split; [exact Hlive|].
      split; [split; [auto|split; [lia|reflexivity]]|].
      split; [reflexivity|]. split; [apply lookup_lt_is_Some_2; lia | lia].
    - assert (Hpl : isPlain x = true) by (destruct x; try exact Hx; discriminate).
      assert (Hv : resolvesAsValue x = true).
      { destruct x; try reflexivity; try discriminate.
        destruct callable, thn; try reflexivity; discriminate. }
      exists (length (promises s)),
             (withSettledPromise (mkPromise STATUS_FULFILLED x VNull [] []) s).
      split; [apply resolve__value; exact Hv|].
      split; [apply wellFormed_settle_new; assumption|].
      split; [apply liveOk_settle_new; [discriminate | exact Hlive]|].
      split; [apply grows_settle_new|].
      split.
      { unfold sourceOk. cbn [fst].
        pose proof (settlement_withSettledPromise
                      (mkPromise STATUS_FULFILLED x VNull [] []) s) as H.
        cbn in H. destruct x; try exact H. discriminate. }
      split.
      { exists (mkPromise STATUS_FULFILLED x VNull [] []). cbn.
        apply list_lookup_middle. reflexivity. }
      cbn. rewrite length_app. cbn. lia. }
  destruct Hres as (src & s1 & Hr & Hwf1 & Hlive1 & Hg1 & Hs1 & [prs Es] & Hl1).
  exists src, s1. split; [exact Hr|]. cbv zeta.
  rewrite (then_cases src prs (Some FFulfilledRecord) (Some FRejectedRecord) s1 Es).
  cbv zeta. cbn [fst snd default from_option id].
  set (p2 := length (promises s1)).
  set (tF := TFulfilled src FFulfilledRecord p2).
  set (tR := TRejected src FRejectedRecord p2).
  set (pairs' := pairs ++ [(src, p2)]).
  assert (Hin : (src, p2) ∈ pairs').
  { apply elem_of_app. right. apply list_elem_of_singleton. reflexivity. }
  assert (HtF : allowed okP okC (isRecordTask pairs') tF).
  { right. exists src, p2. auto. }
  assert (HtR : allowed okP okC (isRecordTask pairs') tR).
  { right. exists src, p2. auto. }
  assert (Hlive1' : liveOk okP okC (isRecordTask pairs')
                      (withNewPromise s1)).
  { apply liveOk_withNewPromise.
    eapply liveOk_mono; [|exact Hlive1]. intros t. apply allowed_more. }
  set (s2 := match status prs with
             | STATUS_PENDING => registeredStore src tF tR (withNewPromise s1)
             | STATUS_FULFILLED => setTimeout tF (withNewPromise s1)
             | STATUS_REJECTED => setTimeout tR (withNewPromise s1)
             end).
  assert (Hg2 : grows s1 s2).
  { eapply grows_trans; [apply grows_withNewPromise|].
    unfold s2. destruct (status prs); split; try (split; [|reflexivity]);
      try (intros q y E; rewrite ?settlement_registeredStore; exact E);
      cbn; rewrite ?length_alter; lia. }
  assert (Hnew : settlement s2 p2 = Some pendingTriple).
  { assert (H0 : settlement (withNewPromise s1) p2 = Some pendingTriple).
    { unfold settlement, p2. rewrite withNewPromise_new. reflexivity. }
    unfold s2. destruct (status prs); rewrite ?settlement_registeredStore;
      exact H0. }
  assert (Hlen2 : length (promises s2) = S (length (promises s1))).
  { unfold s2. destruct (status prs); cbn; rewrite ?length_alter, length_app;
      cbn; lia. }
  assert (Hg : grows s s2) by (eapply grows_trans; eauto).
  split; [reflexivity|]. split; [|split; [exact Hl1 | split; [exact Hlen2 | exact Hg]]].
  split.
  - unfold s2. destruct (status prs) eqn:Hst.
    + apply wellFormed_register, wellFormed_alloc. exact Hwf1.
    + apply wellFormed_setTimeout; [|apply wellFormed_alloc; exact Hwf1].
      cbn. unfold statusOf. fold (withNewPromise s1).
      rewrite (withNewPromise_old s1 src prs Es). cbn. congruence.
    + apply wellFormed_setTimeout; [|apply wellFormed_alloc; exact Hwf1].
      cbn. unfold statusOf. fold (withNewPromise s1).
      rewrite (withNewPromise_old s1 src prs Es). cbn. congruence.
  - unfold s2. destruct (status prs).
    + apply liveOk_register; assumption.
    + apply liveOk_setTimeout; assumption.
    + apply liveOk_setTimeout; assumption.
  - apply Forall_app. split.
    + eapply recordsInv_same; [|exact Hrec]. apply Hg.
    + constructor; [|constructor]. unfold recordOk. cbn [snd].
      rewrite Hnew. exact I.
  - apply Forall2_app.
    + eapply Forall2_impl; [exact Hsrc|]. intros y pair.
      apply sourceOk_grows. exact Hg.
    + constructor; [|constructor]. eapply sourceOk_grows; [exact Hg2|].
      destruct x; exact Hs1.
  - apply Forall_app. split.
    + eapply Forall_impl; [exact Hids|]. intros pair Hp. cbn in Hp.
      destruct Hg as (_ & Hgl & _). lia.
    + constructor; [|constructor]. cbn [snd]. fold p2. lia.
  - assert (Hold : forall a, (a, p2) ∈ pairs -> False).
    { intros a Ha. rewrite Forall_forall in Hids. specialize (Hids _ Ha).
      cbn in Hids. unfold p2 in Hids. destruct Hg1 as (_ & Hgl & _). lia. }
    intros a a' q Ha Ha'. unfold pairs' in Ha, Ha'.
    apply elem_of_app in Ha as [Ha|Ha], Ha' as [Ha'|Ha'];
      rewrite ?list_elem_of_singleton in *.
    + eauto.
    + injection Ha' as -> ->. destruct (Hold _ Ha).
    + injection Ha as -> ->. destruct (Hold _ Ha').
    + congruence.
  - lia.
  - destruct Hg as (_ & _ & Hgv). congruence.
Qed.

(** The loop as a whole. *)
Lemma settledLoop_inv items : forall xs pairs s,
  loopInv xs pairs s -> Forall (allSettledInput lenP) items ->
  exists pairs' s1,
    settledLoop items ((VPromise ∘ snd) <$> pairs) s
    = inr ((VPromise ∘ snd) <$> (pairs ++ pairs'), s1)
    /\ loopInv (xs ++ items) (pairs ++ pairs') s1
    /\ length (promises s1) = length (promises s) + createdBy items
    /\ grows s s1.
Proof.
  induction items as [|x items IH]; intros xs pairs s HI Hin.
  - exists [], s. rewrite !app_nil_r. cbn. unfold createdBy. cbn.
    split; [reflexivity|]. split; [exact HI|]. split; [lia|].
    split; [auto|split; [lia|reflexivity]].
  - inversion Hin as [|? ? Hx Hrest]; subst.
    destruct (settledLoop_step xs pairs x s HI Hx)
      as (src & s1 & Hr & Hstep). cbv zeta in Hstep.
    destruct Hstep as (Hp2 & HI2 & Hl1 & Hl2 & Hg).
    cbn [settledLoop]. rewrite Hr.
    destruct (then_ src (Some FFulfilledRecord) (Some FRejectedRecord) s1)
      as [p2 s2] eqn:Ethen.
    cbn [fst snd] in *. subst p2.
    destruct (IH (xs ++ [x]) (pairs ++ [(src, length (promises s1))]) s2 HI2 Hrest)
      as (pairs' & s3 & Hloop & HI3 & Hl3 & Hg3).
    exists ((src, length (promises s1)) :: pairs'), s3.
    rewrite fmap_app in Hloop. cbn [fmap list_fmap compose snd] in Hloop.
    rewrite <- !app_assoc in *. cbn [app] in *.
    split; [exact Hloop|]. split; [exact HI3|].
    split; [|eapply grows_trans; eauto].
    unfold createdBy, list_sum in *. rewrite fmap_cons. cbn [fold_right].
    rewrite Hl3, Hl2, Hl1. destruct (isPromise x); lia.
Qed.

End SettledLoop.

(** *** What [allSettled] returns *)

(** The record of an element: of the settlement of a promise, and of a
    value as of a promise fulfilled with it. *)
Definition recordOf (s : State) (x : Val) : option Val :=
  match x with
  | VPromise q =>
      match settlement s q with
      | Some (STATUS_FULFILLED, w, _) => Some (VSettled STATUS_FULFILLED w)
      | Some (STATUS_REJECTED, _, r) => Some (VSettled STATUS_REJECTED r)
      | _ => None
      end
  | _ => Some (VSettled STATUS_FULFILLED x)
  end.

(** The promise [p] that [allSettled] returns, with the variables [c] of
    its call of [all], is pending or fulfilled with the records of the
    elements, in their order. *)
Definition allSettledSpec (xs : list Val) (p c : nat) (final : State) : Prop :=
  match settlement final p with
  | Some (STATUS_PENDING, _, _) => True
  | Some (STATUS_FULFILLED, v, _) =>
      v = VRes c
      /\ exists vs, arrayOf final v = Some vs
           /\ Forall2 (fun x y => recordOf final x = Some y) xs vs
  | _ => False
  end.

Definition allSettledInputb (lenP : nat) (x : Val) : bool :=
  match x with
  | VPromise q => Nat.ltb q lenP
  | _ => isPlain x
  end.

Lemma allSettledInputb_sound lenP xs :
  forallb (allSettledInputb lenP) xs = true -> Forall (allSettledInput lenP) xs.
Proof.
  apply forallb_Forall. intros x. unfold allSettledInputb, allSettledInput.
  destruct x; auto. apply Nat.ltb_lt.
Qed.

(** The promises before [lenP] and after [p]: those that [allSettled]
    does not create. *)
Definition outside (lenP p : nat) (n : nat) : bool :=
  Nat.ltb n lenP || Nat.ltb p n.

Lemma records_reported s1 final xs : forall pairs vs,
  keepsSettled s1 final ->
  Forall2 (sourceOk s1) xs pairs ->
  Forall (recordOk final) pairs ->
  Forall2 (fun pair y => reported final (VPromise (snd pair)) = Some y) pairs vs ->
  Forall2 (fun x y => recordOf final x = Some y) xs vs.
Proof.
  intros pairs vs Hkeep Hsrc. revert vs.
  induction Hsrc as [|x [src p2] xs pairs Hx _ IH]; intros vs Hrec Hrep.
  - inversion Hrep; subst. constructor.
  - inversion Hrep as [|? y ? vs' Hy Hrest]; subst.
    inversion Hrec as [|? ? Hok Hoks]; subst.
    constructor; [|apply IH; assumption].
    cbn [snd reported] in Hy. unfold recordOk, settlement in Hok. cbn [fst snd] in Hok.
    destruct (promises final !! p2) as [pr2|]; [|discriminate].
    cbn in Hok. destruct (status pr2); try discriminate.
    injection Hy as <-.
    destruct (isPromise x) eqn:Hp.
    + destruct x; try discriminate. cbn in Hx. subst src.
      unfold recordOf, settlement.
      destruct (promises final !! p) as [prs|]; [|contradiction].
      cbn in *. destruct (status prs); [contradiction| |]; congruence.
    + assert (Hs : settlement s1 src = Some (STATUS_FULFILLED, x, VNull)).
      { destruct x; try exact Hx. discriminate. }
      assert (Hf : settlement final src = Some (STATUS_FULFILLED, x, VNull)).
      { rewrite <- Hs. apply Hkeep. eapply settlement_isSettled; [exact Hs|].
        discriminate. }
      unfold settlement in Hf.
      destruct (promises final !! src) as [prs|]; [|discriminate].
      cbn in *. injection Hf as Hst Hv _. rewrite Hst in Hok. subst.
      rewrite Hok. revert Hp. clear. destruct (value prs); try reflexivity.
      discriminate.
Qed.

(** X19.  [allSettled] over promises of this implementation and values
    that are no thenables returns a new promise that is never rejected:
    whatever the rest of the program does with the promises it can
    reach, that promise is pending or fulfilled, and when it is
    fulfilled its value is the array of the records of the elements in
    the order of the input: [{status: 'fulfilled', value}] for a
    fulfilled promise and for a value, [{status: 'rejected', reason}]
    for a rejected promise. *)
Theorem allSettled_records_in_order (xs : list Val) (s : State)
    (later : list Action) :
  let lenP := length (promises s) in
  let p := lenP + createdBy xs in
  let c := length (allVars s) in
  let final := performAll later (snd (allSettled (VArr xs) s)) in
  wellFormedb s = true ->
  liveOkb (outside lenP p) (notId c) s = true ->
  forallb (allSettledInputb lenP) xs = true ->
  forallb (actionOk (outside lenP p) (notId c)) later = true ->
  fst (allSettled (VArr xs) s) = Normal (VPromise p)
  /\ allSettledSpec xs p c final.
Proof.
  intros lenP p c final Hwf Hlive Hxs Hacts.
  apply wellFormedb_sound in Hwf. apply liveOkb_sound in Hlive.
  apply allSettledInputb_sound in Hxs.
  assert (HI0 : loopInv lenP c (outside lenP p) (notId c) [] [] s).
  { split.
    - exact Hwf.
    - eapply liveOk_mono; [|exact Hlive]. intros t [Ht|[]]. left. exact Ht.
    - constructor.
    - constructor.
    - constructor.
    - intros src src' p2 Hin. apply elem_of_nil in Hin. destruct Hin.
    - reflexivity.
    - reflexivity. }
  destruct (settledLoop_inv lenP c (outside lenP p) (notId c) xs [] [] s HI0 Hxs)
    as (pairs & s1 & Hloop & HI1 & Hlen1 & Hg1).
  cbn [app fmap list_fmap] in Hloop, HI1.
  destruct HI1 as [Hwf1 Hlive1 Hrec1 Hsrc1 Hids1 Hfun1 _ Hvars1].
  fold lenP in Hlen1. fold p in Hlen1.
  rewrite Hlen1 in Hids1.
  set (ps := (VPromise ∘ snd) <$> pairs) in *.
  assert (Efinal : final = performAll (AAll (VArr ps) :: later) s1).
  { unfold final, allSettled. cbn [isIterable truthy andb arrayOf default from_option id].
    rewrite Hloop. reflexivity. }
  assert (Efst : fst (allSettled (VArr xs) s) = fst (all (VArr ps) s1)).
  { unfold allSettled. cbn [isIterable truthy andb arrayOf default from_option id].
    rewrite Hloop. reflexivity. }
  assert (HoutP : forall n, outside lenP p n = true -> notId p n = true).
  { intros n Hn. unfold outside in Hn. apply notId_true.
    apply orb_true_iff in Hn as [Hn|Hn]; apply Nat.ltb_lt in Hn; unfold p in *; lia. }
  assert (HnotR : forall n, n < lenP \/ p <= n -> notRecord pairs n = true).
  { intros n Hn. unfold notRecord. apply forallb_forall. intros pair Hin.
    apply list_elem_of_In in Hin. rewrite Forall_forall in Hids1.
    specialize (Hids1 _ Hin). cbn in Hids1.
    apply negb_true_iff, Nat.eqb_neq. lia. }
  assert (HoutR : forall n, outside lenP p n = true -> notRecord pairs n = true).
  { intros n Hn. apply HnotR. unfold outside in Hn.
    apply orb_true_iff in Hn as [Hn|Hn]; apply Nat.ltb_lt in Hn; lia. }
  (* the call of [all] and what follows, for the promise returned *)
  assert (Hps : Forall (allInput p) ps).
  { unfold ps. apply Forall_fmap. eapply Forall_impl; [exact Hids1|].
    intros pair Hp. cbn in *. lia. }
  assert (HliveA : liveOk (notId p) (notId c) nobody s1).
  { eapply liveOk_mono; [|exact Hlive1]. intros t [Ht|(src & p2 & Hin & Ht)].
    - left. exact (taskOk_mono _ _ _ _ t HoutP (fun n H => H) Ht).
    - left. rewrite Forall_forall in Hids1. specialize (Hids1 _ Hin).
      cbn in Hids1.
      assert (Hn : notId p p2 = true) by (apply notId_true; lia).
      destruct Ht as [-> | ->]; cbn; exact Hn. }
  destruct (all_call_kept ps p c Hps s1 (eq_sym Hlen1) (eq_sym Hvars1) Hwf1 HliveA)
    as [Hfst HK].
  split; [rewrite Efst; exact Hfst|].
  assert (HA : allSpec ps p c final).
  { apply (allInvK_spec ps p c). rewrite Efinal.
    change (performAll (AAll (VArr ps) :: later) s1)
      with (performAll later (snd (all (VArr ps) s1))).
    refine (proj2 (all_performAll_kept ps p c Hps later _ _ HK)).
    exact (actionsOk_mono _ _ _ _ later HoutP (fun n H => H) Hacts). }
  (* the records *)
  assert (HKB : recordsKept pairs s1).
  { split; [split|exact Hrec1].
    - split; [|reflexivity]. intros n Hn. apply HnotR. lia.
    - exact Hwf1.
    - eapply liveOk_mono; [|exact Hlive1]. intros t [Ht|Ht]; [left|right; exact Ht].
      exact (taskOk_mono _ _ _ _ t HoutR (fun n H => eq_refl) Ht). }
  assert (HB : recordsInv pairs final).
  { rewrite Efinal.
    refine (proj2 (records_performAll_kept pairs Hfun1 _ s1 _ HKB)).
    cbn [forallb actionOk andb].
    exact (actionsOk_mono _ _ _ _ later HoutR (fun n H => eq_refl) Hacts). }
  assert (Hkeep : keepsSettled s1 final).
  { rewrite Efinal. apply performAll_keepsSettled. }
  destruct HA as [HA _]. unfold allSettledSpec.
  destruct (settlement final p) as [[[[] v] r]|] eqn:Ep; [exact I| | |exact HA].
  - destruct HA as (-> & vs & Harr & Hrep). split; [reflexivity|].
    exists vs. split; [exact Harr|].
    apply (records_reported s1 final xs pairs vs Hkeep Hsrc1 HB).
    unfold ps in Hrep. apply Forall2_fmap_l in Hrep. exact Hrep.
  - destruct HA as (i & q & prq & Hi & Eq & Hst & _).
    unfold ps in Hi. rewrite list_lookup_fmap in Hi.
    destruct (pairs !! i) as [[src p2]|] eqn:Epair; [|discriminate].
    cbn in Hi. injection Hi as <-.
    unfold recordsInv in HB. rewrite Forall_forall in HB.
    specialize (HB _ (list_elem_of_lookup_2 _ _ _ Epair)).
    unfold recordOk, settlement in HB. cbn [snd] in HB.
    rewrite Eq in HB. cbn in HB. rewrite Hst in HB. exact HB.
Qed.

(** * Deferral, the once-guard and [race], over time *)

(** ** Handlers run from the timer queue only *)

(** What a call leaves as it was: the status, value and reason of every
    promise that existed, and the variables of the closures. *)
Definition sameSettlements (s s' : State) : Prop :=
  forall q, q < length (promises s) -> settlement s' q = settlement s q.

Definition sameVariables (s s' : State) : Prop :=
  calledVars s' = calledVars s /\ allVars s' = allVars s
  /\ handlerLog s' = handlerLog s.

(** The timer that [then] sets for a source of the given status. *)
Definition timerFor (st : Status) (tF tR : Task) : list Task :=
  match st with
  | STATUS_FULFILLED => [tF]
  | STATUS_REJECTED => [tR]
  | STATUS_PENDING => []
  end.

Lemma settlement_setTimeout t s q :
  settlement (setTimeout t s) q = settlement s q.
Proof. reflexivity. Qed.

(** The store when [_resolve(v)] or [_reject(r)] of a pending source
    returns, after [then] registered on it. *)
Lemma settle_after_then this pr tF tR s :
  promises s !! this = Some pr -> status pr = STATUS_PENDING ->
  let s' := registeredStore this tF tR (withNewPromise s) in
  (forall v, isPromise v = false ->
     resolveFn this v s'
     = (Normal VUndefined,
        settledStore this
          (mkPromise STATUS_FULFILLED v (reason pr)
             (onFulfilledCbs pr ++ [Defer tF]) (onRejectedCbs pr ++ [Defer tR]))
          (onFulfilledCbs pr ++ [Defer tF]) s'))
  /\ (forall r,
     rejectFn this r s'
     = (Normal VUndefined,
        settledStore this
          (mkPromise STATUS_REJECTED (value pr) r
             (onFulfilledCbs pr ++ [Defer tF]) (onRejectedCbs pr ++ [Defer tR]))
          (onRejectedCbs pr ++ [Defer tR]) s')).
Proof.
  intros E Hst. cbv zeta.
  assert (E' : promises (registeredStore this tF tR (withNewPromise s)) !! this
               = Some (mkPromise (status pr) (value pr) (reason pr)
                         (onFulfilledCbs pr ++ [Defer tF])
                         (onRejectedCbs pr ++ [Defer tR]))).
  { unfold registeredStore. cbn [promises setPromises].
    rewrite list_lookup_alter_eq. fold (withNewPromise s).
    rewrite (withNewPromise_old s this pr E). reflexivity. }
  split.
  - intros v Hv. rewrite (resolveFn_plain _ _ _ Hv), E'. cbn [status].
    rewrite Hst. reflexivity.
  - intros r. rewrite rejectFn_cases, E'. cbn [status]. rewrite Hst. reflexivity.
Qed.

(** C4.  [then] calls no handler, and neither does [_resolve] or
    [_reject] of the source: whatever the two handlers are (closures
    that would settle other promises or write variables included), when
    [then] returns [promise2] is pending, every other promise and every
    variable is as before, and the one thing added is the timer of the
    handler behind the timers already set, also when the source is
    already settled.  When [_resolve(v)] or [_reject(r)] of a pending
    source returns, the source is settled, [promise2] is still pending,
    nothing else has changed, and the timer of the handler is queued
    behind the timers of the callbacks registered earlier.  The handler
    runs when that timer fires: with no other timer before it, one turn
    of the loop later the handler has been called with the value or the
    reason of the source, and what it returned or threw has settled
    [promise2]. *)
Theorem handlers_are_deferred (this : nat) (pr : PromiseImpl)
    (onFulfilled onRejected : option Fn) (h : Val -> Outcome) (v r : Val)
    (s : State) :
  promises s !! this = Some pr ->
  let promise2 := fst (then_ this onFulfilled onRejected s) in
  let s' := snd (then_ this onFulfilled onRejected s) in
  let tF := TFulfilled this (default FIdentity onFulfilled) promise2 in
  let tR := TRejected this (default FThrower onRejected) promise2 in
  let resolved := snd (applyFn (FResolve this) v s') in
  let rejected := snd (applyFn (FReject this) r s') in
  (settlement s' promise2 = Some pendingTriple
   /\ sameSettlements s s' /\ sameVariables s s'
   /\ timers s' = timers s ++ timerFor (status pr) tF tR)
  /\ (status pr = STATUS_PENDING ->
      (isPromise v = false ->
       settlement resolved this = Some (STATUS_FULFILLED, v, reason pr)
       /\ (forall q, q <> this -> settlement resolved q = settlement s' q)
       /\ sameVariables s resolved
       /\ timers resolved = timers s ++ (cbTask <$> onFulfilledCbs pr) ++ [tF])
      /\ settlement rejected this = Some (STATUS_REJECTED, value pr, r)
      /\ (forall q, q <> this -> settlement rejected q = settlement s' q)
      /\ sameVariables s rejected
      /\ timers rejected = timers s ++ (cbTask <$> onRejectedCbs pr) ++ [tR])
  /\ (timers s = [] ->
      match status pr with
      | STATUS_FULFILLED =>
          onFulfilled = Some (FUser h) ->
          settledBy (h (value pr)) (tick s') promise2
          /\ handlerLog (tick s')
             = handlerLog s ++ [HandlerCalled this (FUser h) (value pr)]
      | STATUS_REJECTED =>
          onRejected = Some (FUser h) ->
          settledBy (h (reason pr)) (tick s') promise2
          /\ handlerLog (tick s')
             = handlerLog s ++ [HandlerCalled this (FUser h) (reason pr)]
      | STATUS_PENDING =>
          onFulfilledCbs pr = [] -> onRejectedCbs pr = [] ->
          (isPromise v = false -> onFulfilled = Some (FUser h) ->
           settledBy (h v) (tick resolved) promise2
           /\ handlerLog (tick resolved)
              = handlerLog s ++ [HandlerCalled this (FUser h) v])
          /\ (onRejected = Some (FUser h) ->
              settledBy (h r) (tick rejected) promise2
              /\ handlerLog (tick rejected)
                 = handlerLog s ++ [HandlerCalled this (FUser h) r])
      end).
Proof.
  intros E. cbv zeta.
  rewrite (then_cases this pr onFulfilled onRejected s E). cbn [fst snd].
  set (promise2 := length (promises s)).
  set (tF := TFulfilled this (default FIdentity onFulfilled) promise2).
  set (tR := TRejected this (default FThrower onRejected) promise2).
  assert (Hlt : this < length (promises s)) by (eapply lookup_lt_Some; eauto).
  assert (Hnew : settlement (withNewPromise s) promise2 = Some pendingTriple).
  { unfold settlement, promise2. rewrite withNewPromise_new. reflexivity. }
  assert (Hold : sameSettlements s (withNewPromise s)).
  { intros q Hq. apply settlement_withNewPromise. lia. }
  split; [|split].
  - (* the call of [then] *)
    destruct (status pr); cbn [timerFor].
    + rewrite settlement_registeredStore. split; [exact Hnew|].
      split; [intros q Hq; rewrite settlement_registeredStore; apply Hold; exact Hq|].
      split; [repeat split|]. cbn. rewrite app_nil_r. reflexivity.
    + split; [exact Hnew|]. split; [exact Hold|]. split; [repeat split|reflexivity].
    + split; [exact Hnew|]. split; [exact Hold|]. split; [repeat split|reflexivity].
  - (* the settlement of the source *)
    intros Hst. rewrite Hst.
    destruct (settle_after_then this pr tF tR s E Hst) as [Hres Hrej].
    cbv zeta in Hres, Hrej. cbn [applyFn].
    assert (Hlt' : this < length (promises (registeredStore this tF tR
                                              (withNewPromise s)))).
    { cbn. rewrite length_alter, length_app. cbn. lia. }
    split.
    + intros Hv. rewrite (Hres v Hv). cbn [snd].
      rewrite settlement_settledStore_eq by exact Hlt'. cbn [status value reason].
      split; [reflexivity|].
      split; [intros q Hq; apply settlement_settledStore; congruence|].
      split; [repeat split|].
      rewrite timers_settledStore. cbn [registeredStore timers setPromises
                                        withNewPromise].
      rewrite fmap_app. reflexivity.
    + rewrite (Hrej r). cbn [snd].
      rewrite settlement_settledStore_eq by exact Hlt'. cbn [status value reason].
      split; [reflexivity|].
      split; [intros q Hq; apply settlement_settledStore; congruence|].
      split; [repeat split|].
      rewrite timers_settledStore. cbn [registeredStore timers setPromises
                                        withNewPromise].
      rewrite fmap_app. reflexivity.
  - (* the timer fires *)
    intros Ht.
    assert (Hp2 : forall sx, promises sx = promises (withNewPromise s) ->
                  promises sx !! promise2 = Some pendingPromise).
    { intros sx ->. apply withNewPromise_new. }
    destruct (status pr) eqn:Hst.
    + intros Hf Hr.
      destruct (settle_after_then this pr tF tR s E Hst) as [Hres Hrej].
      cbv zeta in Hres, Hrej. cbn [applyFn]. rewrite Hf, Hr in *.
      cbn [app] in *.
      assert (Hthis : this <> promise2) by (unfold promise2; lia).
      split.
      * intros Hv ->. rewrite (Hres v Hv). cbn [snd].
        match goal with
        | |- context [tick ?X] =>
            assert (Htick : tick X
                            = handlerBody this (FUser h) v promise2 (setTimers [] X))
        end.
        { unfold tick. rewrite timers_settledStore.
          cbn [registeredStore timers setPromises withNewPromise].
          rewrite Ht. cbn [app fmap list_fmap cbTask]. unfold tF.
          cbn [runTask setTimers promises default from_option id].
          rewrite promises_settledStore.
          rewrite list_lookup_insert_eq
            by (cbn; rewrite length_alter, length_app; cbn; lia).
          reflexivity. }
        rewrite Htick. split; [|rewrite handlerBody_log; reflexivity].
        apply handlerBody_settles; [apply returns_FUser|].
        cbn [setTimers promises]. rewrite promises_settledStore.
        rewrite list_lookup_insert_ne by exact Hthis.
        cbn [registeredStore promises setPromises].
        rewrite list_lookup_alter_ne by exact Hthis.
        apply withNewPromise_new.
      * intros ->. rewrite (Hrej r). cbn [snd].
        match goal with
        | |- context [tick ?X] =>
            assert (Htick : tick X
                            = handlerBody this (FUser h) r promise2 (setTimers [] X))
        end.
        { unfold tick. rewrite timers_settledStore.
          cbn [registeredStore timers setPromises withNewPromise].
          rewrite Ht. cbn [app fmap list_fmap cbTask]. unfold tR.
          cbn [runTask setTimers promises default from_option id].
          rewrite promises_settledStore.
          rewrite list_lookup_insert_eq
            by (cbn; rewrite length_alter, length_app; cbn; lia).
          reflexivity. }
        rewrite Htick. split; [|rewrite handlerBody_log; reflexivity].
        apply handlerBody_settles; [apply returns_FUser|].
        cbn [setTimers promises]. rewrite promises_settledStore.
        rewrite list_lookup_insert_ne by exact Hthis.
        cbn [registeredStore promises setPromises].
        rewrite list_lookup_alter_ne by exact Hthis.
        apply withNewPromise_new.
    + intros ->. unfold tF.
      rewrite (tick_only_timer _ _ (withNewPromise s) Ht eq_refl).
      cbn [runTask default from_option id].
      rewrite (withNewPromise_old s this pr E).
      split; [|rewrite handlerBody_log; reflexivity].
      apply handlerBody_settles; [apply returns_FUser|apply withNewPromise_new].
    + intros ->. unfold tR.
      rewrite (tick_only_timer _ _ (withNewPromise s) Ht eq_refl).
      cbn [runTask default from_option id].
      rewrite (withNewPromise_old s this pr E).
      split; [|rewrite handlerBody_log; reflexivity].
      apply handlerBody_settles; [apply returns_FUser|apply withNewPromise_new].
Qed.

(** ** The calls of a foreign [then], in the order of time *)

(** The timers that a body sets before its first call, its throw or
    its end. *)
Fixpoint timersBefore (body : Script) : list Script :=
  match body with
  | SLater later k => later :: timersBefore k
  | _ => []
  end.

(** What follows the first call. *)
Fixpoint afterFirstCall (body : Script) : Script :=
  match body with
  | SFulfil _ k | SReject _ k => k
  | SLater _ k => afterFirstCall k
  | _ => SEnd
  end.

(** The first call made by the first [n] timers of a queue to fire.
    The timers that a timer sets go to the end of the queue; what a
    timer throws is lost. *)
Fixpoint firstInQueue (n : nat) (queue : list Script) : FirstCall :=
  match n, queue with
  | S m, body :: rest =>
      match firstCall body with
      | CallsFulfil y => CallsFulfil y
      | CallsReject r => CallsReject r
      | _ => firstInQueue m (rest ++ timersBefore body)
      end
  | _, _ => NoCall
  end.

(** The first thing that a [then] does, in the call itself or, when
    the call neither calls back nor throws, in the first [n] timers to
    fire. *)
Definition firstWithin (n : nat) (body : Script) : FirstCall :=
  match firstCall body with
  | NoCall => firstInQueue n (timersBefore body)
  | first => first
  end.

Lemma firstInQueue_nil n : firstInQueue n [] = NoCall.
Proof. destruct n; reflexivity. Qed.

(** A body run with any two arguments, up to its first call. *)
Lemma runScript_first body onF onR : forall s,
  runScript body onF onR s =
  let s0 := addTimers ((fun later => TScript later onF onR) <$> timersBefore body) s in
  match firstCall body with
  | NoCall => (Normal VUndefined, s0)
  | Throws e => (Thrown e, s0)
  | CallsFulfil y =>
      match applyFn onF y s0 with
      | (Normal _, s1) => runScript (afterFirstCall body) onF onR s1
      | (Thrown e, s1) => (Thrown e, s1)
      end
  | CallsReject r =>
      match applyFn onR r s0 with
      | (Normal _, s1) => runScript (afterFirstCall body) onF onR s1
      | (Thrown e, s1) => (Thrown e, s1)
      end
  end.
Proof.
  induction body; intros s; cbv zeta;
    cbn [runScript firstCall timersBefore afterFirstCall fmap list_fmap];
    rewrite ?addTimers_nil; try reflexivity.
  rewrite IHbody2. cbv zeta. rewrite addTimers_setTimeout. reflexivity.
Qed.

Lemma run_performAll n : forall s, run n s = performAll (replicate n ATick) s.
Proof. induction n as [|n IH]; intros s; cbn; [reflexivity | apply IH]. Qed.

Lemma run_keepsSettled n s : keepsSettled s (run n s).
Proof. rewrite run_performAll. apply performAll_keepsSettled. Qed.

Lemma run_settled n s p st v r :
  settlement s p = Some (st, v, r) -> st <> STATUS_PENDING ->
  settlement (run n s) p = Some (st, v, r).
Proof.
  intros H Hst. rewrite <- H. apply run_keepsSettled.
  eapply settlement_isSettled; eauto.
Qed.

Lemma performAll_keepsCalled acts s : keepsCalled s (performAll acts s).
Proof. apply (performAll_respects keepsCalled); keeps_called. Qed.

Lemma run_keepsCalled n s : keepsCalled s (run n s).
Proof. rewrite run_performAll. apply performAll_keepsCalled. Qed.

Section GuardedThen.

(** [p] is the promise to settle, with its own capabilities, and
    [called] the variable of the call of the procedure. *)
Variables (p called : nat) (pr : PromiseImpl).

Let resolvePromise := FResolvePromise called p (FResolve p) (FReject p).
Let rejectPromise := FRejectPromise called (FReject p).
Let timerOf (later : Script) := TScript later resolvePromise rejectPromise.

(** What becomes of [p], which was pending as [pr], by the first thing
    that the foreign [then] does; [s] is the store at that time. *)
Definition onceSpec (s : State) (first : FirstCall)
    (seen : option (Status * Val * Val)) : Prop :=
  match first with
  | NoCall => seen = Some (STATUS_PENDING, value pr, reason pr)
  | CallsReject r | Throws r => seen = Some (STATUS_REJECTED, value pr, r)
  | CallsFulfil y =>
      match y with
      | VPromise q =>
          if Nat.eqb p q
          then seen = Some (STATUS_REJECTED, value pr, VTypeError cyclicMessage)
          else statusOf s q = Some STATUS_PENDING ->
               seen = Some (STATUS_PENDING, value pr, reason pr)
      | VObj _ (ThenGetterThrows e) =>
          seen = Some (STATUS_REJECTED, value pr, e)
      | VObj _ (ThenFunction _) => True
      | _ => seen = Some (STATUS_FULFILLED, y, reason pr)
      end
  end.

Lemma onceSpec_plain s y seen :
  isPlain y = true ->
  seen = Some (STATUS_FULFILLED, y, reason pr) ->
  onceSpec s (CallsFulfil y) seen.
Proof.
  intros Hy H. destruct y; try exact H; try discriminate Hy.
  destruct thn; try exact H; discriminate Hy.
Qed.

(** Once [called] is set, timers of the foreign [then] change nothing
    but the queue. *)
Lemma guarded_timers_inert n : forall s,
  isCalled called s = true -> Forall (guardedBy called) (timers s) ->
  promises (run n s) = promises s.
Proof.
  induction n as [|n IH]; intros s Hc Ht; cbn [run]; [reflexivity|].
  unfold tick. destruct (timers s) as [|t rest] eqn:Et; [apply IH; rewrite ?Et; auto|].
  inversion Ht as [|? ? Hg Hrest]; subst.
  destruct Hg as (later & promise' & resolve' & reject' & ->).
  cbn [runTask].
  rewrite (runScript_called resolve' reject' promise' called later
             (setTimers rest s) Hc).
  cbn [snd]. rewrite IH.
  - reflexivity.
  - exact Hc.
  - cbn. apply Forall_app. split; [exact Hrest|].
    apply (guardedBy_timersSetBy resolve' reject' promise' called).
Qed.

Hypothesis pr_pending : status pr = STATUS_PENDING.

(** The first call is [resolvePromise(y)]. *)
Lemma first_resolve_decides y s0 more n :
  isCalled called s0 = false -> called < length (calledVars s0) ->
  promises s0 !! p = Some pr ->
  Forall (guardedBy called) (timers s0) -> Forall (guardedBy called) more ->
  onceSpec s0 (CallsFulfil y)
    (settlement
       (run n (addTimers more
                 (snd (prpOn (FResolve p) (FReject p) (resolveFn p) (rejectFn p)
                         p y (setCalled called s0))))) p).
Proof using All.
  intros Hc Hlt E Ht Hmore.
  assert (E1 : promises (setCalled called s0) !! p = Some pr) by exact E.
  assert (Hsettled : forall s1 st v r,
            settlement s1 p = Some (st, v, r) -> st <> STATUS_PENDING ->
            settlement (run n (addTimers more s1)) p = Some (st, v, r)).
  { intros s1 st v r H Hst. apply run_settled; [exact H | exact Hst]. }
  destruct (isPlain y) eqn:Hy.
  - apply onceSpec_plain; [exact Hy|].
    pose proof (prp_plain p p y (setCalled called s0) Hy) as Hp.
    unfold promiseResolutionProcedure in Hp. cbn [applyFn] in Hp. rewrite Hp.
    cbn [snd]. apply Hsettled; [|discriminate].
    apply (resolveFn_pending p pr); [exact E | exact pr_pending |].
    apply isPlain_not_promise. exact Hy.
  - destruct y; try discriminate Hy.
    + (* a promise of this implementation *)
      cbn [onceSpec prpOn]. destruct (Nat.eqb p p0) eqn:Hq.
      * apply Hsettled; [|discriminate].
        apply (rejectFn_pending p pr); [exact E1 | exact pr_pending].
      * intros Hpend. apply Nat.eqb_neq in Hq.
        unfold statusOf in Hpend.
        destruct (promises s0 !! p0) as [prq|] eqn:Eq; [|discriminate].
        cbn in Hpend. injection Hpend as Hpend.
        rewrite (then_cases p0 prq _ _ (setCalled called s0) Eq).
        cbv zeta. rewrite Hpend. cbn [snd].
        unfold settlement. rewrite guarded_timers_inert.
        -- cbn [addTimers setTimers promises registeredStore setPromises].
           rewrite list_lookup_alter_ne by congruence. fold (withNewPromise (setCalled called s0)).
           rewrite (withNewPromise_old _ p pr E1). cbn. rewrite pr_pending.
           reflexivity.
        -- change (isCalled called (setCalled called s0) = true).
           rewrite isCalled_setCalled, decide_True by reflexivity.
           apply bool_decide_eq_true. exact Hlt.
        -- cbn. apply Forall_app. split; assumption.
    + destruct thn; try discriminate Hy.
      * (* reading [then] throws *)
        cbn [onceSpec prpOn]. unfold newCalled, prpCatch.
        change (isCalled (length (calledVars (setCalled called s0)))
                  (setCalledVars (calledVars (setCalled called s0) ++ [false])
                     (setCalled called s0)))
          with (isCalled (length (calledVars (setCalled called s0)))
                  (snd (newCalled (setCalled called s0)))).
        rewrite isCalled_newCalled.
        match goal with
        | |- context [rejectFn p e ?X] =>
            pose proof (rejectFn_pending p pr e X E pr_pending) as Hr;
            pose proof (rejectFn_normal p e X) as Hn;
            destruct (rejectFn p e X) as [o s1]
        end.
        cbn [fst snd] in *. subst o. cbn [snd].
        apply Hsettled; [exact Hr | discriminate].
      * exact I.
Qed.

(** A timer of the foreign [then] fires, or its body runs in the call
    itself, while [called] is not set. *)
Lemma guarded_script_step body s :
  isCalled called s = false -> called < length (calledVars s) ->
  promises s !! p = Some pr ->
  Forall (guardedBy called) (timers s) ->
  let run1 := runScript body resolvePromise rejectPromise s in
  match firstCall body with
  | NoCall =>
      run1 = (Normal VUndefined, addTimers (timerOf <$> timersBefore body) s)
  | Throws e =>
      run1 = (Thrown e, addTimers (timerOf <$> timersBefore body) s)
  | CallsFulfil y =>
      isCalled called (snd run1) = true
      /\ forall n, onceSpec s (CallsFulfil y) (settlement (run n (snd run1)) p)
  | CallsReject r =>
      isCalled called (snd run1) = true
      /\ forall n, settlement (run n (snd run1)) p
                   = Some (STATUS_REJECTED, value pr, r)
  end.
Proof using All.
  intros Hc Hlt E Ht. cbv zeta. rewrite runScript_first. cbv zeta.
  fold timerOf.
  set (s0 := addTimers (timerOf <$> timersBefore body) s).
  assert (Hc0 : isCalled called s0 = false) by exact Hc.
  assert (Hlt0 : called < length (calledVars s0)) by exact Hlt.
  assert (E0 : promises s0 !! p = Some pr) by exact E.
  assert (Ht0 : Forall (guardedBy called) (timers s0)).
  { unfold s0. cbn. apply Forall_app. split; [exact Ht|].
    apply Forall_fmap, Forall_forall. intros later _.
    exists later, p, (FResolve p), (FReject p). reflexivity. }
  assert (Hset : isCalled called (setCalled called s0) = true).
  { rewrite isCalled_setCalled, decide_True by reflexivity.
    apply bool_decide_eq_true. exact Hlt0. }
  destruct (firstCall body) as [y|r|e|]; try reflexivity.
  - (* resolvePromise(y) *)
    unfold resolvePromise. cbn [applyFn]. rewrite Hc0.
    pose proof (prpOn_keepsCalled (FResolve p) (FReject p) p y
                  (setCalled called s0) _ Hset) as Hk.
    pose proof (fun more n => first_resolve_decides y s0 more n Hc0 Hlt0 E0 Ht0)
      as Hdec.
    cbn [applyFn] in Hk.
    destruct (prpOn _ _ _ _ _ _ _) as [[?|?] s1]; cbn [snd] in *.
    + rewrite (runScript_called (FResolve p) (FReject p) p called _ s1 Hk).
      cbn [snd]. split; [exact Hk|]. intros n. apply Hdec.
      apply (guardedBy_timersSetBy (FResolve p) (FReject p) p called).
    + split; [exact Hk|]. intros n.
      specialize (Hdec [] n (Forall_nil_2 _)). rewrite addTimers_nil in Hdec.
      exact Hdec.
  - (* rejectPromise(r) *)
    unfold rejectPromise. cbn [applyFn]. rewrite Hc0.
    pose proof (applyFn_keepsCalled (FReject p) r (setCalled called s0) _ Hset)
      as Hk.
    pose proof (rejectFn_pending p pr r (setCalled called s0) E0 pr_pending) as Hr.
    pose proof (rejectFn_normal p r (setCalled called s0)) as Hn.
    cbn [applyFn] in Hk.
    destruct (rejectFn p r _) as [o s1]. cbn [fst snd] in *. subst o.
    rewrite (runScript_called (FResolve p) (FReject p) p called _ s1 Hk).
    cbn [snd]. split; [exact Hk|]. intros n.
    apply run_settled; [exact Hr | discriminate].
Qed.

(** The timers of the foreign [then] fire one after the other while
    none of them has called back. *)
Lemma guarded_queue n : forall queue s,
  isCalled called s = false -> called < length (calledVars s) ->
  promises s !! p = Some pr ->
  timers s = timerOf <$> queue ->
  onceSpec s (firstInQueue n queue) (settlement (run n s) p).
Proof using All.
  induction n as [|n IH]; intros queue s Hc Hlt E Ht.
  - cbn. unfold settlement. rewrite E. cbn. rewrite pr_pending. reflexivity.
  - destruct queue as [|body rest].
    + cbn [firstInQueue onceSpec]. rewrite run_idle by exact Ht.
      unfold settlement. rewrite E. cbn. rewrite pr_pending. reflexivity.
    + cbn [run firstInQueue]. unfold tick. rewrite Ht.
      cbn [fmap list_fmap]. unfold timerOf at 1. cbn [runTask].
      set (s' := setTimers (timerOf <$> rest) s).
      assert (Hg : Forall (guardedBy called) (timers s')).
      { cbn. apply Forall_fmap, Forall_forall. intros later _.
        exists later, p, (FResolve p), (FReject p). reflexivity. }
      pose proof (guarded_script_step body s' Hc Hlt E Hg) as Hstep.
      cbv zeta in Hstep.
      destruct (firstCall body) as [y|r|e|].
      * destruct Hstep as [_ Hstep]. apply Hstep.
      * destruct Hstep as [_ Hstep]. apply Hstep.
      * rewrite Hstep. cbn [snd].
        apply (IH (rest ++ timersBefore body)
                 (addTimers (timerOf <$> timersBefore body) s')); auto.
        cbn. rewrite fmap_app. reflexivity.
      * rewrite Hstep. cbn [snd].
        apply (IH (rest ++ timersBefore body)
                 (addTimers (timerOf <$> timersBefore body) s')); auto.
        cbn. rewrite fmap_app. reflexivity.
Qed.

(** As soon as one of them has called back, [called] is set. *)
Lemma guarded_queue_called n : forall queue s,
  isCalled called s = false -> called < length (calledVars s) ->
  promises s !! p = Some pr ->
  timers s = timerOf <$> queue ->
  firstInQueue n queue <> NoCall ->
  isCalled called (run n s) = true.
Proof using All.
  induction n as [|n IH]; intros queue s Hc Hlt E Ht Hfirst;
    [contradiction Hfirst; reflexivity|].
  destruct queue as [|body rest]; [contradiction Hfirst; reflexivity|].
  cbn [run firstInQueue] in *. unfold tick. rewrite Ht.
  cbn [fmap list_fmap]. unfold timerOf at 1. cbn [runTask].
  set (s' := setTimers (timerOf <$> rest) s).
  assert (Hg : Forall (guardedBy called) (timers s')).
  { cbn. apply Forall_fmap, Forall_forall. intros later _.
    exists later, p, (FResolve p), (FReject p). reflexivity. }
  pose proof (guarded_script_step body s' Hc Hlt E Hg) as Hstep.
  cbv zeta in Hstep.
  destruct (firstCall body) as [y|r|e|].
  - destruct Hstep as [Hk _]. apply run_keepsCalled. exact Hk.
  - destruct Hstep as [Hk _]. apply run_keepsCalled. exact Hk.
  - rewrite Hstep. cbn [snd].
    apply (IH (rest ++ timersBefore body)
             (addTimers (timerOf <$> timersBefore body) s')); auto.
    cbn. rewrite fmap_app. reflexivity.
  - rewrite Hstep. cbn [snd].
    apply (IH (rest ++ timersBefore body)
             (addTimers (timerOf <$> timersBefore body) s')); auto.
    cbn. rewrite fmap_app. reflexivity.
Qed.

End GuardedThen.


(** ** [race]: a foreign thenable as first element *)

(** The number of timers that a body and its timers can set. *)
Fixpoint laters (body : Script) : nat :=
  match body with
  | SLater later k => S (laters later + laters k)
  | SFulfil _ k | SReject _ k => laters k
  | _ => 0
  end.

(** The number of timers that fire when a queue runs dry. *)
Fixpoint queueWeight (queue : list Script) : nat :=
  match queue with
  | [] => 0
  | body :: rest => S (laters body + queueWeight rest)
  end.

(** The first call that the timers of a queue make, however long it
    takes. *)
Definition firstOfQueue (queue : list Script) : FirstCall :=
  firstInQueue (queueWeight queue) queue.

(** The first thing that a [then] does, in the call itself or in a
    timer, however long it takes. *)
Definition firstOf (body : Script) : FirstCall :=
  firstWithin (laters body) body.

Lemma queueWeight_app q1 q2 :
  queueWeight (q1 ++ q2) = queueWeight q1 + queueWeight q2.
Proof. induction q1 as [|b q1 IH]; cbn; [reflexivity|]. rewrite IH. lia. Qed.

Lemma timersBefore_weight body : queueWeight (timersBefore body) <= laters body.
Proof.
  induction body; cbn; try lia.
Qed.

Lemma firstInQueue_enough n : forall m queue,
  queueWeight queue <= n -> queueWeight queue <= m ->
  firstInQueue n queue = firstInQueue m queue.
Proof.
  induction n as [|n IH]; intros m queue Hn Hm.
  - destruct queue as [|b rest]; [|cbn in Hn; lia].
    rewrite !firstInQueue_nil. reflexivity.
  - destruct queue as [|b rest]; [rewrite !firstInQueue_nil; reflexivity|].
    cbn in Hn, Hm. destruct m as [|m]; [lia|]. cbn [firstInQueue].
    pose proof (timersBefore_weight b) as Hb.
    destruct (firstCall b); try reflexivity;
      apply IH; rewrite queueWeight_app; lia.
Qed.

Lemma firstOfQueue_cons body rest :
  firstOfQueue (body :: rest)
  = match firstCall body with
    | CallsFulfil y => CallsFulfil y
    | CallsReject r => CallsReject r
    | _ => firstOfQueue (rest ++ timersBefore body)
    end.
Proof.
  unfold firstOfQueue. cbn [queueWeight firstInQueue].
  pose proof (timersBefore_weight body) as Hb.
  destruct (firstCall body); try reflexivity;
    apply firstInQueue_enough; rewrite ?queueWeight_app; lia.
Qed.

Lemma firstOf_later body :
  firstCall body = NoCall -> firstOf body = firstOfQueue (timersBefore body).
Proof.
  intros H. unfold firstOf, firstWithin, firstOfQueue. rewrite H.
  apply firstInQueue_enough; [apply timersBefore_weight | lia].
Qed.

Lemma firstOf_at_once body :
  firstCall body <> NoCall -> firstOf body = firstCall body.
Proof.
  intros H. unfold firstOf, firstWithin.
  destruct (firstCall body); try reflexivity. contradiction.
Qed.

(** What the first call makes of the promise that [race] returned; a
    call that passes a promise of this implementation settles
    nothing. *)
Definition raceOutcome (first : FirstCall) : option (Status * Val * Val) :=
  match first with
  | CallsFulfil y =>
      if isPromise y then None else Some (STATUS_FULFILLED, y, VNull)
  | CallsReject r => Some (STATUS_REJECTED, VNull, r)
  | Throws e => Some (STATUS_REJECTED, VNull, e)
  | NoCall => None
  end.

Definition passesPromise (first : FirstCall) : bool :=
  match first with
  | CallsFulfil y => isPromise y
  | _ => false
  end.

Lemma addTimers_app ts1 ts2 s :
  addTimers (ts1 ++ ts2) s = addTimers ts2 (addTimers ts1 s).
Proof.
  unfold addTimers, setTimers. cbn. rewrite app_assoc. reflexivity.
Qed.

Lemma owned_addTimers okP okC mine ts : forall s,
  Forall (allowed okP okC mine) ts -> Forall (timerReady s) ts ->
  owned okP okC mine s -> owned okP okC mine (addTimers ts s).
Proof.
  induction ts as [|t ts IH]; intros s Ha Hr Ho.
  - rewrite addTimers_nil. exact Ho.
  - inversion Ha; subst. inversion Hr; subst.
    rewrite <- addTimers_setTimeout. apply IH; [assumption| |].
    + eapply Forall_impl; [eassumption|]. intros t'. apply timerReady_mono.
      intros r st E _. exact E.
    + apply owned_setTimeout; assumption.
Qed.

Section RaceThenable.

(** [p] is the promise that [race] returns. *)
Variable p : nat.

(** A timer set by the [then] of the first element. *)
Definition raceScriptTimer (later : Script) : Task :=
  TScript later (FPass (FResolve p)) (FPass (FReject p)).

Definition isRaceScript (t : Task) : bool :=
  match t with
  | TScript _ (FPass (FResolve a)) (FPass (FReject b)) =>
      Nat.eqb a p && Nat.eqb b p
  | _ => false
  end.

Definition raceScript (t : Task) : Prop := isRaceScript t = true.

Definition scriptOf (t : Task) : option Script :=
  match t with
  | TScript later _ _ => if isRaceScript t then Some later else None
  | _ => None
  end.

(** The bodies of the timers of that [then] that wait in a queue, in
    the order in which they fire. *)
Definition scriptsIn (ts : list Task) : list Script := omap scriptOf ts.

Lemma isRaceScript_true t :
  isRaceScript t = true -> exists later, t = raceScriptTimer later.
Proof.
  destruct t as [| |later f g]; cbn; try discriminate.
  destruct f; try discriminate. destruct f; try discriminate.
  destruct g; try discriminate. destruct g; try discriminate.
  intros H. apply andb_prop in H as [H1 H2].
  apply Nat.eqb_eq in H1, H2. subst. exists later. reflexivity.
Qed.

Lemma scriptOf_ok okC t : taskOk (notId p) okC t = true -> scriptOf t = None.
Proof.
  destruct t as [| |later f g]; try reflexivity. cbn [scriptOf].
  destruct (isRaceScript (TScript later f g)) eqn:H; [|reflexivity].
  apply isRaceScript_true in H as [later' H]. injection H as -> -> ->.
  cbn. unfold notId. rewrite Nat.eqb_refl. discriminate.
Qed.

Lemma scriptOf_raceScriptTimer later :
  scriptOf (raceScriptTimer later) = Some later.
Proof. cbn. rewrite Nat.eqb_refl. reflexivity. Qed.

Lemma scriptsIn_cons t ts :
  scriptsIn (t :: ts)
  = match scriptOf t with
    | Some later => later :: scriptsIn ts
    | None => scriptsIn ts
    end.
Proof. reflexivity. Qed.

Lemma scriptsIn_app ts1 ts2 : scriptsIn (ts1 ++ ts2) = scriptsIn ts1 ++ scriptsIn ts2.
Proof. apply omap_app. Qed.

Lemma scriptsIn_scripts queue : scriptsIn (raceScriptTimer <$> queue) = queue.
Proof.
  induction queue as [|b queue IH]; [reflexivity|].
  cbn [fmap list_fmap]. rewrite scriptsIn_cons, scriptOf_raceScriptTimer, IH.
  reflexivity.
Qed.

Lemma scriptsIn_none ts :
  Forall (fun t => scriptOf t = None) ts -> scriptsIn ts = [].
Proof.
  induction 1 as [|t ts Ht _ IH]; [reflexivity|].
  rewrite scriptsIn_cons, Ht. exact IH.
Qed.

Lemma scriptsIn_callbacks s r pr (fns : list Cb) :
  wellFormed s -> promises s !! r = Some pr -> status pr = STATUS_PENDING ->
  fns = onFulfilledCbs pr \/ fns = onRejectedCbs pr ->
  scriptsIn (cbTask <$> fns) = [].
Proof.
  intros Hwf E Hst Hfns. apply scriptsIn_none, Forall_fmap.
  destruct Hfns as [-> | ->].
  - eapply Forall_impl; [exact (wf_onFulfilled s Hwf r pr E Hst)|].
    intros cb (f & p2 & ->). reflexivity.
  - eapply Forall_impl; [exact (wf_onRejected s Hwf r pr E Hst)|].
    intros cb (g & p2 & ->). reflexivity.
Qed.

(** [first] is the first call that the timers still noCallYet will make. *)
Variable first : FirstCall.

(** No call has been made: [p] is pending and the first call is still
    to come. *)
Definition noCallYet (s : State) : Prop :=
  settlement s p = Some pendingTriple
  /\ firstOfQueue (scriptsIn (timers s)) = first.

Definition raceWaiting : State -> Prop :=
  kept (notId p) anyId raceScript noCallYet.

Lemma noCallYet_same s s' :
  promises s' = promises s -> timers s' = timers s -> noCallYet s -> noCallYet s'.
Proof. intros Ep Et. unfold noCallYet, settlement. rewrite Ep, Et. trivial. Qed.

Lemma noCallYet_setTimeout okC t s :
  taskOk (notId p) okC t = true -> noCallYet s -> noCallYet (setTimeout t s).
Proof.
  intros Hok [H1 H2]. split; [exact H1|]. cbn [setTimeout timers setTimers].
  rewrite scriptsIn_app, scriptsIn_cons, (scriptOf_ok okC t Hok).
  rewrite app_nil_r. exact H2.
Qed.

Lemma noCallYet_alloc s :
  noCallYet s -> noCallYet (setPromises (promises s ++ [pendingPromise]) s).
Proof.
  intros [H1 H2]. split; [|exact H2].
  rewrite settlement_alloc; [exact H1|]. eapply settlement_lt; eauto.
Qed.

Lemma noCallYet_settle s r pr st v w fns :
  r <> p -> wellFormed s ->
  promises s !! r = Some pr -> status pr = STATUS_PENDING ->
  fns = onFulfilledCbs pr \/ fns = onRejectedCbs pr ->
  noCallYet s ->
  noCallYet (settledStore r
             (mkPromise st v w (onFulfilledCbs pr) (onRejectedCbs pr)) fns s).
Proof.
  intros Hr Hwf E Hst Hfns [H1 H2]. split.
  - rewrite settlement_settledStore by exact Hr. exact H1.
  - rewrite timers_settledStore, scriptsIn_app.
    rewrite (scriptsIn_callbacks s r pr fns Hwf E Hst Hfns), app_nil_r. exact H2.
Qed.

Lemma noCallYet_register s this tf tr :
  noCallYet s -> noCallYet (registeredStore this tf tr s).
Proof.
  intros [H1 H2]. split; [|exact H2].
  rewrite settlement_registeredStore. exact H1.
Qed.

Lemma noCallYet_pop okC t rest s :
  timers s = t :: rest -> taskOk (notId p) okC t = true ->
  noCallYet s -> noCallYet (setTimers rest s).
Proof.
  intros Et Hok [H1 H2]. split; [exact H1|]. cbn [setTimers timers].
  rewrite Et, scriptsIn_cons, (scriptOf_ok okC t Hok) in H2. exact H2.
Qed.

Ltac noCallYet_extra :=
  first
    [ solve [intros; eapply noCallYet_same; [| |eassumption]; reflexivity]
    | solve [intros; eapply noCallYet_setTimeout; eassumption]
    | solve [intros; apply noCallYet_alloc; assumption]
    | solve [intros;
             match goal with
             | Ho : owned _ _ _ ?s |- noCallYet (settledStore _ _ _ ?s) =>
                 eapply noCallYet_settle;
                 [ apply notId_true; eassumption
                 | exact (owned_wf _ _ _ _ Ho)
                 | eassumption | eassumption | | eassumption ]
             end; intuition auto]
    | solve [intros; apply noCallYet_register; assumption]
    | solve [intros; eapply noCallYet_pop; eauto] ].

Lemma noCallYet_call a s :
  actionOk (notId p) anyId a = true -> raceWaiting s ->
  match a with ATick => True | _ => raceWaiting (perform s a) end.
Proof.
  apply (performCall_kept (notId p) anyId raceScript noCallYet);
    noCallYet_extra.
Qed.

Lemma noCallYet_allowed_timer t rest s :
  timers s = t :: rest -> taskOk (notId p) anyId t = true ->
  raceWaiting s -> raceWaiting (runTask t (setTimers rest s)).
Proof.
  intros Et Hok [Ho Hw].
  apply (runTask_kept (notId p) anyId raceScript noCallYet);
    try noCallYet_extra; [exact Hok|].
  split; [eapply owned_pop; eauto | eapply noCallYet_pop; eauto].
Qed.

Hypothesis first_settles : passesPromise first = false.

(** A timer of the [then] of the first element fires before any call
    was made. *)
Lemma raceScript_fires later rest s :
  timers s = raceScriptTimer later :: rest -> raceWaiting s ->
  raceWaiting (runTask (raceScriptTimer later) (setTimers rest s))
  \/ exists x, raceOutcome first = Some x
       /\ settlement (runTask (raceScriptTimer later) (setTimers rest s)) p
          = Some x.
Proof using first_settles.
  intros Et [Ho [Hp Hfirst]].
  rewrite Et, scriptsIn_cons, scriptOf_raceScriptTimer in Hfirst.
  rewrite firstOfQueue_cons in Hfirst.
  unfold raceScriptTimer. cbn [runTask]. rewrite runScript_first. cbv zeta.
  change (fun later0 : Script =>
            TScript later0 (FPass (FResolve p)) (FPass (FReject p)))
    with raceScriptTimer.
  set (s0 := addTimers (raceScriptTimer <$> timersBefore later) (setTimers rest s)).
  assert (Ho0 : owned (notId p) anyId raceScript s0).
  { apply owned_addTimers; [| |eapply owned_pop; eauto].
    - apply Forall_fmap, Forall_forall. intros b _. right.
      unfold raceScript. cbn. rewrite Nat.eqb_refl. reflexivity.
    - apply Forall_fmap, Forall_forall. intros b _. exact I. }
  assert (Hw0 : firstOfQueue (scriptsIn rest ++ timersBefore later) = first ->
                raceWaiting s0).
  { intros H. split; [exact Ho0|]. split; [exact Hp|].
    unfold s0. cbn [addTimers timers setTimers].
    rewrite scriptsIn_app, scriptsIn_scripts. exact H. }
  assert (Hp0 : settlement s0 p = Some pendingTriple) by exact Hp.
  unfold settlement, pendingTriple in Hp0.
  destruct (promises s0 !! p) as [prp|] eqn:Ep; [|discriminate].
  cbn in Hp0. injection Hp0 as Hst Hv Hr.
  assert (Hlt : p < length (promises s0)) by (eapply lookup_lt_Some; eauto).
  destruct (firstCall later) as [y|r|e|].
  - (* the first call: [resolve(y)] *)
    assert (Hy : isPromise y = false).
    { pose proof first_settles as H. rewrite <- Hfirst in H. exact H. }
    right. exists (STATUS_FULFILLED, y, VNull).
    split; [rewrite <- Hfirst; cbn; rewrite Hy; reflexivity|].
    cbn [applyFn]. rewrite (resolveFn_plain _ _ _ Hy), Ep, Hst. cbv beta iota.
    match goal with
    | |- settlement (snd (runScript ?b ?f ?g ?S1)) p = _ =>
        rewrite (runScript_keepsSettled b f g S1 p)
    end.
    + rewrite settlement_settledStore_eq by exact Hlt. cbn. rewrite Hr.
      reflexivity.
    + eapply settlement_isSettled;
        [rewrite settlement_settledStore_eq by exact Hlt; reflexivity
        | discriminate].
  - (* the first call: [reject(r)] *)
    right. exists (STATUS_REJECTED, VNull, r).
    split; [rewrite <- Hfirst; reflexivity|].
    cbn [applyFn]. rewrite rejectFn_cases, Ep, Hst. cbv beta iota.
    match goal with
    | |- settlement (snd (runScript ?b ?f ?g ?S1)) p = _ =>
        rewrite (runScript_keepsSettled b f g S1 p)
    end.
    + rewrite settlement_settledStore_eq by exact Hlt. cbn. rewrite Hv.
      reflexivity.
    + eapply settlement_isSettled;
        [rewrite settlement_settledStore_eq by exact Hlt; reflexivity
        | discriminate].
  - left. cbn [snd]. apply Hw0. exact Hfirst.
  - left. cbn [snd]. apply Hw0. exact Hfirst.
Qed.

(** Whatever the program does, either no call has been made yet, or
    the first call has settled [p]. *)
Lemma race_thenable_run later : forall s,
  forallb (actionOk (notId p) anyId) later = true ->
  raceWaiting s ->
  raceWaiting (performAll later s)
  \/ exists x, raceOutcome first = Some x
       /\ settlement (performAll later s) p = Some x.
Proof using first_settles.
  induction later as [|a later IH]; intros s Hacts HK; [left; exact HK|].
  cbn in Hacts. apply andb_prop in Hacts as [Ha Hacts].
  change (performAll (a :: later) s) with (performAll later (perform s a)).
  assert (Hstep : raceWaiting (perform s a)
                  \/ exists x, raceOutcome first = Some x
                       /\ settlement (perform s a) p = Some x).
  { destruct a; try (left; exact (noCallYet_call _ s Ha HK)).
    cbn [perform]. unfold tick.
    destruct (timers s) as [|t rest] eqn:Et; [left; exact HK|].
    assert (Hhead : allowed (notId p) anyId raceScript t).
    { destruct HK as [[_ _ [Hl _]] _]. rewrite Et in Hl.
      inversion Hl; subst; assumption. }
    destruct Hhead as [Hok|Hm].
    - left. eapply noCallYet_allowed_timer; eauto.
    - apply isRaceScript_true in Hm as [b ->].
      eapply raceScript_fires; eauto. }
  destruct Hstep as [HK'|([[st v] r] & Hx & Hs)]; [apply IH; assumption|].
  right. exists (st, v, r). split; [exact Hx|].
  rewrite <- Hs. apply performAll_keepsSettled.
  eapply settlement_isSettled; [exact Hs|].
  destruct first as [y| | |]; cbn in Hx; try discriminate;
    try (destruct (isPromise y); try discriminate);
    injection Hx as <- _ _; discriminate.
Qed.

End RaceThenable.

(** ** [race]: the first element decides *)

Lemma nonempty_iterable s iterable x rest :
  arrayOf s iterable = Some (x :: rest) -> isIterable iterable = true.
Proof.
  destruct iterable; cbn; try discriminate; try reflexivity.
  destruct txt; cbn; [discriminate | reflexivity].
Qed.

(** Only the first element of the input is read. *)
Lemma race_first_only iterable x rest s :
  arrayOf s iterable = Some (x :: rest) ->
  race iterable s = race (VArr [x]) s.
Proof.
  intros Harr. unfold race.
  rewrite (nonempty_iterable s iterable x rest Harr).
  cbn [isIterable truthy andb]. unfold construct.
  set (s1 := setPromises (promises s ++ [pendingPromise]) s).
  assert (Harr1 : arrayOf s1 iterable = Some (x :: rest)).
  { rewrite <- Harr. destruct iterable; reflexivity. }
  assert (He : raceExecutor iterable (length (promises s)) s1
               = raceExecutor (VArr [x]) (length (promises s)) s1).
  { unfold raceExecutor, lengthOf, elemAt. rewrite Harr1. reflexivity. }
  rewrite He. reflexivity.
Qed.

(** The store when [race] returns, for a thenable that neither calls
    back nor throws in the call of its [then]. *)
Lemma race_thenable_later c body s :
  firstCall body = NoCall ->
  snd (race (VArr [VObj c (ThenFunction body)]) s)
  = addTimers (raceScriptTimer (length (promises s)) <$> timersBefore body)
      (withNewPromise s).
Proof.
  intros H. unfold race. cbn [isIterable truthy andb].
  unfold construct, raceExecutor.
  cbn [lengthOf arrayOf fmap option_fmap option_map length].
  change (elemAt _ (VArr [VObj c (ThenFunction body)]) 0)
    with (VObj c (ThenFunction body)).
  cbn [testThen truthy callThen]. rewrite runScript_first, H. reflexivity.
Qed.

(** [p] has the outcome [x] of the first call, or is still pending
    while a timer of the thenable has to fire; not so when the call was
    made inside [then] itself, nor when no timer is left. *)
Definition decidedBy (body : Script) (p : nat) (x : Status * Val * Val)
    (final : State) : Prop :=
  (settlement final p = Some x \/ settlement final p = Some pendingTriple)
  /\ (firstCall body <> NoCall \/ timers final = [] ->
      settlement final p = Some x).

(** What [race] promises of its first element [x], for the promise [p]
    that it returns; [final] is the store at any later time. *)
Definition raceSpec (x : Val) (p : nat) (final : State) : Prop :=
  match x with
  | VPromise q => adopts q p (S p) final
  | VObj _ (ThenFunction body) =>
      match firstOf body with
      | CallsFulfil (VPromise q) =>
          body = SFulfil (VPromise q) SEnd -> q < p -> adopts q p (S p) final
      | CallsFulfil y => decidedBy body p (STATUS_FULFILLED, y, VNull) final
      | CallsReject r => decidedBy body p (STATUS_REJECTED, VNull, r) final
      | Throws e => settlement final p = Some (STATUS_REJECTED, VNull, e)
      | NoCall => settlement final p = Some pendingTriple
      end
  | VObj _ (ThenGetterThrows e) =>
      settlement final p = Some (STATUS_REJECTED, VNull, e)
  | _ => settlement final p = Some (STATUS_FULFILLED, x, VNull)
  end.

(** A promise of this implementation as first element. *)
Lemma race_promise_adopts q s later :
  let p := length (promises s) in
  q < p -> wellFormed s -> liveOk (notId p) anyId nobody s ->
  forallb (actionOk (notId p) anyId) later = true ->
  adopts q p (S p) (performAll later (snd (race (VArr [VPromise q]) s))).
Proof.
  intros p Hx Hwf Hlive Hacts.
  assert (Hq : q <> p) by lia.
  assert (Hp2 : S p <> p) by lia.
  exact (proj2 (race_performAll_kept q p (S p) Hq Hp2 later _ Hacts
                  (race_promise_kept q [] s Hx Hwf Hlive))).
Qed.

(** A thenable whose [then] passes a promise of this implementation
    and does nothing else is treated as that promise. *)
Lemma race_thenable_passes c q s :
  race (VArr [VObj c (ThenFunction (SFulfil (VPromise q) SEnd))]) s
  = race (VArr [VPromise q]) s.
Proof.
  unfold race. cbn [isIterable truthy andb]. unfold construct, raceExecutor.
  cbn [lengthOf arrayOf fmap option_fmap option_map length].
  change (elemAt _ (VArr [VObj c (ThenFunction (SFulfil (VPromise q) SEnd))]) 0)
    with (VObj c (ThenFunction (SFulfil (VPromise q) SEnd))).
  change (elemAt _ (VArr [VPromise q]) 0) with (VPromise q).
  cbn [testThen truthy callThen runScript applyFn resolveFn].
  destruct (then_ q _ _ _) as [p2 s2]. reflexivity.
Qed.

(** A thenable whose first call comes from a timer, if at all. *)
Lemma race_thenable_waits c body s later :
  let p := length (promises s) in
  let final := performAll later (snd (race (VArr [VObj c (ThenFunction body)]) s)) in
  firstCall body = NoCall ->
  passesPromise (firstOf body) = false ->
  wellFormed s -> liveOk (notId p) anyId nobody s ->
  forallb (actionOk (notId p) anyId) later = true ->
  (settlement final p = Some pendingTriple
   /\ firstOfQueue (scriptsIn p (timers final)) = firstOf body)
  \/ exists x, raceOutcome (firstOf body) = Some x /\ settlement final p = Some x.
Proof.
  intros p final Hfc Hpass Hwf Hlive Hacts.
  assert (HK : raceWaiting p (firstOf body)
                 (snd (race (VArr [VObj c (ThenFunction body)]) s))).
  { rewrite (race_thenable_later c body s Hfc). fold p. split.
    - apply owned_addTimers.
      + apply Forall_fmap, Forall_forall. intros b _. right.
        unfold raceScript. cbn. rewrite Nat.eqb_refl. reflexivity.
      + apply Forall_fmap, Forall_forall. intros b _. exact I.
      + apply owned_newPromise; assumption.
    - split; [apply settlement_new|].
      cbn [addTimers timers setTimers withNewPromise setPromises].
      rewrite scriptsIn_app, scriptsIn_scripts, (scriptsIn_none p (timers s)).
      + cbn [app]. symmetry. apply firstOf_later. exact Hfc.
      + destruct Hlive as [Hl _]. eapply Forall_impl; [exact Hl|].
        intros t [Hok|[]]. eapply scriptOf_ok. exact Hok. }
  destruct (race_thenable_run p (firstOf body) Hpass later _ Hacts HK)
    as [[_ Hw]|Hx]; [left; exact Hw | right; exact Hx].
Qed.



(** * Instances on concrete runs *)

(** [PromiseImpl.reject('x')] in the empty store. *)
Definition rejectedX : State := snd (reject_ (VStr "x") emptyState).

Lemma single_settlement_witness :
  isSettled rejectedX 0
  /\ settlement
       (performAll [ATick; ACall (FReject 0) (VNum 3)]
          (snd (applyFn (FResolve 0) (VNum 1) rejectedX))) 0
     = settlement rejectedX 0.
Proof.
  assert (H : isSettled rejectedX 0).
  { eexists. split; [reflexivity | discriminate]. }
  split; [exact H|].
  exact (proj1 (single_settlement rejectedX 0 (VNum 1)
                  [ATick; ACall (FReject 0) (VNum 3)] H)).
Defined.

(** A pending promise, as [deferred()] makes it. *)
Definition onePending : State := snd (deferred emptyState).

Lemma self_resolution_rejects_witness :
  settlement (snd (promiseResolutionProcedure 0 (VPromise 0)
                     (FResolve 0) (FReject 0) onePending)) 0
  = Some (STATUS_REJECTED, VNull, VTypeError cyclicMessage).
Proof.
  exact (proj1 (proj2 (self_resolution_rejects 0 pendingPromise
                         (FResolve 0) (FReject 0) onePending
                         eq_refl eq_refl))).
Defined.

Lemma race_empty_never_settles_witness :
  settlement
    (performAll [AThen 1 (Some FIdentity) None; ATick;
                 ACall (FResolve 0) (VNum 1)]
       (snd (race (VArr []) rejectedX))) 1
  = Some (STATUS_PENDING, VNull, VNull).
Proof.
  exact (proj2 (race_empty_never_settles rejectedX
                  [AThen 1 (Some FIdentity) None; ATick;
                   ACall (FResolve 0) (VNum 1)]
                  eq_refl eq_refl eq_refl)).
Defined.


(** The same run, evaluated: the promise returned by [race] has taken
    the value of its first element. *)
Example race_adopts_seven :
  settlement
    (performAll [ACall (FResolve 0) (VNum 7); ATick]
       (snd (race (VArr [VPromise 0; VNum 9]) onePending))) 1
  = Some (STATUS_FULFILLED, VNum 7, VNull).
Proof. reflexivity. Qed.

Lemma not_iterable_is_returned_witness :
  all (VNum 5) emptyState
  = (Normal (VTypeError (notIterableMessage (VNum 5))), emptyState).
Proof.
  exact (proj1 (not_iterable_is_returned (VNum 5) emptyState eq_refl)).
Defined.

(** Two pending promises, [slow] and [fast]. *)
Definition twoPending : State := snd (deferred (snd (deferred emptyState))).

(** [all([slow, 1, fast])], after which [fast] is fulfilled, then [slow],
    and the timers run. *)
Definition slowFastRun : list Action :=
  [ACall (FResolve 1) (VStr "fast"); ACall (FResolve 0) (VStr "slow");
   ATick; ATick; ATick; ATick].

Lemma all_results_in_index_order_witness :
  allSpec [VPromise 0; VNum 1; VPromise 1] 2 0
    (performAll slowFastRun
       (snd (all (VArr [VPromise 0; VNum 1; VPromise 1]) twoPending))).
Proof.
  exact (proj1 (proj2 (all_results_in_index_order
                         [VPromise 0; VNum 1; VPromise 1] twoPending
                         slowFastRun []
                         eq_refl eq_refl eq_refl eq_refl))).
Defined.

(** The same run, evaluated: the results are in the order of the input,
    not in the order in which the promises were fulfilled. *)
Example all_slow_one_fast :
  let final :=
    performAll slowFastRun
      (snd (all (VArr [VPromise 0; VNum 1; VPromise 1]) twoPending)) in
  settlement final 2 = Some (STATUS_FULFILLED, VRes 0, VNull)
  /\ arrayOf final (VRes 0) = Some [VStr "slow"; VNum 1; VStr "fast"].
Proof. cbv zeta. split; reflexivity. Qed.

(** [allSettled([PromiseImpl.reject('x'), 1])], evaluated: on promises
    of this implementation and plain values the records are as the
    outcomes, in the order of the input. *)
Example allSettled_rejected_and_plain :
  let final :=
    run 6 (snd (allSettled (VArr [VPromise 0; VNum 1]) rejectedX)) in
  fst (allSettled (VArr [VPromise 0; VNum 1]) rejectedX) = Normal (VPromise 4)
  /\ settlement final 4 = Some (STATUS_FULFILLED, VRes 0, VNull)
  /\ arrayOf final (VRes 0)
     = Some [VSettled STATUS_REJECTED (VStr "x");
             VSettled STATUS_FULFILLED (VNum 1)].
Proof. cbv zeta. repeat split; reflexivity. Qed.

(** [PromiseImpl.resolve(7)] in the empty store. *)
Definition fulfilledSeven : State := snd (resolve_ (VNum 7) emptyState).

(** A handler that adds one to a number and throws anything else. *)
Definition addOne (v : Val) : Outcome :=
  match v with
  | VNum n => Normal (VNum (n + 1))
  | _ => Thrown v
  end.

Lemma then_without_handler_hands_on_witness :
  settlement (tick (snd (then_ 0 None None rejectedX))) 1
  = Some (STATUS_REJECTED, VNull, VStr "x").
Proof.
  exact (then_without_handler_hands_on 0 _ None None rejectedX
           eq_refl eq_refl eq_refl).
Defined.

Lemma then_handler_decides_witness :
  settledBy (addOne (VNum 7))
    (tick (snd (then_ 0 (Some (FUser addOne)) None fulfilledSeven))) 1
  /\ handlerLog (tick (snd (then_ 0 (Some (FUser addOne)) None fulfilledSeven)))
     = handlerLog fulfilledSeven ++ [HandlerCalled 0 (FUser addOne) (VNum 7)].
Proof.
  exact (then_handler_decides 0 _ addOne (Some (FUser addOne)) None
           fulfilledSeven eq_refl eq_refl eq_refl).
Defined.

Lemma catch_recovers_witness :
  settledBy (addOne (VStr "x"))
    (tick (snd (catch_ 0 (Some (FUser addOne)) rejectedX))) 1
  /\ handlerLog (tick (snd (catch_ 0 (Some (FUser addOne)) rejectedX)))
     = handlerLog rejectedX ++ [HandlerCalled 0 (FUser addOne) (VStr "x")].
Proof.
  exact (catch_recovers 0 _ addOne rejectedX eq_refl eq_refl).
Defined.

(** An executor that fulfils its promise and then throws. *)
Definition resolveThenThrow (this : nat) (s : State) : Outcome * State :=
  (Thrown (VStr "late"), snd (resolveFn this (VNum 1) s)).

Lemma construct_catches_witness :
  fst (construct resolveThenThrow emptyState) = 0
  /\ snd (construct resolveThenThrow emptyState)
     = snd (resolveFn 0 (VNum 1) (withNewPromise emptyState)).
Proof.
  exact (construct_catches resolveThenThrow emptyState _ (VStr "late") eq_refl).
Defined.

Lemma resolve_reject_settle_at_once_witness :
  settlement (snd (resolve_ (VNum 7) onePending)) 1
  = Some (STATUS_FULFILLED, VNum 7, VNull).
Proof.
  exact (proj1 (proj2 (proj1 (resolve_reject_settle_at_once (VNum 7) VNull
                                onePending) eq_refl))).
Defined.

Lemma deferred_then_settle_witness :
  snd (applyFn (FResolve 0) (VNum 7) (snd (deferred emptyState)))
  = snd (resolve_ (VNum 7) emptyState).
Proof.
  exact (proj1 (proj2 (proj2 (proj2 (deferred_then_settle (VNum 7) VNull
                                       emptyState)))) eq_refl).
Defined.

Lemma resolve_idempotent_witness :
  isPromise (VPromise 0) = true
  /\ resolve_ (VPromise 0) fulfilledSeven = (Normal (VPromise 0), fulfilledSeven).
Proof.
  exact (resolve_idempotent (VNum 7) (VPromise 0) emptyState fulfilledSeven
           eq_refl).
Defined.

(** A [then] that sets a timer, rejects, fulfils and throws. *)
Definition hostileThen : Script :=
  SLater (SFulfil (VNum 0) SEnd)
    (SReject (VStr "first") (SFulfil (VNum 1) (SThrow (VStr "late")))).

Lemma prp_thenable_first_call_witness :
  settlement
    (snd (promiseResolutionProcedure 0 (VObj false (ThenFunction hostileThen))
            (FResolve 0) (FReject 0) onePending)) 0
  = Some (STATUS_REJECTED, VNull, VStr "first").
Proof.
  exact (proj2 (prp_thenable_first_call 0 _ false hostileThen VNull onePending
                  eq_refl eq_refl)).
Defined.

(** A pending promise beside the fulfilled one. *)
Definition sevenAndPending : State := snd (deferred fulfilledSeven).

Lemma prp_adopts_promise_witness :
  settlement
    (tick (snd (promiseResolutionProcedure 1 (VPromise 0) (FResolve 1)
                  (FReject 1) sevenAndPending))) 1
  = Some (STATUS_FULFILLED, VNum 7, VNull).
Proof.
  exact (proj2 (proj2 (prp_adopts_promise 1 0 _ _ sevenAndPending
                         ltac:(discriminate) eq_refl eq_refl eq_refl eq_refl))
           eq_refl).
Defined.

Lemma resolve_with_promise_witness :
  settlement
    (tick (snd (applyFn (FResolve 1) (VPromise 0) sevenAndPending))) 1
  = Some (STATUS_FULFILLED, VNum 7, VNull).
Proof.
  exact (proj2 (proj2 (resolve_with_promise 1 0 _ _ VNull sevenAndPending
                         eq_refl eq_refl eq_refl eq_refl))
           eq_refl).
Defined.

Lemma callbacks_in_order_of_then_witness :
  timers (snd (applyFn (FResolve 0) (VNum 1)
                 (thenEach 0 [(Some (FUser addOne), None); (None, None)]
                    onePending)))
  = [TFulfilled 0 (FUser addOne) 1; TFulfilled 0 FIdentity 2].
Proof.
  exact (proj1 (proj2 (callbacks_in_order_of_then 0 _
                         [(Some (FUser addOne), None); (None, None)] (VNum 1)
                         onePending eq_refl eq_refl)) eq_refl).
Defined.

Lemma then_settles_nothing_witness :
  settlement (snd (then_ 0 (Some (FUser addOne)) None fulfilledSeven)) 0
  = settlement fulfilledSeven 0.
Proof.
  exact (proj2 (proj2 (then_settles_nothing 0 _ (Some (FUser addOne)) None
                         fulfilledSeven eq_refl)) 0 ltac:(discriminate)).
Defined.

Lemma reachable_stores_well_formed_witness :
  Forall (timerReady
            (performAll [AResolve (VNum 1); AThen 0 None None;
                         ACall (FResolve 1) (VPromise 0); ATick] emptyState))
    (timers (performAll [AResolve (VNum 1); AThen 0 None None;
                         ACall (FResolve 1) (VPromise 0); ATick] emptyState)).
Proof.
  exact (proj2 (reachable_stores_well_formed emptyState
                  [AResolve (VNum 1); AThen 0 None None;
                   ACall (FResolve 1) (VPromise 0); ATick] eq_refl)).
Defined.


Lemma all_of_values_is_fulfilled_witness :
  arrayOf (snd (all (VStr "ab") onePending)) (VRes 0)
  = Some [VStr "a"; VStr "b"].
Proof.
  exact (proj1 (proj2 (proj2 (all_of_values_is_fulfilled (VStr "ab")
                                [VStr "a"; VStr "b"] onePending eq_refl
                                (fun _ => eq_refl)
                                ltac:(repeat constructor))))).
Defined.

Lemma all_rejects_when_then_throws_witness :
  settlement
    (snd (all (VArr ([VNum 1] ++ VObj false (ThenGetterThrows (VStr "e"))
                       :: [VPromise 0])) onePending)) 1
  = Some (STATUS_REJECTED, VNull, VStr "e").
Proof.
  exact (proj1 (proj2 (all_rejects_when_then_throws [VNum 1] [VPromise 0] false
                         (VStr "e") onePending ltac:(repeat constructor)))).
Defined.

(** A rejected promise and a pending one. *)
Definition rejectedAndPending : State := snd (deferred rejectedX).

(** The pending promise is fulfilled after the call, then the timers
    run. *)
Definition lateRun : list Action :=
  [ACall (FResolve 1) (VStr "late"); ATick; ATick; ATick; ATick; ATick; ATick].

Lemma allSettled_records_in_order_witness :
  allSettledSpec [VPromise 1; VNum 1; VPromise 0] 6 0
    (performAll lateRun
       (snd (allSettled (VArr [VPromise 1; VNum 1; VPromise 0])
               rejectedAndPending))).
Proof.
  exact (proj2 (allSettled_records_in_order
                  [VPromise 1; VNum 1; VPromise 0] rejectedAndPending lateRun
                  eq_refl eq_refl eq_refl eq_refl)).
Defined.

(** The same run, evaluated. *)
Example allSettled_late_and_rejected :
  let final :=
    performAll lateRun
      (snd (allSettled (VArr [VPromise 1; VNum 1; VPromise 0])
              rejectedAndPending)) in
  settlement final 6 = Some (STATUS_FULFILLED, VRes 0, VNull)
  /\ arrayOf final (VRes 0)
     = Some [VSettled STATUS_FULFILLED (VStr "late");
             VSettled STATUS_FULFILLED (VNum 1);
             VSettled STATUS_REJECTED (VStr "x")].
Proof. cbv zeta. split; reflexivity. Qed.

(** [then] on a pending promise, which is then fulfilled with 7; one
    timer later the handler has made 8 of it. *)
Lemma handlers_are_deferred_witness :
  settlement
    (tick (snd (applyFn (FResolve 0) (VNum 7)
                  (snd (then_ 0 (Some (FUser addOne)) None onePending))))) 1
  = Some (STATUS_FULFILLED, VNum 8, VNull).
Proof.
  exact (proj1 (proj1 (proj2 (proj2
           (handlers_are_deferred 0 pendingPromise (Some (FUser addOne)) None
              addOne (VNum 7) VNull onePending eq_refl))
           eq_refl eq_refl eq_refl) eq_refl eq_refl) eq_refl).
Defined.

(** The same [then], when it returns and when [_resolve(7)] of the
    source returns: [promise2] is pending and the handler waits in the
    queue. *)
Example then_and_resolve_call_no_handler :
  let afterThen := snd (then_ 0 (Some (FUser addOne)) None onePending) in
  let resolved := snd (applyFn (FResolve 0) (VNum 7) afterThen) in
  settlement afterThen 1 = Some pendingTriple
  /\ timers afterThen = []
  /\ settlement resolved 1 = Some pendingTriple
  /\ timers resolved = [TFulfilled 0 (FUser addOne) 1]
  /\ handlerLog resolved = [].
Proof. cbv zeta. repeat split; reflexivity. Qed.

(** A [then] that calls nothing itself and sets two timers: the first
    fulfils with 7, rejects and throws; the second rejects. *)
Definition lateCalls : Script :=
  SLater (SFulfil (VNum 7) (SReject (VStr "x") (SThrow (VStr "boom"))))
    (SLater (SReject (VStr "late") SEnd) SEnd).


(** A timer that passes a pending promise and then rejects: the promise
    follows the one passed, and the rejection is ignored. *)
Example once_guard_locks_in :
  let body := SLater (SFulfil (VPromise 0) (SReject (VStr "x") SEnd)) SEnd in
  let s := snd (deferred onePending) in
  settlement
    (run 3 (snd (promiseResolutionProcedure 1 (VObj false (ThenFunction body))
                   (FResolve 1) (FReject 1) s))) 1
  = Some (STATUS_PENDING, VNull, VNull).
Proof. reflexivity. Qed.

(** A thenable whose [then] calls back from a timer only: it rejects,
    then fulfils. *)
Definition lateThenable : Val :=
  VObj false (ThenFunction
    (SLater (SReject (VStr "late") (SFulfil (VNum 1) SEnd)) SEnd)).


(** The same run, evaluated, and [race] on a string. *)
Example race_late_and_string :
  settlement (snd (race (VArr [lateThenable; VNum 9]) onePending)) 1
  = Some pendingTriple
  /\ settlement
       (performAll [ATick] (snd (race (VArr [lateThenable; VNum 9]) onePending))) 1
     = Some (STATUS_REJECTED, VNull, VStr "late")
  /\ settlement (snd (race (VStr "ab") onePending)) 1
     = Some (STATUS_FULFILLED, VStr "a", VNull).
Proof. repeat split; reflexivity. Qed.
